(** * watgbridge: dispatch queues and reconciliation scheduler

    A shallow embedding of [queue/queue.go], [scheduler/scheduler.go] and
    [profilepic/profilepic.go], followed by the properties the bridge's
    specification states about them.

    Conventions.
    - A Go [string] is a sequence of bytes: Rocq's [string]. Where Go reads
      a string as UTF-8 text ([strings.ToUpper]), so does the embedding.
    - A Go [error] is [nil] or carries a text ([err.Error()]): [option string].
    - An [int64] identifier is a [Z]; the code only compares identifiers.
    - Calls into collaborators that are not part of the two packages (the
      Telegram client, the persistence layer, the contact and topic-name
      synchronisation helpers, the logger) are recorded, in order, in a list
      of calls; their answers come from an environment record. *)

From Stdlib Require Import List String Ascii ZArith NArith Bool Lia Permutation.
Import ListNotations.

Local Open Scope string_scope.
Local Open Scope list_scope.

(* ===================================================================== *)
(** * Part I: the program *)
(* ===================================================================== *)

(** ** Go's [unicode] package: upper case of a code point *)

Module Unicode.

Definition MaxASCII : N := 127.

(** A row of the case table: the code points [Lo], [Lo + Stride], ...,
    up to [Hi] have their upper case at distance [Delta]. *)
Record CaseRange := row { Lo : N; Hi : N; Stride : N; Delta : Z }.

(** The upper-case side of [unicode.CaseRanges]: the simple upper-case
    mappings of the Unicode Character Database, from which Go's table is
    generated (here as of version 14.0), in increasing order. A code point
    that is its own upper case is in no row. U+0131 (dotless i, row 305)
    and U+017F (long s, row 383) are the two code points outside ASCII
    whose upper case is an ASCII letter. *)
Definition CaseRanges : list CaseRange :=
  [ row 97 122 1 (-32); row 181 181 1 743; row 224 246 1 (-32);
    row 248 254 1 (-32); row 255 255 1 121; row 257 303 2 (-1);
    row 305 305 1 (-232); row 307 311 2 (-1); row 314 328 2 (-1);
    row 331 375 2 (-1); row 378 382 2 (-1); row 383 383 1 (-300);
    row 384 384 1 195; row 387 389 2 (-1); row 392 392 1 (-1);
    row 396 396 1 (-1); row 402 402 1 (-1); row 405 405 1 97;
    row 409 409 1 (-1); row 410 410 1 163; row 414 414 1 130;
    row 417 421 2 (-1); row 424 424 1 (-1); row 429 429 1 (-1);
    row 432 432 1 (-1); row 436 438 2 (-1); row 441 441 1 (-1);
    row 445 445 1 (-1); row 447 447 1 56; row 453 453 1 (-1);
    row 454 454 1 (-2); row 456 456 1 (-1); row 457 457 1 (-2);
    row 459 459 1 (-1); row 460 460 1 (-2); row 462 476 2 (-1);
    row 477 477 1 (-79); row 479 495 2 (-1); row 498 498 1 (-1);
    row 499 499 1 (-2); row 501 501 1 (-1); row 505 543 2 (-1);
    row 547 563 2 (-1); row 572 572 1 (-1); row 575 576 1 10815;
    row 578 578 1 (-1); row 583 591 2 (-1); row 592 592 1 10783;
    row 593 593 1 10780; row 594 594 1 10782; row 595 595 1 (-210);
    row 596 596 1 (-206); row 598 599 1 (-205); row 601 601 1 (-202);
    row 603 603 1 (-203); row 604 604 1 42319; row 608 608 1 (-205);
    row 609 609 1 42315; row 611 611 1 (-207); row 613 613 1 42280;
    row 614 614 1 42308; row 616 616 1 (-209); row 617 617 1 (-211);
    row 618 618 1 42308; row 619 619 1 10743; row 620 620 1 42305;
    row 623 623 1 (-211); row 625 625 1 10749; row 626 626 1 (-213);
    row 629 629 1 (-214); row 637 637 1 10727; row 640 640 1 (-218);
    row 642 642 1 42307; row 643 643 1 (-218); row 647 647 1 42282;
    row 648 648 1 (-218); row 649 649 1 (-69); row 650 651 1 (-217);
    row 652 652 1 (-71); row 658 658 1 (-219); row 669 669 1 42261;
    row 670 670 1 42258; row 837 837 1 84; row 881 883 2 (-1);
    row 887 887 1 (-1); row 891 893 1 130; row 940 940 1 (-38);
    row 941 943 1 (-37); row 945 961 1 (-32); row 962 962 1 (-31);
    row 963 971 1 (-32); row 972 972 1 (-64); row 973 974 1 (-63);
    row 976 976 1 (-62); row 977 977 1 (-57); row 981 981 1 (-47);
    row 982 982 1 (-54); row 983 983 1 (-8); row 985 1007 2 (-1);
    row 1008 1008 1 (-86); row 1009 1009 1 (-80); row 1010 1010 1 7;
    row 1011 1011 1 (-116); row 1013 1013 1 (-96); row 1016 1016 1 (-1);
    row 1019 1019 1 (-1); row 1072 1103 1 (-32); row 1104 1119 1 (-80);
    row 1121 1153 2 (-1); row 1163 1215 2 (-1); row 1218 1230 2 (-1);
    row 1231 1231 1 (-15); row 1233 1327 2 (-1); row 1377 1414 1 (-48);
    row 4304 4346 1 3008; row 4349 4351 1 3008; row 5112 5117 1 (-8);
    row 7296 7296 1 (-6254); row 7297 7297 1 (-6253);
    row 7298 7298 1 (-6244); row 7299 7300 1 (-6242);
    row 7301 7301 1 (-6243); row 7302 7302 1 (-6236);
    row 7303 7303 1 (-6181); row 7304 7304 1 35266; row 7545 7545 1 35332;
    row 7549 7549 1 3814; row 7566 7566 1 35384; row 7681 7829 2 (-1);
    row 7835 7835 1 (-59); row 7841 7935 2 (-1); row 7936 7943 1 8;
    row 7952 7957 1 8; row 7968 7975 1 8; row 7984 7991 1 8;
    row 8000 8005 1 8; row 8017 8023 2 8; row 8032 8039 1 8;
    row 8048 8049 1 74; row 8050 8053 1 86; row 8054 8055 1 100;
    row 8056 8057 1 128; row 8058 8059 1 112; row 8060 8061 1 126;
    row 8064 8071 1 8; row 8080 8087 1 8; row 8096 8103 1 8;
    row 8112 8113 1 8; row 8115 8115 1 9; row 8126 8126 1 (-7205);
    row 8131 8131 1 9; row 8144 8145 1 8; row 8160 8161 1 8;
    row 8165 8165 1 7; row 8179 8179 1 9; row 8526 8526 1 (-28);
    row 8560 8575 1 (-16); row 8580 8580 1 (-1); row 9424 9449 1 (-26);
    row 11312 11359 1 (-48); row 11361 11361 1 (-1);
    row 11365 11365 1 (-10795); row 11366 11366 1 (-10792);
    row 11368 11372 2 (-1); row 11379 11379 1 (-1); row 11382 11382 1 (-1);
    row 11393 11491 2 (-1); row 11500 11502 2 (-1); row 11507 11507 1 (-1);
    row 11520 11557 1 (-7264); row 11559 11559 1 (-7264);
    row 11565 11565 1 (-7264); row 42561 42605 2 (-1);
    row 42625 42651 2 (-1); row 42787 42799 2 (-1); row 42803 42863 2 (-1);
    row 42874 42876 2 (-1); row 42879 42887 2 (-1); row 42892 42892 1 (-1);
    row 42897 42899 2 (-1); row 42900 42900 1 48; row 42903 42921 2 (-1);
    row 42933 42947 2 (-1); row 42952 42954 2 (-1); row 42961 42961 1 (-1);
    row 42967 42969 2 (-1); row 42998 42998 1 (-1);
    row 43859 43859 1 (-928); row 43888 43967 1 (-38864);
    row 65345 65370 1 (-32); row 66600 66639 1 (-40);
    row 66776 66811 1 (-40); row 66967 66977 1 (-39);
    row 66979 66993 1 (-39); row 66995 67001 1 (-39);
    row 67003 67004 1 (-39); row 68800 68850 1 (-64);
    row 71872 71903 1 (-32); row 93792 93823 1 (-32);
    row 125218 125251 1 (-34) ].

Definition covers (r : N) (cr : CaseRange) : bool :=
  (Lo cr <=? r)%N && (r <=? Hi cr)%N && ((r - Lo cr) mod Stride cr =? 0)%N.

(** [unicode.To(UpperCase, r)]: the row that holds [r] moves it; a code
    point in no row is kept. *)
Definition To_UpperCase (r : N) : N :=
  match find (covers r) CaseRanges with
  | Some cr => Z.to_N (Z.of_N r + Delta cr)
  | None => r
  end.

(** [unicode.ToUpper] *)
Definition ToUpper (r : N) : N :=
  if (r <=? MaxASCII)%N then
    if (97 <=? r)%N && (r <=? 122)%N then (r - 32)%N else r
  else To_UpperCase r.

End Unicode.

(** ** Go's [unicode/utf8] package *)

Module Utf8.

Definition RuneError : N := 65533.        (* U+FFFD *)
Definition MaxRune : N := 1114111.        (* U+10FFFF *)
Definition surrogateMin : N := 55296.     (* U+D800 *)
Definition surrogateMax : N := 57343.     (* U+DFFF *)

Definition tx : N := 128.   (* 1000 0000 *)
Definition t2 : N := 192.   (* 1100 0000 *)
Definition t3 : N := 224.   (* 1110 0000 *)
Definition t4 : N := 240.   (* 1111 0000 *)

Definition maskx : N := 63.  (* 0011 1111 *)
Definition mask2 : N := 31.  (* 0001 1111 *)
Definition mask3 : N := 15.  (* 0000 1111 *)
Definition mask4 : N := 7.   (* 0000 0111 *)

Definition rune1Max : N := 127.
Definition rune2Max : N := 2047.
Definition rune3Max : N := 65535.

Definition locb : N := 128.  (* 1000 0000 *)
Definition hicb : N := 191.  (* 1011 1111 *)

(** A byte of a string, as a number, and the conversion [byte(x)], which
    keeps the low eight bits. *)
Definition byte (c : ascii) : N := N_of_ascii c.

Definition toByte (x : N) : ascii := ascii_of_N (N.land x 255).

(** The table [first] for a byte above 127: the length of the sequence the
    byte begins and the range its second byte must be in; [None] for a byte
    that begins no sequence. *)
Definition first (s0 : N) : option (nat * N * N) :=
  if (s0 <? 194)%N then None                            (* 0x80-0xC1 *)
  else if (s0 <? 224)%N then Some (2%nat, locb, hicb)   (* 0xC2-0xDF *)
  else if (s0 =? 224)%N then Some (3%nat, 160%N, hicb)  (* 0xE0 *)
  else if (s0 <? 237)%N then Some (3%nat, locb, hicb)   (* 0xE1-0xEC *)
  else if (s0 =? 237)%N then Some (3%nat, locb, 159%N)  (* 0xED *)
  else if (s0 <? 240)%N then Some (3%nat, locb, hicb)   (* 0xEE-0xEF *)
  else if (s0 =? 240)%N then Some (4%nat, 144%N, hicb)  (* 0xF0 *)
  else if (s0 <? 244)%N then Some (4%nat, locb, hicb)   (* 0xF1-0xF3 *)
  else if (s0 =? 244)%N then Some (4%nat, locb, 143%N)  (* 0xF4 *)
  else None.                                            (* 0xF5-0xFF *)

Definition outside (lo hi b : N) : bool := (b <? lo)%N || (hi <? b)%N.

(** [utf8.DecodeRuneInString]: the first code point of [s] and its width
    in bytes; [(RuneError, 1)] for a byte that begins no valid sequence,
    [(RuneError, 0)] for the empty string. *)
Definition DecodeRuneInString (s : string) : N * nat :=
  match s with
  | EmptyString => (RuneError, 0%nat)
  | String c0 s1 =>
      let s0 := byte c0 in
      if (s0 <? 128)%N then (s0, 1%nat)
      else
        match first s0 with
        | None => (RuneError, 1%nat)
        | Some (sz, lo, hi) =>
            match s1 with
            | EmptyString => (RuneError, 1%nat)          (* n < sz *)
            | String c1 s2 =>
                let b1 := byte c1 in
                if outside lo hi b1 then (RuneError, 1%nat)
                else if (sz <=? 2)%nat then
                  (N.lor (N.shiftl (N.land s0 mask2) 6) (N.land b1 maskx),
                   2%nat)
                else
                  match s2 with
                  | EmptyString => (RuneError, 1%nat)    (* n < sz *)
                  | String c2 s3 =>
                      let b2 := byte c2 in
                      if outside locb hicb b2 then (RuneError, 1%nat)
                      else if (sz <=? 3)%nat then
                        (N.lor (N.lor (N.shiftl (N.land s0 mask3) 12)
                                      (N.shiftl (N.land b1 maskx) 6))
                               (N.land b2 maskx),
                         3%nat)
                      else
                        match s3 with
                        | EmptyString => (RuneError, 1%nat)   (* n < sz *)
                        | String c3 _ =>
                            let b3 := byte c3 in
                            if outside locb hicb b3 then (RuneError, 1%nat)
                            else
                              (N.lor (N.lor (N.lor
                                 (N.shiftl (N.land s0 mask4) 18)
                                 (N.shiftl (N.land b1 maskx) 12))
                                 (N.shiftl (N.land b2 maskx) 6))
                                 (N.land b3 maskx),
                               4%nat)
                        end
                  end
            end
        end
  end.

(** The three- and four-byte forms of [utf8.AppendRune]. *)
Definition append3 (r : N) : string :=
  String (toByte (N.lor t3 (N.shiftr r 12)))
    (String (toByte (N.lor tx (N.land (N.shiftr r 6) maskx)))
       (String (toByte (N.lor tx (N.land r maskx))) EmptyString)).

Definition append4 (r : N) : string :=
  String (toByte (N.lor t4 (N.shiftr r 18)))
    (String (toByte (N.lor tx (N.land (N.shiftr r 12) maskx)))
       (String (toByte (N.lor tx (N.land (N.shiftr r 6) maskx)))
          (String (toByte (N.lor tx (N.land r maskx))) EmptyString))).

(** [utf8.AppendRune], used by [strings.Builder.WriteRune]: the UTF-8
    encoding of [r], and that of [RuneError] when [r] is a surrogate or is
    out of range. *)
Definition AppendRune (r : N) : string :=
  if (r <=? rune1Max)%N then String (toByte r) EmptyString
  else if (r <=? rune2Max)%N then
    String (toByte (N.lor t2 (N.shiftr r 6)))
      (String (toByte (N.lor tx (N.land r maskx))) EmptyString)
  else if (MaxRune <? r)%N
          || ((surrogateMin <=? r)%N && (r <=? surrogateMax)%N) then
    append3 RuneError
  else if (r <=? rune3Max)%N then append3 r
  else append4 r.

End Utf8.

(** ** The functions of Go's [strings] package the scheduler uses *)

Module GoStrings.

(** The ASCII path of [strings.ToUpper] on one byte: a lower-case letter
    loses bit 5, every other byte is kept. *)
Definition upperByte (c : ascii) : ascii :=
  let n := N_of_ascii c in
  if (97 <=? n)%N && (n <=? 122)%N then ascii_of_N (n - 32) else c.

(** No byte of the text is above 127. *)
Fixpoint isASCII (s : string) : bool :=
  match s with
  | EmptyString => true
  | String c s' => (Utf8.byte c <? 128)%N && isASCII s'
  end.

(** The byte-wise loop of [strings.ToUpper]. *)
Fixpoint upperASCII (s : string) : string :=
  match s with
  | EmptyString => EmptyString
  | String c s' => String (upperByte c) (upperASCII s')
  end.

(** [strings.Map(mapping, s)] for a mapping that drops no code point: the
    string is read code point by code point ([for _, c := range s], an
    invalid byte reading as [RuneError] and one byte wide) and the mapped
    code points are written out in UTF-8. [skip] counts the bytes still to
    pass of the code point read last. *)
Fixpoint mapFrom (mapping : N -> N) (skip : nat) (s : string) : string :=
  match s with
  | EmptyString => EmptyString
  | String _ s' =>
      match skip with
      | S k => mapFrom mapping k s'
      | O =>
          let '(c, width) := Utf8.DecodeRuneInString s in
          (Utf8.AppendRune (mapping c) ++ mapFrom mapping (width - 1) s')%string
      end
  end.

Definition Map (mapping : N -> N) (s : string) : string :=
  mapFrom mapping 0 s.

(** [strings.ToUpper]: byte by byte when the text is ASCII, otherwise
    [Map(unicode.ToUpper, s)]. *)
Definition ToUpper (s : string) : string :=
  if isASCII s then upperASCII s else Map Unicode.ToUpper s.

(** [strings.HasPrefix]. *)
Fixpoint HasPrefix (s prefix : string) : bool :=
  match prefix, s with
  | EmptyString, _ => true
  | String _ _, EmptyString => false
  | String p prefix', String c s' => Ascii.eqb c p && HasPrefix s' prefix'
  end.

(** [strings.Contains(s, substr)]: [substr] starts at some offset of [s]. *)
Fixpoint Contains (s substr : string) : bool :=
  HasPrefix s substr
  || match s with
     | EmptyString => false
     | String _ s' => Contains s' substr
     end.

End GoStrings.

(** ** Case-insensitive matching, as the specification words it

    These definitions do not go through [ToUpper]: they compare the text with
    the pattern letter by letter. They are what the classification of
    [scheduler.go] is compared with. *)

Module CaseFold.

Definition isUpperLetter (c : ascii) : bool :=
  let n := N_of_ascii c in (65 <=? n)%N && (n <=? 90)%N.

Definition isLowerLetter (c : ascii) : bool :=
  let n := N_of_ascii c in (97 <=? n)%N && (n <=? 122)%N.

(** [c] is the pattern byte [p], or [p] is a capital letter and [c] is the
    same letter in lower case. *)
Definition matchesByte (c p : ascii) : bool :=
  Ascii.eqb c p
  || (isUpperLetter p && (N_of_ascii c =? N_of_ascii p + 32)%N).

(** The text [s] and the pattern [p] have the same length and agree byte by
    byte up to the case of the text's letters. *)
Inductive matchesFold : string -> string -> Prop :=
| mf_nil : matchesFold EmptyString EmptyString
| mf_cons c p s ps :
    matchesByte c p = true -> matchesFold s ps ->
    matchesFold (String c s) (String p ps).

(** Case-insensitive substring: some slice of [text] matches [pat]. *)
Definition containsFold (text pat : string) : Prop :=
  exists pre mid post,
    text = (pre ++ mid ++ post)%string /\ matchesFold mid pat.

(** A pattern made of capital letters and of bytes that are not letters. *)
Fixpoint noLower (p : string) : bool :=
  match p with
  | EmptyString => true
  | String c p' => negb (isLowerLetter c) && noLower p'
  end.

(** *** Matching up to upper case

    Beyond the ASCII letters, two letters have an ASCII letter as their
    upper case: U+0131, the dotless i, whose upper case is I, and U+017F,
    the long s, whose upper case is S. *)

(** U+0131 and U+017F in UTF-8. *)
Definition dotlessI : string :=
  String (ascii_of_N 196) (String (ascii_of_N 177) EmptyString).

Definition longS : string :=
  String (ascii_of_N 197) (String (ascii_of_N 191) EmptyString).

(** The text reads as the pattern once upper-cased: letter for letter it is
    the pattern up to ASCII case, with a dotless i allowed for an I of the
    pattern and a long s for an S. *)
Inductive matchesUpper : string -> string -> Prop :=
| mu_nil : matchesUpper EmptyString EmptyString
| mu_byte c p s ps :
    matchesByte c p = true -> matchesUpper s ps ->
    matchesUpper (String c s) (String p ps)
| mu_dotlessI s ps :
    matchesUpper s ps ->
    matchesUpper (dotlessI ++ s)%string (String "I" ps)
| mu_longS s ps :
    matchesUpper s ps ->
    matchesUpper (longS ++ s)%string (String "S" ps).

(** Some slice of [text] reads as [pat] once upper-cased. *)
Definition containsUpper (text pat : string) : Prop :=
  exists pre mid post,
    text = (pre ++ mid ++ post)%string /\ matchesUpper mid pat.

(** The same search as a function, offset by offset. *)
Fixpoint hasPrefixUpper (s pat : string) {struct pat} : bool :=
  match pat with
  | EmptyString => true
  | String p pat' =>
      match s with
      | EmptyString => false
      | String c s1 =>
          (matchesByte c p && hasPrefixUpper s1 pat')
          || match s1 with
             | EmptyString => false
             | String c1 s2 =>
                 let two := String c (String c1 EmptyString) in
                 ((String.eqb two dotlessI && Ascii.eqb p "I")
                  || (String.eqb two longS && Ascii.eqb p "S"))
                 && hasPrefixUpper s2 pat'
             end
      end
  end.

Fixpoint searchUpper (s pat : string) : bool :=
  hasPrefixUpper s pat
  || match s with
     | EmptyString => false
     | String _ s' => searchUpper s' pat
     end.

(** A pattern of ASCII bytes. *)
Fixpoint allASCII (p : string) : bool :=
  match p with
  | EmptyString => true
  | String c p' => (N_of_ascii c <? 128)%N && allASCII p'
  end.

(** [s] without its first [k] bytes, and whether its first [k] bytes are
    there and are continuation bytes of UTF-8. *)
Fixpoint drop (k : nat) (s : string) : string :=
  match k, s with
  | S k', String _ s' => drop k' s'
  | _, _ => s
  end.

Fixpoint continues (k : nat) (s : string) : bool :=
  match k with
  | O => true
  | S k' =>
      match s with
      | EmptyString => false
      | String c s' =>
          (128 <=? N_of_ascii c)%N && (N_of_ascii c <=? 191)%N
          && continues k' s'
      end
  end.

End CaseFold.

(** ** Readings of UTF-8 texts used in the proofs *)

Module Utf8Views.

Import Unicode Utf8.

(** Every byte of the text is above 127. *)
Definition highBytes (s : string) : Prop :=
  forall c, In c (list_ascii_of_string s) -> (128 <= byte c)%N.

(** A row that holds no code point above 127, or sends none of them to
    ASCII, or is the row of U+0131 or of U+017F alone. *)
Definition rowOK (cr : CaseRange) : bool :=
  (Hi cr <? 128)%N
  || (128 <=? Z.of_N (Lo cr) + Delta cr)%Z
  || ((Lo cr =? Hi cr)%N && ((Lo cr =? 305)%N || (Lo cr =? 383)%N)).

(** The code point of a two-byte sequence, and what the first two bytes
    contribute to the code point of a longer one. *)
Definition two (s0 b1 : N) : N :=
  N.lor (N.shiftl (N.land s0 mask2) 6) (N.land b1 maskx).

Definition headOf3 (s0 b1 : N) : N :=
  N.lor (N.shiftl (N.land s0 mask3) 12) (N.shiftl (N.land b1 maskx) 6).

Definition headOf4 (s0 b1 : N) : N :=
  N.lor (N.shiftl (N.land s0 mask4) 18) (N.shiftl (N.land b1 maskx) 12).

(** The second byte of a sequence that [first] lets begin is a
    continuation byte; a two-byte sequence reads as a code point above 127,
    which is U+0131 or U+017F only for the bytes of [dotlessI] and of
    [longS]; a longer sequence reads as a code point from U+0800 on. *)
Definition secondOK (s0 b1 : N) : bool :=
  match first s0 with
  | None => true
  | Some (sz, lo, hi) =>
      if outside lo hi b1 then true
      else
        (128 <=? b1)%N && (b1 <=? 191)%N
        && (if (sz <=? 2)%nat then
              (128 <=? two s0 b1)%N
              && (negb (two s0 b1 =? 305)%N
                  || ((s0 =? 196)%N && (b1 =? 177)%N))
              && (negb (two s0 b1 =? 383)%N
                  || ((s0 =? 197)%N && (b1 =? 191)%N))
            else if (sz <=? 3)%nat then (2048 <=? headOf3 s0 b1)%N
            else (2048 <=? headOf4 s0 b1)%N)
  end.

End Utf8Views.

(** ** Errors and process-wide handles *)

(** A Go [error]: [None] is [nil], [Some text] an error whose [Error()] is
    [text]. *)
Definition error := option string.

Definition isNil (e : error) : bool :=
  match e with None => true | Some _ => false end.

(** A pointer held in [state.State]: either [nil] or a live object. *)
Inductive pointer := Nil | Ref.

Definition isNilPtr (p : pointer) : bool :=
  match p with Nil => true | Ref => false end.

(** The fields of [state.State] the two packages read. *)
Record State := {
  TargetChatID : Z;          (* State.Config.Telegram.TargetChatID *)
  TelegramBot : pointer;     (* State.TelegramBot *)
  Logger : pointer;          (* State.Logger *)
  Database : pointer         (* State.Database *)
}.

(** ** The persisted mapping store *)

Module Database.

(** A row of [chat_thread_pairs]. *)
Record ChatThreadPair := {
  ID : string;             (* WhatsApp chat id *)
  TgChatId : Z;
  TgThreadId : Z
}.

(** A row of [msg_id_pairs]. *)
Record MsgIdPair := {
  MsgID : string;          (* WhatsApp message id *)
  MsgTgChatId : Z;
  MsgTgThreadId : Z;
  MsgTgMsgId : Z
}.

Record Store := {
  chat_thread_pairs : list ChatThreadPair;
  msg_id_pairs : list MsgIdPair
}.

(** Modelled from the spec: [database.ChatThreadGetAllPairs], whose source is
    not part of the two packages ("getAllChatThreadPairs(groupId) ->
    []ChatThreadPair"): the pairing rows of one forum group. *)
Definition getAllPairs (tgChatId : Z) (s : Store) : list ChatThreadPair :=
  filter (fun p => TgChatId p =? tgChatId)%Z (chat_thread_pairs s).

(** Modelled from the spec: [database.MsgIdDeletePairsByThreadId]
    ("delete all MessageIdPair rows for (tgChatId, tgThreadId)"). *)
Definition deletePairsByThreadId (tgChatId threadId : Z) (s : Store) : Store :=
  {| chat_thread_pairs := chat_thread_pairs s;
     msg_id_pairs :=
       filter (fun m => negb ((MsgTgChatId m =? tgChatId)
                              && (MsgTgThreadId m =? threadId)))%Z
              (msg_id_pairs s) |}.

(** Modelled from the spec: [database.ChatThreadDropPairByTg]
    ("dropChatThreadPair(groupId, threadId)": delete the pairing row). *)
Definition dropPairByTg (tgChatId threadId : Z) (s : Store) : Store :=
  {| chat_thread_pairs :=
       filter (fun p => negb ((TgChatId p =? tgChatId)
                              && (TgThreadId p =? threadId)))%Z
              (chat_thread_pairs s);
     msg_id_pairs := msg_id_pairs s |}.

(** [a LEFT JOIN b ON a.tg_thread_id = b.tg_thread_id]: does the message
    row [a] join with some pairing row? *)
Definition joins (pairs : list ChatThreadPair) (a : MsgIdPair) : bool :=
  existsb (fun b => MsgTgThreadId a =? TgThreadId b)%Z pairs.

(** The statement [CleanUpMsg] executes,
    [DELETE a FROM msg_id_pairs AS a LEFT JOIN chat_thread_pairs AS b
     ON a.tg_thread_id = b.tg_thread_id WHERE b.tg_thread_id IS NULL]:
    the rows of [msg_id_pairs] that join with no pairing row are deleted. *)
Definition execSweep (s : Store) : Store :=
  {| chat_thread_pairs := chat_thread_pairs s;
     msg_id_pairs := filter (joins (chat_thread_pairs s)) (msg_id_pairs s) |}.

(** [result.RowsAffected] of a delete statement that turned [s] into [s']:
    the number of rows it removed. *)
Definition rowsAffected (s s' : Store) : Z :=
  Z.of_nat (List.length (msg_id_pairs s) + List.length (chat_thread_pairs s))
  - Z.of_nat (List.length (msg_id_pairs s') + List.length (chat_thread_pairs s')).

(** The orphan criterion in the specification's words: the row's
    [(tgChatId, tgThreadId)] appears in no pairing row. *)
Definition pairedOnBoth (pairs : list ChatThreadPair) (a : MsgIdPair) : bool :=
  existsb (fun b => (MsgTgChatId a =? TgChatId b)
                    && (MsgTgThreadId a =? TgThreadId b))%Z pairs.

End Database.

Import Database.

(** ** Collaborator calls and the scheduler's effect monad *)

(** A call the scheduler makes outside its own package, with the [int64]
    arguments it passes. Log calls keep the message and the [zap.Int64]
    fields. *)
Inductive Call :=
| WaSyncContacts
| ChatThreadGetAllPairs (tgChatId : Z)
| TgReopenForumTopic (chatId threadId : Z)
| SyncTopicNameByChatThreadPairs (tgChatId : Z) (pairs : list ChatThreadPair)
| MsgIdDeletePairsByThreadId (tgChatId threadId : Z)
| ChatThreadDropPairByTg (tgChatId threadId : Z)
| Exec (sql : string)
| LogInfo (msg : string) (fields : list Z)
| LogError (msg : string) (fields : list Z).

(** What the collaborators answer: the error returned by a call, given the
    calls made before it. *)
Definition Env := list Call -> Call -> error.

(** The state a tick runs over: the store and the calls made so far, oldest
    first. *)
Record Sys := { store : Store; calls : list Call }.

(** A Go function body either runs to its end or panics. *)
Inductive Outcome (A : Type) := Done (a : A) | Panicked.
Arguments Done {A} a.
Arguments Panicked {A}.

Definition M (A : Type) := Sys -> Outcome A * Sys.

Definition ret {A} (a : A) : M A := fun s => (Done a, s).

Definition bind {A B} (m : M A) (k : A -> M B) : M B :=
  fun s => match m s with
           | (Done a, s') => k a s'
           | (Panicked, s') => (Panicked, s')
           end.

Definition panic {A} : M A := fun s => (Panicked, s).

Notation "x <- m ;; k" := (bind m (fun x => k))
  (at level 61, m at next level, right associativity).
Notation "m ;;; k" := (bind m (fun _ => k))
  (at level 61, right associativity).

(** [for _, x := range xs { body x }] *)
Fixpoint forRange {A} (xs : list A) (body : A -> M unit) : M unit :=
  match xs with
  | [] => ret tt
  | x :: xs' => body x ;;; forRange xs' body
  end.

(** [if cond { body }] *)
Definition when (cond : bool) (body : M unit) : M unit :=
  if cond then body else ret tt.

(** ** [scheduler/scheduler.go] *)

(** The outcome of a topic-existence probe. *)
Inductive ProbeOutcome := Exists | Unchanged | NotFound.

Module Scheduler.

Import GoStrings.

(** [isTopicNotFound]: the Telegram error says the forum topic is gone. *)
Definition isTopicNotFound (err : error) : bool :=
  match err with
  | None => false
  | Some text =>
      let msg := ToUpper text in
      Contains msg "TOPIC_NOT_FOUND"
      || Contains msg "TOPIC_ID_INVALID"
      || Contains msg "MESSAGE_THREAD_INVALID"
  end.

(** [isTopicNotModified] *)
Definition isTopicNotModified (err : error) : bool :=
  match err with
  | None => false
  | Some text =>
      let msg := ToUpper text in
      Contains msg "TOPIC_NOT_MODIFIED"
  end.

(** Which of its three branches the loop body of [cleanupDeletedTopics]
    takes on a probe error:
    [if probeErr == nil || !isTopicNotFound(probeErr) {
       if isTopicNotModified(probeErr) { resync }; continue }
     ... cascade delete ...] *)
Definition classify (probeErr : error) : ProbeOutcome :=
  if isNil probeErr || negb (isTopicNotFound probeErr) then
    if isTopicNotModified probeErr then Unchanged else Exists
  else NotFound.

(** The statement of [CleanUpMsg]. *)
Definition sql : string :=
  "DELETE a FROM msg_id_pairs AS a LEFT JOIN chat_thread_pairs AS b ON a.tg_thread_id = b.tg_thread_id WHERE b.tg_thread_id IS NULL;".

Section Tick.

Variable st : State.
Variable E : Env.

(** Make the call [c]: it is recorded and the collaborators' answer is
    returned. The probe [queue.TgReopenForumTopic] hands back the bot's
    answer as it is (see the queue below).
    Modelled from the spec: [utils.WaSyncContacts] and
    [utils.SyncTopicNameByChatThreadPairs], whose sources are not part of
    the two packages, are operations of external collaborators (the contact
    list of the peer platform, the titles of the forum topics); they leave
    the two tables of the store as they are. *)
Definition invoke (c : Call) : M error :=
  fun s => (Done (E (calls s) c),
            {| store := store s; calls := calls s ++ [c] |}).

(** A successful statement changes the store. *)
Definition modify (f : Store -> Store) : M unit :=
  fun s => (Done tt, {| store := f (store s); calls := calls s |}).

(** A delete of the [database] package: the call is made; when it
    succeeds the rows are gone, when it fails the tables are as before. *)
Definition dbDelete (c : Call) (f : Store -> Store) : M error :=
  err <- invoke c ;;
  when (isNil err) (modify f) ;;;
  ret err.

(** [database.ChatThreadGetAllPairs(tgChatId)] *)
Definition dbGetAllPairs (tgChatId : Z) : M (list ChatThreadPair * error) :=
  err <- invoke (ChatThreadGetAllPairs tgChatId) ;;
  if isNil err
  then (fun s => (Done (getAllPairs tgChatId (store s), err), s))
  else ret ([], err).

(** [db.Exec(sql)]: [(result.Error, result.RowsAffected)]. *)
Definition dbExec : M (error * Z) :=
  err <- invoke (Exec sql) ;;
  if isNil err
  then (fun s => let s' := execSweep (store s) in
                 (Done (err, rowsAffected (store s) s'),
                  {| store := s'; calls := calls s |}))
  else ret (err, 0%Z).

(** A method call on [State.Logger] that the source does not guard by
    [logger != nil]: zap dereferences the receiver, so a nil logger
    panics. *)
Definition logger_ (c : Call) : M unit :=
  match Logger st with
  | Nil => panic
  | Ref => invoke c ;;; ret tt
  end.

Definition loggerNotNil : bool := negb (isNilPtr (Logger st)).

(** [CleanUpMsg] *)
Definition CleanUpMsg : M unit :=
  if negb (isNilPtr (Database st)) then
    result <- dbExec ;;
    if negb (isNil (fst result)) then
      when loggerNotNil
        (logger_ (LogError "[scheduler] failed to clean up orphaned msg_id_pairs" []))
    else
      when loggerNotNil
        (logger_ (LogInfo "[scheduler] cleaned up orphaned msg_id_pairs"
                          [snd result]))
  else ret tt.

(** The body of the loop of [cleanupDeletedTopics], for one row of the
    [pairs] fetched at the start of the tick. *)
Definition processPair (tgChatId : Z) (pairs : list ChatThreadPair)
           (pair : ChatThreadPair) : M unit :=
  let threadId := TgThreadId pair in
  if (threadId <=? 1)%Z then ret tt                       (* continue *)
  else
    probeErr <- invoke (TgReopenForumTopic tgChatId threadId) ;;
    if isNil probeErr || negb (isTopicNotFound probeErr) then
      when (isTopicNotModified probeErr)
        (invoke (SyncTopicNameByChatThreadPairs tgChatId pairs) ;;; ret tt)
                                                          (* continue *)
    else
      logger_ (LogInfo "[scheduler] detected deleted Telegram topic, cleaning up"
                       [tgChatId; threadId]) ;;;
      err <- dbDelete (MsgIdDeletePairsByThreadId tgChatId threadId)
                      (deletePairsByThreadId tgChatId threadId) ;;
      when (negb (isNil err))
        (logger_ (LogError "[scheduler] failed to delete msg_id_pairs for deleted topic"
                           [threadId])) ;;;
      err <- dbDelete (ChatThreadDropPairByTg tgChatId threadId)
                      (dropPairByTg tgChatId threadId) ;;
      when (negb (isNil err))
        (logger_ (LogError "[scheduler] failed to delete chat_thread_pairs for deleted topic"
                           [threadId])).

(** [cleanupDeletedTopics] *)
Definition cleanupDeletedTopics : M unit :=
  if isNilPtr (TelegramBot st) then ret tt                (* return *)
  else
    err <- invoke WaSyncContacts ;;
    when (negb (isNil err) && loggerNotNil)
      (logger_ (LogError "[scheduler] failed to sync WhatsApp contacts" [])) ;;;
    let tgChatId := TargetChatID st in
    r <- dbGetAllPairs tgChatId ;;
    let '(pairs, err) := r in
    if negb (isNil err) then
      logger_ (LogError "[scheduler] failed to fetch chat_thread_pairs for topic cleanup" [])
                                                          (* return *)
    else
      forRange pairs (processPair tgChatId pairs).

End Tick.

(** One tick of the reconciliation scheduler, started on store [s]: the
    outcome, the store it leaves and the calls it made. *)
Definition tick (st : State) (E : Env) (s : Store) : Outcome unit * Sys :=
  cleanupDeletedTopics st E {| store := s; calls := [] |}.

(** One run of the orphan sweeper on store [s]. *)
Definition sweep (st : State) (E : Env) (s : Store) : Outcome unit * Sys :=
  CleanUpMsg st E {| store := s; calls := [] |}.

End Scheduler.

(** The earlier revision of the scheduler kept in the repository (package
    [utils]) knows two of the three signatures. *)
Module Legacy.

Import GoStrings.

Definition isTopicNotFound (err : error) : bool :=
  match err with
  | None => false
  | Some text =>
      let msg := ToUpper text in
      Contains msg "TOPIC_NOT_FOUND"
      || Contains msg "MESSAGE_THREAD_INVALID"
  end.

End Legacy.

(** ** [queue/queue.go] *)

Module Queue.

(** [QueueSize = 1000]: the capacity of [waJobCh] and of [tgJobCh]. *)
Definition QueueSize : nat := 1000.

(** [State.Config.WhatsApp] or [State.Config.Telegram], as the worker of
    the platform reads it. *)
Record QueueConfig := {
  QueueEnabled : bool;
  QueueIntervalMs : Z
}.

(** What the worker of a platform goes by: the platform's section of
    [State.Config] as it is while the worker runs, which the worker reads
    on every iteration, and as it was when the package was initialised:
    [WaInterval] and [TgInterval] are package variables, computed once, at
    initialisation, from the [QueueIntervalMs] of that moment. *)
Record Settings := {
  Now :> QueueConfig;
  AtInit : QueueConfig
}.

(** [WaInterval] or [TgInterval], in milliseconds. *)
Definition Interval (cfg : Settings) : Z := QueueIntervalMs (AtInit cfg).

Section Platform.

(** Whatever the platform calls read and change. *)
Variable World : Type.

(** [type result struct { v T; e error }], together with its [T]. *)
Definition result : Type := { T : Type & (T * error)%type }.

(** [fn func() (T, error)], together with its [T]. *)
Definition Fn : Type := { T : Type & World -> (T * error) * World }.

(** [v, e := fn()] followed by the construction of [result{v, e}]. *)
Definition callFn (fn : Fn) (w : World) : result * World :=
  let '(existT _ T f) := fn in
  let '(r, w') := f w in
  (existT _ T r, w').

(** The closure [TgRun] and [WaSend] send on the job channel,
    [func() { v, e := fn(); ch <- result{v, e} }]: it captures [fn] and
    the result channel [ch]. Result channels are named by numbers. *)
Record Job := { job_fn : Fn; job_ch : nat }.

(** Where the worker goroutine ([waWorker], [tgWorker]: the same loop, each
    over its own channel and configuration) is in
    [for job := range ch { if enabled { job(); Sleep } else { job() } }]. *)
Inductive Worker :=
| NotStarted                  (* before [StartWorkers] *)
| Receiving                   (* at [range], waiting for a job *)
| Running (j : Job)           (* inside [job()] *)
| Sleeping.                   (* inside [time.Sleep] *)

(** What can be observed of a run, oldest event first. *)
Inductive Event :=
| ECall (ch : nat) (fn : Fn)          (* TgRun(fn) or WaSend entered; [ch] made *)
| ESent (ch : nat)                    (* its closure entered the buffer *)
| EStart (ch : nat)                   (* the worker began to execute it *)
| EFinish (ch : nat) (w : World) (r : result)
                                      (* [fn] ran on [w] and produced [r] *)
| ESleep (ms : Z)
| EReturn (ch : nat) (r : result).    (* the caller returned [r.v, r.e] *)

(** One platform's queue: the job channel (its buffer and the senders
    blocked on it), the worker, the result channels of capacity one. *)
Record Queue := {
  world : World;
  jobCh : list Job;
  sendq : list Job;
  worker : Worker;
  chans : nat -> option result;
  nextCh : nat;
  trace : list Event
}.

(** The moves of the goroutines; a schedule is a list of them. *)
Inductive Action :=
| Submit (fn : Fn)        (* a caller runs [ch := make(..., 1)] and the send *)
| Admit (k : nat)         (* the blocked send number [k] completes *)
| StartWorkers             (* called exactly once, as the source requires *)
| WorkerReceive           (* [range] hands the next job to the worker *)
| WorkerRun               (* [job()] runs to its end *)
| WorkerWake              (* [time.Sleep(interval)] is over *)
| Receive (ch : nat)      (* the caller runs [res := <-ch] and returns *)
| Interfere (f : World -> World).   (* another goroutine acts on the world *)

Variable cfg : Settings.

Definition removeNth {A} (k : nat) (l : list A) : list A :=
  firstn k l ++ skipn (S k) l.

Definition setChan (ch : nat) (v : option result)
           (c : nat -> option result) : nat -> option result :=
  fun x => if Nat.eqb x ch then v else c x.

Definition log (q : Queue) (es : list Event) : list Event := trace q ++ es.

(** One move; [None] when the goroutine cannot make it now (it blocks).
    A send completes at once when the buffer has room and parks the sender
    otherwise; a parked sender is admitted when the buffer has room, in any
    order (the Go runtime admits the oldest). The worker reads the
    platform's [QueueEnabled] on every iteration, and pauses for [Interval],
    which was fixed when the package was initialised; the configuration
    does not change during a run. A second [StartWorkers] is not a move:
    the source requires exactly one. *)
Definition step (q : Queue) (a : Action) : option Queue :=
  match a with
  | Submit fn =>
      let ch := nextCh q in
      let job := {| job_fn := fn; job_ch := ch |} in
      if (List.length (jobCh q) <? QueueSize)%nat then
        Some {| world := world q; jobCh := jobCh q ++ [job];
                sendq := sendq q; worker := worker q; chans := chans q;
                nextCh := S ch; trace := log q [ECall ch fn; ESent ch] |}
      else
        Some {| world := world q; jobCh := jobCh q;
                sendq := sendq q ++ [job]; worker := worker q;
                chans := chans q;
                nextCh := S ch; trace := log q [ECall ch fn] |}
  | Admit k =>
      match nth_error (sendq q) k with
      | Some job =>
          if (List.length (jobCh q) <? QueueSize)%nat then
            Some {| world := world q; jobCh := jobCh q ++ [job];
                    sendq := removeNth k (sendq q); worker := worker q;
                    chans := chans q; nextCh := nextCh q;
                    trace := log q [ESent (job_ch job)] |}
          else None
      | None => None
      end
  | StartWorkers =>
      match worker q with
      | NotStarted =>
          Some {| world := world q; jobCh := jobCh q; sendq := sendq q;
                  worker := Receiving; chans := chans q;
                  nextCh := nextCh q; trace := trace q |}
      | _ => None
      end
  | WorkerReceive =>
      match worker q, jobCh q with
      | Receiving, job :: rest =>
          Some {| world := world q; jobCh := rest; sendq := sendq q;
                  worker := Running job; chans := chans q;
                  nextCh := nextCh q;
                  trace := log q [EStart (job_ch job)] |}
      | _, _ => None
      end
  | WorkerRun =>
      match worker q with
      | Running job =>
          let '(r, w') := callFn (job_fn job) (world q) in
          Some {| world := w'; jobCh := jobCh q; sendq := sendq q;
                  worker := if QueueEnabled cfg then Sleeping else Receiving;
                  chans := setChan (job_ch job) (Some r) (chans q);
                  nextCh := nextCh q;
                  trace := log q [EFinish (job_ch job) (world q) r] |}
      | _ => None
      end
  | WorkerWake =>
      match worker q with
      | Sleeping =>
          Some {| world := world q; jobCh := jobCh q; sendq := sendq q;
                  worker := Receiving; chans := chans q;
                  nextCh := nextCh q;
                  trace := log q [ESleep (Interval cfg)] |}
      | _ => None
      end
  | Receive ch =>
      match chans q ch with
      | Some r =>
          Some {| world := world q; jobCh := jobCh q; sendq := sendq q;
                  worker := worker q;
                  chans := setChan ch None (chans q);
                  nextCh := nextCh q;
                  trace := log q [EReturn ch r] |}
      | None => None
      end
  | Interfere f =>
      Some {| world := f (world q); jobCh := jobCh q; sendq := sendq q;
              worker := worker q; chans := chans q;
              nextCh := nextCh q; trace := trace q |}
  end.

(** A schedule, move after move. *)
Fixpoint run (q : Queue) (acts : list Action) : option Queue :=
  match acts with
  | [] => Some q
  | a :: acts' =>
      match step q a with
      | Some q' => run q' acts'
      | None => None
      end
  end.

(** The process at start-up: empty channels, no worker yet. *)
Definition init (w : World) : Queue :=
  {| world := w; jobCh := []; sendq := []; worker := NotStarted;
     chans := fun _ => None; nextCh := 0; trace := [] |}.

(** The states some schedule leads to. *)
Inductive reachable : Queue -> Prop :=
| reach_init w : reachable (init w)
| reach_step q a q' : reachable q -> step q a = Some q' -> reachable q'.

(** *** Readings of a trace *)

Definition sentOf (e : Event) : list nat :=
  match e with ESent ch => [ch] | _ => [] end.
Definition startOf (e : Event) : list nat :=
  match e with EStart ch => [ch] | _ => [] end.
Definition finishOf (e : Event) : list nat :=
  match e with EFinish ch _ _ => [ch] | _ => [] end.
Definition callOf (e : Event) : list nat :=
  match e with ECall ch _ => [ch] | _ => [] end.

(** The jobs in the order their sends completed, in the order the worker
    began them, in the order it finished them, and in the order their
    callers arrived. *)
Definition sent (tr : list Event) : list nat := flat_map sentOf tr.
Definition started (tr : list Event) : list nat := flat_map startOf tr.
Definition finished (tr : list Event) : list nat := flat_map finishOf tr.
Definition called (tr : list Event) : list nat := flat_map callOf tr.

(** The job in flight after an event, given the job in flight before it;
    [None] reports an overlap: a start while a job is in flight, or a
    finish of a job that is not the one in flight. *)
Definition flight (cur : option (option nat)) (e : Event)
  : option (option nat) :=
  match cur, e with
  | None, _ => None
  | Some None, EStart ch => Some (Some ch)
  | Some (Some _), EStart _ => None
  | Some (Some c), EFinish ch _ _ => if Nat.eqb c ch then Some None else None
  | Some None, EFinish _ _ _ => None
  | Some c, _ => Some c
  end.

(** The job in flight at the end of a trace that has no overlap. *)
Definition inFlight (tr : list Event) : option (option nat) :=
  fold_left flight tr (Some None).

Definition running (w : Worker) : list nat :=
  match w with Running j => [job_ch j] | _ => [] end.

(** [WaSend] and every [Tg*] wrapper are [TgRun] on a closure calling the
    client; the move of the caller is the same. *)
Definition TgRun (fn : Fn) : Action := Submit fn.

End Platform.

Arguments callFn {World} fn w.
Arguments job_fn {World} j.
Arguments job_ch {World} j.
Arguments NotStarted {World}.
Arguments Receiving {World}.
Arguments Running {World} j.
Arguments Sleeping {World}.
Arguments ECall {World} ch fn.
Arguments ESent {World} ch.
Arguments EStart {World} ch.
Arguments EFinish {World} ch w r.
Arguments ESleep {World} ms.
Arguments EReturn {World} ch r.
Arguments world {World} q.
Arguments jobCh {World} q.
Arguments sendq {World} q.
Arguments worker {World} q.
Arguments chans {World} q ch.
Arguments nextCh {World} q.
Arguments trace {World} q.
Arguments Submit {World} fn.
Arguments Admit {World} k.
Arguments StartWorkers {World}.
Arguments WorkerReceive {World}.
Arguments WorkerRun {World}.
Arguments WorkerWake {World}.
Arguments Receive {World} ch.
Arguments Interfere {World} f.
Arguments step {World} cfg q a.
Arguments run {World} cfg q acts.
Arguments init {World} w.
Arguments reachable {World} cfg q.
Arguments sent {World} tr.
Arguments started {World} tr.
Arguments finished {World} tr.
Arguments called {World} tr.
Arguments inFlight {World} tr.
Arguments flight {World} cur e.
Arguments running {World} w.
Arguments TgRun {World} fn.

(** [e1] occurs in the trace before [e2]. *)
Definition precedes {A} (e1 e2 : A) (tr : list A) : Prop :=
  exists a b c, tr = a ++ e1 :: b ++ e2 :: c.

(** The closure of a typed call, [fn func() (T, error)]. *)
Definition typed {World T : Type} (f : World -> (T * error) * World)
  : Fn World := existT _ T f.

(** A typed [result{v, e}]. *)
Definition resultOf {T : Type} (r : T * error) : result := existT _ T r.

(** [WaSend(ctx, jid, msg)]: the closure calls
    [State.WhatsAppClient.SendMessage(ctx, jid, msg)] and writes its two
    results to the channel; the caller's moves are those of [TgRun]. *)
Definition WaSend {World Ctx JID Msg Resp : Type}
           (SendMessage : Ctx -> JID -> Msg -> World -> (Resp * error) * World)
           (ctx : Ctx) (jid : JID) (msg : Msg) : Action World :=
  Submit (typed (SendMessage ctx jid msg)).

(** [TgReopenForumTopic(b, chatId, threadId, opts)] and the other typed
    wrappers: [TgRun] on the closure calling the bot's method. *)
Definition TgReopenForumTopic {World Bot Opts Msg : Type}
           (ReopenForumTopic : Bot -> Z -> Z -> Opts -> World -> (Msg * error) * World)
           (b : Bot) (chatId threadId : Z) (opts : Opts) : Action World :=
  TgRun (typed (ReopenForumTopic b chatId threadId opts)).

End Queue.

(** ** The classification of probe errors, as the specification words it *)

Module ProbeSpec.

Import CaseFold.

(** The signatures of a deleted topic. *)
Definition notFoundSignatures : list string :=
  ["TOPIC_NOT_FOUND"; "TOPIC_ID_INVALID"; "MESSAGE_THREAD_INVALID"].

(** The signature of a reopen that changed nothing. *)
Definition notModifiedSignature : string := "TOPIC_NOT_MODIFIED".

(** The error text contains one of the signatures, whatever the case of
    its letters. *)
Definition mentions (text : string) (signatures : list string) : Prop :=
  exists sig, In sig signatures /\ containsFold text sig.

Inductive classifies : error -> ProbeOutcome -> Prop :=
| cl_nil :
    classifies None Exists
| cl_not_found text :
    mentions text notFoundSignatures ->
    classifies (Some text) NotFound
| cl_unchanged text :
    ~ mentions text notFoundSignatures ->
    containsFold text notModifiedSignature ->
    classifies (Some text) Unchanged
| cl_other text :
    ~ mentions text notFoundSignatures ->
    ~ containsFold text notModifiedSignature ->
    classifies (Some text) Exists.

(** The same classification with the text read up to upper case: the
    signatures in any ASCII letter case, a dotless i (U+0131) standing for
    an I and a long s (U+017F) for an S. *)
Definition mentionsUpper (text : string) (signatures : list string) : Prop :=
  exists sig, In sig signatures /\ containsUpper text sig.

Inductive classifiesUpper : error -> ProbeOutcome -> Prop :=
| cu_nil :
    classifiesUpper None Exists
| cu_not_found text :
    mentionsUpper text notFoundSignatures ->
    classifiesUpper (Some text) NotFound
| cu_unchanged text :
    ~ mentionsUpper text notFoundSignatures ->
    containsUpper text notModifiedSignature ->
    classifiesUpper (Some text) Unchanged
| cu_other text :
    ~ mentionsUpper text notFoundSignatures ->
    ~ containsUpper text notModifiedSignature ->
    classifiesUpper (Some text) Exists.

(** An error text that spells "topic_not_found" with a dotless i: it
    contains none of the signatures in any letter case. *)
Definition dotlessText : string :=
  ("Bad Request: top" ++ dotlessI ++ "c_not_found")%string.

End ProbeSpec.

(** ** What a tick may touch *)

Module TickSpec.

(** The forum thread a probe or a delete is aimed at. *)
Definition target (c : Call) : option Z :=
  match c with
  | TgReopenForumTopic _ threadId => Some threadId
  | MsgIdDeletePairsByThreadId _ threadId => Some threadId
  | ChatThreadDropPairByTg _ threadId => Some threadId
  | _ => None
  end.

(** The call is no probe and no delete of a default topic (thread 0 or 1,
    and any thread the code skips with them). *)
Definition aboveDefault (c : Call) : Prop :=
  match target c with
  | Some threadId => (1 < threadId)%Z
  | None => True
  end.

(** The rows of the default topics, in table order. *)
Definition defaultPairs (s : Store) : list ChatThreadPair :=
  filter (fun p => TgThreadId p <=? 1)%Z (chat_thread_pairs s).

Definition defaultMsgs (s : Store) : list MsgIdPair :=
  filter (fun m => MsgTgThreadId m <=? 1)%Z (msg_id_pairs s).

(** From [s] to [s'] the default topics were neither probed nor deleted from
    and their rows are all there. *)
Definition spares (s s' : Sys) : Prop :=
  (exists new, calls s' = calls s ++ new /\ Forall aboveDefault new)
  /\ defaultPairs (store s') = defaultPairs (store s)
  /\ defaultMsgs (store s') = defaultMsgs (store s).

(** The relation [R] holds between the state a computation starts in and
    the state it leaves, whether it ends or panics. *)
Definition preserves (R : Sys -> Sys -> Prop) {A} (m : M A) : Prop :=
  forall s, R s (snd (m s)).

(** The computation never panics. *)
Definition ends {A} (m : M A) : Prop :=
  forall s, exists a, fst (m s) = Done a.

(** [f] when the call succeeded, nothing when it failed. *)
Definition onSuccess (err : error) (f : Store -> Store) (s : Store) : Store :=
  if isNil err then f s else s.

(** The error log written after a failed call. *)
Definition onFailure (err : error) (c : Call) : list Call :=
  if isNil err then [] else [c].

End TickSpec.

(** ** Invariants of a dispatch queue *)

Module QueueInv.

Import Queue.

Section Platform.

Variable World : Type.

(** The job the worker is executing, if any. *)
Definition flying (w : Worker World) : option nat :=
  match w with Running j => Some (job_ch j) | _ => None end.

(** Order and capacity: the buffer holds, in order, the jobs sent and not
    yet started; a started job is finished or is the one running; the trace
    has no overlap; the buffer never exceeds its capacity; a job whose caller
    arrived was sent or its caller is blocked. *)
Record fifo_inv (q : Queue World) : Prop := {
  inv_sent : sent (trace q) = started (trace q) ++ map job_ch (jobCh q);
  inv_started : started (trace q) = finished (trace q) ++ running (worker q);
  inv_flight : inFlight (trace q) = Some (flying (worker q));
  inv_cap : List.length (jobCh q) <= QueueSize;
  inv_called : Permutation (called (trace q))
                 (sent (trace q) ++ map job_ch (sendq q))
}.

(** Results: channel names are fresh; a queued or running job is the
    closure of a recorded call; a result channel holds what a finished job
    wrote; a finished job wrote what its [fn] produced; a caller returned
    only what was written before; a finished job's result is in its channel
    or was returned; a channel belongs to one call. *)
Record call_inv (q : Queue World) : Prop := {
  inv_fresh : forall ch fn, In (ECall ch fn) (trace q) -> ch < nextCh q;
  inv_jobs : forall job,
      In job (jobCh q) \/ In job (sendq q) \/ worker q = Running job ->
      In (ECall (job_ch job) (job_fn job)) (trace q);
  inv_cell : forall ch r, chans q ch = Some r ->
      exists w, In (EFinish ch w r) (trace q);
  inv_finish : forall ch w r, In (EFinish ch w r) (trace q) ->
      exists fn, In (ECall ch fn) (trace q) /\ r = fst (callFn fn w);
  inv_return : forall ch r, In (EReturn ch r) (trace q) ->
      exists w, precedes (EFinish ch w r) (EReturn ch r) (trace q);
  inv_done : forall ch, In ch (finished (trace q)) ->
      (exists r, chans q ch = Some r)
      \/ (exists r, In (EReturn ch r) (trace q));
  inv_unique : forall ch fn fn',
      In (ECall ch fn) (trace q) -> In (ECall ch fn') (trace q) -> fn = fn'
}.

(** How far the worker is from an empty queue: a blocked sender needs an
    admission and three worker moves, a buffered job three worker moves. *)
Definition phase (w : Worker World) : nat :=
  match w with Running _ => 2 | Sleeping => 1 | _ => 0 end.

Definition backlog (q : Queue World) : nat :=
  4 * List.length (sendq q) + 3 * List.length (jobCh q) + phase (worker q).

End Platform.

Arguments flying {World} w.
Arguments fifo_inv {World} q.
Arguments call_inv {World} q.
Arguments phase {World} w.
Arguments backlog {World} q.
Arguments inv_sent {World} q _.
Arguments inv_started {World} q _.
Arguments inv_flight {World} q _.
Arguments inv_cap {World} q _.
Arguments inv_called {World} q _.
Arguments inv_fresh {World} q _.
Arguments inv_jobs {World} q _.
Arguments inv_cell {World} q _.
Arguments inv_finish {World} q _.
Arguments inv_return {World} q _.
Arguments inv_done {World} q _.
Arguments inv_unique {World} q _.

End QueueInv.

(** ** A bridge with one paired topic, used in the examples *)

Module Scenario.

(** All handles set; the forum group is 100. *)
Definition live : State :=
  {| TargetChatID := 100; TelegramBot := Ref; Logger := Ref; Database := Ref |}.

Definition noBot : State :=
  {| TargetChatID := 100; TelegramBot := Nil; Logger := Ref; Database := Ref |}.

Definition noLogger : State :=
  {| TargetChatID := 100; TelegramBot := Ref; Logger := Nil; Database := Ref |}.

(** The pairing of chat "C1" with topic 50, and the pairing of the default
    topic. *)
Definition pairC1 : ChatThreadPair :=
  {| ID := "C1"; TgChatId := 100; TgThreadId := 50 |}.

Definition pairGeneral : ChatThreadPair :=
  {| ID := "G"; TgChatId := 100; TgThreadId := 1 |}.

(** Two messages under topic 50, one under the default topic. *)
Definition msgA : MsgIdPair :=
  {| MsgID := "A"; MsgTgChatId := 100; MsgTgThreadId := 50; MsgTgMsgId := 7 |}.

Definition msgB : MsgIdPair :=
  {| MsgID := "B"; MsgTgChatId := 100; MsgTgThreadId := 50; MsgTgMsgId := 8 |}.

Definition msgG : MsgIdPair :=
  {| MsgID := "H"; MsgTgChatId := 100; MsgTgThreadId := 1; MsgTgMsgId := 9 |}.

Definition store0 : Store :=
  {| chat_thread_pairs := [pairGeneral; pairC1];
     msg_id_pairs := [msgG; msgA; msgB] |}.

(** Collaborators that answer [probeErr] to every probe, [delErr] to every
    delete of message rows, and succeed otherwise. *)
Definition answering (probeErr delErr : error) : Env :=
  fun _ c =>
    match c with
    | TgReopenForumTopic _ _ => probeErr
    | MsgIdDeletePairsByThreadId _ _ => delErr
    | _ => None
    end.

(** Collaborators whose statements all fail. *)
Definition failing : Env := fun _ _ => Some "connection refused".

(** A message row of another forum group that reuses thread id 50. *)
Definition msgOther : MsgIdPair :=
  {| MsgID := "Z"; MsgTgChatId := 200; MsgTgThreadId := 50; MsgTgMsgId := 3 |}.

Definition store1 : Store :=
  {| chat_thread_pairs := [pairC1]; msg_id_pairs := [msgA; msgOther] |}.

(** A Telegram queue with rate limiting on, over a world with no state. *)
Definition cfg0 : Queue.Settings :=
  {| Queue.Now := {| Queue.QueueEnabled := true; Queue.QueueIntervalMs := 100 |};
     Queue.AtInit := {| Queue.QueueEnabled := true;
                        Queue.QueueIntervalMs := 100 |} |}.

(** A call that returns (42, nil), and one that fails. *)
Definition fn42 (w : unit) : (Z * error) * unit := ((42%Z, None), w).

Definition fnFail (w : unit) : (Z * error) * unit :=
  ((0%Z, Some "Too Many Requests"), w).

(** The queue once the workers are started. *)
Definition idle : Queue.Queue unit :=
  {| Queue.world := tt; Queue.jobCh := []; Queue.sendq := [];
     Queue.worker := Queue.Receiving; Queue.chans := fun _ => None;
     Queue.nextCh := 0; Queue.trace := [] |}.

(** Two calls arrive and the worker begins the first. *)
Definition schedule : list (Queue.Action unit) :=
  [Queue.StartWorkers; Queue.TgRun (Queue.typed fn42);
   Queue.TgRun (Queue.typed fnFail); Queue.WorkerReceive].

Definition busy : Queue.Queue unit :=
  match Queue.run cfg0 (Queue.init tt) schedule with
  | Some q => q
  | None => Queue.init tt
  end.

End Scenario.

(** ** Readings of a tick: its calls and the rows it leaves *)

Module TickViews.

Import Scheduler TickSpec.

(** The call is a topic-existence probe. *)
Definition isProbe (c : Call) : bool :=
  match c with TgReopenForumTopic _ _ => true | _ => false end.

(** The call is one of the two deletes of the cascade. *)
Definition isDelete (c : Call) : bool :=
  match c with
  | MsgIdDeletePairsByThreadId _ _ => true
  | ChatThreadDropPairByTg _ _ => true
  | _ => false
  end.

(** The call is a topic-name resynchronisation. *)
Definition isResync (c : Call) : bool :=
  match c with SyncTopicNameByChatThreadPairs _ _ => true | _ => false end.

(** A call that names a forum group names [chat]. *)
Definition withinGroup (chat : Z) (c : Call) : Prop :=
  match c with
  | ChatThreadGetAllPairs g => g = chat
  | TgReopenForumTopic g _ => g = chat
  | SyncTopicNameByChatThreadPairs g _ => g = chat
  | MsgIdDeletePairsByThreadId g _ => g = chat
  | ChatThreadDropPairByTg g _ => g = chat
  | _ => True
  end.

(** The rows of the forum groups other than [chat], in table order. *)
Definition otherGroups (chat : Z) (s : Store)
  : list ChatThreadPair * list MsgIdPair :=
  (filter (fun p => negb (TgChatId p =? chat))%Z (chat_thread_pairs s),
   filter (fun m => negb (MsgTgChatId m =? chat))%Z (msg_id_pairs s)).

(** From [s] to [s'] only calls satisfying [P] were made, and the part of
    the store that [view] shows is the same. *)
Definition frames {X} (view : Store -> X) (P : Call -> Prop) (s s' : Sys)
  : Prop :=
  (exists new, calls s' = calls s ++ new /\ Forall P new)
  /\ view (store s') = view (store s).

(** The state a row leaves when its probe is classified [NotFound]: the log
    line, the delete of the message rows, its error log if it failed, the
    delete of the pairing row, its error log if it failed. *)
Definition cascaded (E : Env) (tgChatId threadId : Z) (s : Sys) : Sys :=
  let delMsgs := MsgIdDeletePairsByThreadId tgChatId threadId in
  let delPair := ChatThreadDropPairByTg tgChatId threadId in
  let c1 :=
    calls s ++
    [TgReopenForumTopic tgChatId threadId;
     LogInfo "[scheduler] detected deleted Telegram topic, cleaning up"
             [tgChatId; threadId]] in
  let e1 := E c1 delMsgs in
  let c2 :=
    c1 ++ [delMsgs] ++
    onFailure e1
      (LogError "[scheduler] failed to delete msg_id_pairs for deleted topic"
                [threadId]) in
  let e2 := E c2 delPair in
  {| store :=
       onSuccess e2 (dropPairByTg tgChatId threadId)
         (onSuccess e1 (deletePairsByThreadId tgChatId threadId) (store s));
     calls :=
       c2 ++ [delPair] ++
       onFailure e2
         (LogError "[scheduler] failed to delete chat_thread_pairs for deleted topic"
                   [threadId]) |}.

(** The state a row leaves, by the class of its probe error. *)
Definition rowResult (E : Env) (tgChatId : Z) (pairs : list ChatThreadPair)
           (pair : ChatThreadPair) (s : Sys) : Sys :=
  let threadId := TgThreadId pair in
  let probe := TgReopenForumTopic tgChatId threadId in
  if (threadId <=? 1)%Z then s
  else
    match classify (E (calls s) probe) with
    | Exists => {| store := store s; calls := calls s ++ [probe] |}
    | Unchanged =>
        {| store := store s;
           calls := calls s ++
                    [probe; SyncTopicNameByChatThreadPairs tgChatId pairs] |}
    | NotFound => cascaded E tgChatId threadId s
    end.

(** The calls a tick makes before it reads the pairing table. *)
Definition prelude (st : State) (E : Env) : list Call :=
  WaSyncContacts ::
  (if negb (isNil (E [] WaSyncContacts)) && loggerNotNil st
   then [LogError "[scheduler] failed to sync WhatsApp contacts" []]
   else []).

(** The rows of a tick: the pairing rows of the target group, as the store
    has them when the tick starts. *)
Definition snapshot (st : State) (s0 : Store) : list ChatThreadPair :=
  getAllPairs (TargetChatID st) s0.

(** The state in which the loop over the rows begins, when the pairing
    table was read. *)
Definition loopStart (st : State) (E : Env) (s0 : Store) : Sys :=
  {| store := s0;
     calls := prelude st E ++ [ChatThreadGetAllPairs (TargetChatID st)] |}.

(** The rows a tick probes. *)
Definition aboveDefaultRow (p : ChatThreadPair) : bool := (1 <? TgThreadId p)%Z.

(** A second paired topic, 60, and collaborators for which topic 50 is gone
    and topic 60 was already open. *)
Definition pairC2 : ChatThreadPair :=
  {| ID := "C2"; TgChatId := 100; TgThreadId := 60 |}.

Definition store2 : Store :=
  {| chat_thread_pairs := [Scenario.pairC1; pairC2];
     msg_id_pairs := [Scenario.msgA] |}.

Definition gone50 : Env :=
  fun _ c =>
    match c with
    | TgReopenForumTopic _ threadId =>
        if (threadId =? 50)%Z then Some "Bad Request: TOPIC_NOT_FOUND"
        else Some "Bad Request: TOPIC_NOT_MODIFIED"
    | _ => None
    end.

(** The call is a resynchronisation over the rows [ps] of group [chat], or
    no resynchronisation at all. *)
Definition resyncOver (chat : Z) (ps : list ChatThreadPair) (c : Call) : Prop :=
  match c with
  | SyncTopicNameByChatThreadPairs g l => g = chat /\ l = ps
  | _ => True
  end.

End TickViews.

(** ** The earlier revision of the reconciliation tick (package [utils]) *)

Module LegacyTick.

Import Scheduler.

Section Tick.

Variable st : State.
Variable E : Env.

(** The body of the loop of the earlier [cleanupDeletedTopics]. It probes
    with [bot.ReopenForumTopic] itself, not through the queue, tests the
    error with the earlier [isTopicNotFound], logs every step without a nil
    check, and has no resynchronisation. *)
Definition processPair (tgChatId : Z) (pair : ChatThreadPair) : M unit :=
  let threadId := TgThreadId pair in
  if (threadId <=? 1)%Z then ret tt                         (* continue *)
  else
    logger_ st E (LogInfo "[scheduler] checking Telegram topic existence"
                          [threadId]) ;;;
    probeErr <- invoke E (TgReopenForumTopic tgChatId threadId) ;;
    if isNil probeErr || negb (Legacy.isTopicNotFound probeErr) then
      logger_ st E (LogInfo "[scheduler] Telegram topic exists, no cleanup needed"
                            [threadId])                     (* continue *)
    else
      logger_ st E (LogInfo "[scheduler] detected deleted Telegram topic, cleaning up"
                            [tgChatId; threadId]) ;;;
      err <- dbDelete E (MsgIdDeletePairsByThreadId tgChatId threadId)
                        (deletePairsByThreadId tgChatId threadId) ;;
      when (negb (isNil err))
        (logger_ st E (LogError "[scheduler] failed to delete msg_id_pairs for deleted topic"
                                [threadId])) ;;;
      err <- dbDelete E (ChatThreadDropPairByTg tgChatId threadId)
                        (dropPairByTg tgChatId threadId) ;;
      when (negb (isNil err))
        (logger_ st E (LogError "[scheduler] failed to delete chat_thread_pairs for deleted topic"
                                [threadId])).

(** The earlier [cleanupDeletedTopics]. *)
Definition cleanupDeletedTopics : M unit :=
  logger_ st E (LogInfo "[scheduler] running topic cleanup job" []) ;;;
  if isNilPtr (TelegramBot st) then ret tt                  (* return *)
  else
    logger_ st E (LogInfo "[scheduler] fetching chat_thread_pairs for topic cleanup"
                          [TargetChatID st]) ;;;
    let tgChatId := TargetChatID st in
    r <- dbGetAllPairs E tgChatId ;;
    let '(pairs, err) := r in
    if negb (isNil err) then
      logger_ st E (LogError "[scheduler] failed to fetch chat_thread_pairs for topic cleanup" [])
                                                            (* return *)
    else
      forRange pairs (processPair tgChatId).

End Tick.

(** One tick of the earlier revision, started on store [s]. *)
Definition tick (st : State) (E : Env) (s : Store) : Outcome unit * Sys :=
  cleanupDeletedTopics st E {| store := s; calls := [] |}.

End LegacyTick.

(** ** The store after a tick, row by row *)

Module TickStores.

Import Scheduler TickSpec.

(** What a row does to the store when the collaborators' answers depend on
    the call alone: the cascade when [notFound] holds of the probe's answer,
    nothing otherwise. *)
Definition rowStore (notFound : error -> bool) (F : Call -> error)
           (tgChatId : Z) (s : Store) (pair : ChatThreadPair) : Store :=
  let threadId := TgThreadId pair in
  if (threadId <=? 1)%Z then s
  else if notFound (F (TgReopenForumTopic tgChatId threadId)) then
    onSuccess (F (ChatThreadDropPairByTg tgChatId threadId))
              (dropPairByTg tgChatId threadId)
      (onSuccess (F (MsgIdDeletePairsByThreadId tgChatId threadId))
                 (deletePairsByThreadId tgChatId threadId) s)
  else s.

(** Every row of [a] is a row of [b], in both tables. *)
Definition within (a b : Store) : Prop :=
  (forall p, In p (chat_thread_pairs a) -> In p (chat_thread_pairs b))
  /\ (forall m, In m (msg_id_pairs a) -> In m (msg_id_pairs b)).

(** Collaborators for which every probed topic has an invalid id, and every
    other call succeeds. *)
Definition invalid50 : Call -> error :=
  fun c =>
    match c with
    | TgReopenForumTopic _ _ => Some "Bad Request: TOPIC_ID_INVALID"
    | _ => None
    end.

End TickStores.

(** ** Readings of a queue trace: pacing and returns *)

Module QueueViews.

Import Queue.

Section Platform.

Variable World : Type.

(** Where the worker is in its pacing: free to begin a job, inside a job,
    or owing the pause that follows a job. *)
Inductive Pace := Ready | InJob | Owed.

(** The pacing after an event of the trace, for a platform whose rate
    limiting is [enabled] with pause [ms]; [None] reports a trace that does
    not follow the loop: a job begun inside another or before the pause
    owed, a finish outside a job, a pause that is not owed or not [ms]
    long. *)
Definition paceStep (enabled : bool) (ms : Z) (p : option Pace)
           (e : Event World) : option Pace :=
  match p, e with
  | None, _ => None
  | Some Ready, EStart _ => Some InJob
  | Some _, EStart _ => None
  | Some InJob, EFinish _ _ _ => Some (if enabled then Owed else Ready)
  | Some _, EFinish _ _ _ => None
  | Some Owed, ESleep d => if (d =? ms)%Z then Some Ready else None
  | Some _, ESleep _ => None
  | Some q, _ => Some q
  end.

Definition pacing (enabled : bool) (ms : Z) (tr : list (Event World))
  : option Pace :=
  fold_left (paceStep enabled ms) tr (Some Ready).

Definition paceOf (w : Worker World) : Pace :=
  match w with
  | Running _ => InJob
  | Sleeping => Owed
  | _ => Ready
  end.

Definition returnOf (e : Event World) : list nat :=
  match e with EReturn ch _ => [ch] | _ => [] end.

(** The calls that returned, in the order they returned. *)
Definition returned (tr : list (Event World)) : list nat :=
  flat_map returnOf tr.

(** A move of the worker, or the admission of a parked sender: no caller
    arrives, none returns, the world is left alone. *)
Definition workerMove (a : Action World) : Prop :=
  match a with
  | Admit _ | WorkerReceive | WorkerRun | WorkerWake => True
  | _ => False
  end.

End Platform.

Arguments paceStep {World} enabled ms p e.
Arguments pacing {World} enabled ms tr.
Arguments paceOf {World} w.
Arguments returnOf {World} e.
Arguments returned {World} tr.
Arguments workerMove {World} a.

(** After the schedule of [Scenario.busy] the worker finishes the first
    job, its caller returns, and the worker ends its pause. *)
Definition round : list (Action unit) :=
  Scenario.schedule ++ [WorkerRun; Receive 0; WorkerWake].

Definition served : Queue unit :=
  match run Scenario.cfg0 (init tt) round with
  | Some q => q
  | None => init tt
  end.

(** The same schedule when the interval is configured after the package
    was initialised: [TgInterval] was computed from a configuration that
    was still empty, and stays 0. *)
Definition cfgLate : Settings :=
  {| Now := {| QueueEnabled := true; QueueIntervalMs := 100 |};
     AtInit := {| QueueEnabled := false; QueueIntervalMs := 0 |} |}.

Definition servedLate : Queue unit :=
  match run cfgLate (init tt) round with
  | Some q => q
  | None => init tt
  end.

(** Two calls arrive before [StartWorkers]. *)
Definition early : list (Action unit) :=
  [TgRun (typed Scenario.fn42); TgRun (typed Scenario.fnFail)].

Definition unstarted : Queue unit :=
  match run Scenario.cfg0 (init tt) early with
  | Some q => q
  | None => init tt
  end.

End QueueViews.

(** ** [profilepic/profilepic.go] *)

Module ProfilePic.

(** [types.ProfilePictureInfo], of which the function reads [URL]. *)
Record ProfilePictureInfo := { URL : string }.

(** The calls the function makes outside its package, with their
    arguments: the WhatsApp client, [net/http] and [io], the Telegram queue,
    the logger. *)
Inductive Call :=
| GetProfilePictureInfo (jid : string) (preview : bool)
| HttpGet (url : string)
| ReadAll
| BodyClose
| TgSendPhoto (chatId : Z) (photo : string) (threadId : Z) (caption : string)
| Warn (msg : string)
| Info (msg : string).

(** What the collaborators answer. [http.Get] answers with a response and
    its status code, or with an error; [io.ReadAll] with the bytes read and
    an error. *)
Record Env := {
  getProfilePictureInfo : string -> option ProfilePictureInfo * error;
  httpGet : string -> Z * error;
  readAll : string * error;
  tgSendPhoto : Z -> string -> Z -> string -> error
}.

(** A run of the function: how it ends and the calls it made, oldest
    first. *)
Definition Run (A : Type) : Type := Outcome A * list Call.

Definition andThen {A B} (m : Run A) (k : A -> Run B) : Run B :=
  match m with
  | (Done a, l) => let '(o, l') := k a in (o, l ++ l')
  | (Panicked, l) => (Panicked, l)
  end.

Notation "x <-- m ;; k" := (andThen m (fun x => k))
  (at level 61, m at next level, right associativity).

(** A call and its answer. *)
Definition ask {A} (c : Call) (answer : A) : Run A := (Done answer, [c]).

(** A method call on [State.Logger]; the function never tests the logger
    for nil, and zap dereferences the receiver. *)
Definition logger_ (st : State) (c : Call) : Run unit :=
  match Logger st with
  | Nil => (Panicked, [])
  | Ref => (Done tt, [c])
  end.

(** [defer resp.Body.Close()]: the body is closed when the function
    returns, and when it panics. *)
Definition deferClose {A} (m : Run A) : Run A :=
  let '(o, l) := m in (o, l ++ [BodyClose]).

(** [pictureInfo == nil] or [pictureInfo.URL] is the empty string. *)
Definition noPicture (info : option ProfilePictureInfo) : bool :=
  match info with
  | None => true
  | Some i => String.eqb (URL i) EmptyString
  end.

Definition urlOf (info : option ProfilePictureInfo) : string :=
  match info with
  | None => EmptyString
  | Some i => URL i
  end.

(** [SendWaProfilePicToTopic(jid, threadId, caption)]. The WhatsApp client
    is taken to be set: the function calls it first and without a test. *)
Definition SendWaProfilePicToTopic (st : State) (E : Env)
           (jid : string) (threadId : Z) (caption : string) : Run unit :=
  r <-- ask (GetProfilePictureInfo jid false) (getProfilePictureInfo E jid) ;;
  let '(pictureInfo, err) := r in
  if negb (isNil err) then
    logger_ st (Warn "Failed to fetch profile picture info")       (* return *)
  else if noPicture pictureInfo then
    logger_ st (Info "No profile picture info or URL")             (* return *)
  else
    r <-- ask (HttpGet (urlOf pictureInfo)) (httpGet E (urlOf pictureInfo)) ;;
    let '(_, err) := r in
    if negb (isNil err) then
      logger_ st (Warn "Failed to download profile picture")       (* return *)
    else
      deferClose
        (r <-- ask ReadAll (readAll E) ;;
         let '(newPictureBytes, err) := r in
         if negb (isNil err) then
           logger_ st (Warn "Failed to read profile picture bytes")  (* return *)
         else
           errSend <-- ask (TgSendPhoto (TargetChatID st) newPictureBytes
                                        threadId caption)
                           (tgSendPhoto E (TargetChatID st) newPictureBytes
                                        threadId caption) ;;
           if negb (isNil errSend) then
             logger_ st (Warn "Failed to send profile picture to Telegram")
           else
             logger_ st (Info "Profile picture sent to Telegram topic")).

(** *** Readings of a run *)

Definition isSend (c : Call) : bool :=
  match c with TgSendPhoto _ _ _ _ => true | _ => false end.

Definition isClose (c : Call) : bool :=
  match c with BodyClose => true | _ => false end.

Definition isLog (c : Call) : bool :=
  match c with Warn _ | Info _ => true | _ => false end.

(** The picture can be had: the info is fetched without error, it names a
    URL, the download answers (with any status code) and its body is read
    to the end. *)
Definition fetched (E : Env) (jid : string) : bool :=
  let '(info, err) := getProfilePictureInfo E jid in
  isNil err && negb (noPicture info)
  && isNil (snd (httpGet E (urlOf info)))
  && isNil (snd (readAll E)).

(** A response was obtained, so there is a body to close. *)
Definition opened (E : Env) (jid : string) : bool :=
  let '(info, err) := getProfilePictureInfo E jid in
  isNil err && negb (noPicture info)
  && isNil (snd (httpGet E (urlOf info))).

(** A contact with a picture, a server that answers 404 with a page, and a
    queue that accepts the photo. *)
Definition env404 : Env :=
  {| getProfilePictureInfo := fun _ => (Some {| URL := "https://pps.example/a.jpg" |}, None);
     httpGet := fun _ => (404%Z, None);
     readAll := ("<html>not found</html>", None);
     tgSendPhoto := fun _ _ _ _ => None |}.

End ProfilePic.

(* ===================================================================== *)
(** * Part II: the properties *)
(* ===================================================================== *)

(** ** UTF-8 and the case table *)

Module Utf8Facts.

Import Unicode Utf8 Utf8Views.

(** *** Checking a property of every byte by running it *)

Lemma every_byte (P : N -> bool) :
  forallb P (map N.of_nat (seq 0 256)) = true ->
  forall b, (b < 256)%N -> P b = true.
Proof.
  intros H b Hb. rewrite forallb_forall in H. apply H.
  rewrite <- (N2Nat.id b). apply in_map. apply in_seq. lia.
Qed.

Lemma every_two_bytes (P : N -> N -> bool) :
  forallb (fun a => forallb (P a) (map N.of_nat (seq 0 256)))
          (map N.of_nat (seq 0 256)) = true ->
  forall a b, (a < 256)%N -> (b < 256)%N -> P a b = true.
Proof.
  intros H a b Ha Hb.
  apply (every_byte (P a)); [|exact Hb].
  apply (every_byte (fun a => forallb (P a) (map N.of_nat (seq 0 256))));
    assumption.
Qed.

Lemma byte_bounded c : (byte c < 256)%N.
Proof. apply N_ascii_bounded. Qed.

Lemma byte_toByte x : byte (toByte x) = N.land x 255.
Proof.
  unfold byte, toByte. apply N_ascii_embedding.
  change 255%N with (N.ones 8). rewrite N.land_ones.
  apply N.mod_lt. discriminate.
Qed.

Lemma toByte_byte c : toByte (byte c) = c.
Proof.
  unfold toByte, byte. change 255%N with (N.ones 8).
  rewrite N.land_ones, N.mod_small by apply N_ascii_bounded.
  apply ascii_N_embedding.
Qed.

Lemma le_lor_l a b : (a <= N.lor a b)%N.
Proof.
  assert (H : N.land (N.lor a b) a = a).
  { apply N.bits_inj. intros i. rewrite N.land_spec, N.lor_spec.
    destruct (N.testbit a i), (N.testbit b i); reflexivity. }
  rewrite <- H at 1. apply N.land_le_l.
Qed.

Lemma bit7 a : N.testbit a 7 = true -> (128 <= a)%N.
Proof.
  intros H. destruct (N.lt_ge_cases a 128) as [Hlt|]; [|assumption].
  rewrite N.testbit_true in H. change (2 ^ 7)%N with 128%N in H.
  rewrite N.div_small in H by assumption. discriminate.
Qed.

(** A byte made of a marker with bit 7 set is not an ASCII byte. *)
Lemma marked_byte t x :
  N.testbit t 7 = true -> (128 <= byte (toByte (N.lor t x)))%N.
Proof.
  intros Ht. rewrite byte_toByte. apply bit7.
  rewrite N.land_spec, N.lor_spec, Ht. reflexivity.
Qed.

(** *** Encoding *)

Lemma AppendRune_ascii r :
  (r < 128)%N -> AppendRune r = String (ascii_of_N r) EmptyString.
Proof.
  intros H. unfold AppendRune, rune1Max.
  destruct (N.leb_spec r 127); [|lia].
  unfold toByte. change 255%N with (N.ones 8).
  rewrite N.land_ones, N.mod_small by lia. reflexivity.
Qed.

Lemma AppendRune_high r :
  (128 <= r)%N ->
  exists e rest, AppendRune r = String e rest /\ highBytes (String e rest).
Proof.
  intros H. unfold AppendRune, rune1Max.
  destruct (N.leb_spec r 127); [lia|].
  assert (M : forall t x, N.testbit t 7 = true ->
                          (128 <= byte (toByte (N.lor t x)))%N)
    by apply marked_byte.
  assert (Done : forall s, (forall c, In c (list_ascii_of_string s) ->
                            exists t x, N.testbit t 7 = true
                                        /\ c = toByte (N.lor t x)) ->
                           highBytes s).
  { intros s Hs c Hc. destruct (Hs c Hc) as (t & x & Ht & ->).
    apply M, Ht. }
  assert (H3 : forall x, highBytes (append3 x)).
  { intros x. apply Done. intros c Hc. cbn [list_ascii_of_string In] in Hc.
    repeat (destruct Hc as [<-|Hc];
            [eexists; eexists; split; [|reflexivity]; reflexivity|]).
    destruct Hc. }
  destruct (r <=? rune2Max)%N.
  { eexists; eexists; split; [reflexivity|].
    apply Done. intros c Hc. cbn [list_ascii_of_string In] in Hc.
    repeat (destruct Hc as [<-|Hc];
            [eexists; eexists; split; [|reflexivity]; reflexivity|]).
    destruct Hc. }
  destruct ((MaxRune <? r)%N || _).
  { eexists; eexists; split; [reflexivity|]. apply H3. }
  destruct (r <=? rune3Max)%N.
  { eexists; eexists; split; [reflexivity|]. apply H3. }
  eexists; eexists; split; [reflexivity|].
  apply Done. intros c Hc. cbn [list_ascii_of_string In] in Hc.
  repeat (destruct Hc as [<-|Hc];
          [eexists; eexists; split; [|reflexivity]; reflexivity|]).
  destruct Hc.
Qed.

(** *** The case table *)

Lemma CaseRanges_ok : forallb rowOK CaseRanges = true.
Proof. vm_compute. reflexivity. Qed.

(** Outside ASCII only the dotless i and the long s have an ASCII upper
    case. *)
Lemma ToUpper_high r :
  (128 <= r)%N -> r <> 305%N -> r <> 383%N -> (128 <= ToUpper r)%N.
Proof.
  intros Hr H1 H2. unfold ToUpper, MaxASCII.
  destruct (N.leb_spec r 127); [lia|].
  unfold To_UpperCase.
  destruct (find (covers r) CaseRanges) as [cr|] eqn:Hf; [|exact Hr].
  apply find_some in Hf as [Hin Hc].
  pose proof CaseRanges_ok as Hok. rewrite forallb_forall in Hok.
  specialize (Hok cr Hin). unfold rowOK in Hok. unfold covers in Hc.
  apply andb_true_iff in Hc as [Hc _].
  apply andb_true_iff in Hc as [Hlo Hhi].
  apply N.leb_le in Hlo, Hhi.
  apply orb_true_iff in Hok as [Hok|Hok];
    [apply orb_true_iff in Hok as [Hok|Hok]|].
  - apply N.ltb_lt in Hok. lia.
  - apply Z.leb_le in Hok. lia.
  - apply andb_true_iff in Hok as [Heq Hsp]. apply N.eqb_eq in Heq.
    apply orb_true_iff in Hsp as [Hsp|Hsp]; apply N.eqb_eq in Hsp; lia.
Qed.

Lemma ToUpper_ascii c :
  (byte c < 128)%N -> ToUpper (byte c) = byte (GoStrings.upperByte c).
Proof.
  intros H. unfold ToUpper, MaxASCII, GoStrings.upperByte, byte in *.
  destruct (N.leb_spec (N_of_ascii c) 127); [|lia].
  destruct ((97 <=? N_of_ascii c)%N && (N_of_ascii c <=? 122)%N) eqn:Hl;
    [|reflexivity].
  rewrite N_ascii_embedding; [reflexivity|].
  apply andb_true_iff in Hl as [_ Hl]. apply N.leb_le in Hl. lia.
Qed.

Lemma ToUpper_dotlessI : ToUpper 305 = 73%N.
Proof. reflexivity. Qed.

Lemma ToUpper_longS : ToUpper 383 = 83%N.
Proof. reflexivity. Qed.

(** *** Decoding *)

Lemma second_byte s0 b1 :
  (s0 < 256)%N -> (b1 < 256)%N -> secondOK s0 b1 = true.
Proof. apply every_two_bytes. vm_compute. reflexivity. Qed.

Import CaseFold.

Lemma Decode_ascii c0 s1 :
  (byte c0 < 128)%N -> DecodeRuneInString (String c0 s1) = (byte c0, 1%nat).
Proof.
  intros H. unfold DecodeRuneInString.
  destruct (N.ltb_spec (byte c0) 128); [reflexivity|lia].
Qed.

Lemma Decode_dotlessI s :
  DecodeRuneInString (dotlessI ++ s) = (305%N, 2%nat).
Proof. reflexivity. Qed.

Lemma Decode_longS s :
  DecodeRuneInString (longS ++ s) = (383%N, 2%nat).
Proof. reflexivity. Qed.

Lemma two_bytes c0 c1 s a b :
  byte c0 = a -> byte c1 = b ->
  String c0 (String c1 s)
  = String (ascii_of_N a) (String (ascii_of_N b) s).
Proof.
  intros <- <-. unfold byte. rewrite !ascii_N_embedding. reflexivity.
Qed.

(** What a byte above 127 reads as: a code point above 127, which is the
    dotless i or the long s only when the text begins with its two bytes;
    the bytes passed after the first are continuation bytes. *)
Lemma Decode_high c0 s1 :
  (128 <= byte c0)%N ->
  let '(c, w) := DecodeRuneInString (String c0 s1) in
  (1 <= w)%nat
  /\ continues (w - 1) s1 = true
  /\ (128 <= c)%N
  /\ (c = 305%N -> exists s2, String c0 s1 = (dotlessI ++ s2)%string)
  /\ (c = 383%N -> exists s2, String c0 s1 = (longS ++ s2)%string).
Proof.
  intros H0.
  assert (Err : (1 <= 1)%nat
                /\ continues (1 - 1) s1 = true
                /\ (128 <= RuneError)%N
                /\ (RuneError = 305%N ->
                    exists s2, String c0 s1 = (dotlessI ++ s2)%string)
                /\ (RuneError = 383%N ->
                    exists s2, String c0 s1 = (longS ++ s2)%string)).
  { unfold RuneError. repeat split; try discriminate; lia. }
  unfold DecodeRuneInString.
  destruct (N.ltb_spec (byte c0) 128) as [|_]; [lia|].
  destruct (first (byte c0)) as [[[sz lo] hi]|] eqn:Hf; [|exact Err].
  destruct s1 as [|c1 s2]; [exact Err|].
  pose proof (second_byte (byte c0) (byte c1) (byte_bounded c0)
                          (byte_bounded c1)) as H2.
  unfold secondOK in H2. rewrite Hf in H2.
  destruct (outside lo hi (byte c1)); [exact Err|].
  apply andb_true_iff in H2 as [Hc1 H2].
  change (byte c1) with (N_of_ascii c1) in Hc1.
  destruct (sz <=? 2)%nat.
  { fold (two (byte c0) (byte c1)).
    apply andb_true_iff in H2 as [H2 HS].
    apply andb_true_iff in H2 as [Hge HI].
    apply N.leb_le in Hge.
    split; [lia|]. split; [cbn [Nat.sub continues]; rewrite Hc1; reflexivity|].
    split; [exact Hge|]. split; intros Hc; rewrite Hc in *; cbn in HI, HS.
    - apply andb_true_iff in HI as [Ha Hb].
      apply N.eqb_eq in Ha, Hb. exists s2.
      apply (two_bytes c0 c1 s2 196 177); assumption.
    - apply andb_true_iff in HS as [Ha Hb].
      apply N.eqb_eq in Ha, Hb. exists s2.
      apply (two_bytes c0 c1 s2 197 191); assumption. }
  destruct s2 as [|c2 s3]; [exact Err|].
  destruct (outside locb hicb (byte c2)) eqn:Ho2; [exact Err|].
  assert (Hc2 : (128 <=? N_of_ascii c2)%N && (N_of_ascii c2 <=? 191)%N = true).
  { unfold outside, locb, hicb, byte in Ho2.
    apply orb_false_iff in Ho2 as [Ha Hb].
    apply N.ltb_ge in Ha, Hb. apply andb_true_iff.
    split; apply N.leb_le; assumption. }
  destruct (sz <=? 3)%nat.
  { fold (headOf3 (byte c0) (byte c1)). apply N.leb_le in H2.
    pose proof (le_lor_l (headOf3 (byte c0) (byte c1))
                         (N.land (byte c2) maskx)) as Hle.
    split; [lia|].
    split; [cbn [Nat.sub continues]; rewrite Hc1, Hc2; reflexivity|].
    split; [lia|]. split; intros Hc; rewrite Hc in Hle; lia. }
  destruct s3 as [|c3 s4]; [exact Err|].
  destruct (outside locb hicb (byte c3)) eqn:Ho3; [exact Err|].
  assert (Hc3 : (128 <=? N_of_ascii c3)%N && (N_of_ascii c3 <=? 191)%N = true).
  { unfold outside, locb, hicb, byte in Ho3.
    apply orb_false_iff in Ho3 as [Ha Hb].
    apply N.ltb_ge in Ha, Hb. apply andb_true_iff.
    split; apply N.leb_le; assumption. }
  fold (headOf4 (byte c0) (byte c1)). apply N.leb_le in H2.
  pose proof (le_lor_l (headOf4 (byte c0) (byte c1))
                       (N.shiftl (N.land (byte c2) maskx) 6)) as Hle1.
  pose proof (le_lor_l (N.lor (headOf4 (byte c0) (byte c1))
                              (N.shiftl (N.land (byte c2) maskx) 6))
                       (N.land (byte c3) maskx)) as Hle2.
  split; [lia|].
  split; [cbn [Nat.sub continues]; rewrite Hc1, Hc2, Hc3; reflexivity|].
  split; [lia|]. split; intros Hc; rewrite Hc in Hle2; lia.
Qed.

End Utf8Facts.

(** ** Upper-casing and case-insensitive matching *)

Module StringFacts.

Import Unicode Utf8 GoStrings CaseFold Utf8Views Utf8Facts.

Lemma ascii_eqb_N (a b : ascii) :
  Ascii.eqb a b = (N_of_ascii a =? N_of_ascii b)%N.
Proof.
  destruct (Ascii.eqb_spec a b) as [->|Hne].
  - symmetry. apply N.eqb_refl.
  - symmetry. apply N.eqb_neq. intro H. apply Hne.
    rewrite <- (ascii_N_embedding a), <- (ascii_N_embedding b), H.
    reflexivity.
Qed.

(** Against a pattern byte that is not a lower-case letter, comparing the
    upper-cased byte is comparing up to case. *)
Lemma upperByte_matches (c p : ascii) :
  isLowerLetter p = false ->
  Ascii.eqb (upperByte c) p = matchesByte c p.
Proof.
  unfold isLowerLetter, matchesByte, isUpperLetter, upperByte.
  rewrite (ascii_eqb_N c p).
  pose proof (N_ascii_bounded c) as Hc.
  pose proof (N_ascii_bounded p) as Hp.
  set (n := N_of_ascii c) in *. set (m := N_of_ascii p) in *.
  intro Hlow.
  destruct ((97 <=? n)%N && (n <=? 122)%N) eqn:Hn.
  - apply andb_true_iff in Hn as [H1 H2].
    apply N.leb_le in H1, H2.
    rewrite ascii_eqb_N, N_ascii_embedding by lia.
    fold m.
    destruct (N.eqb_spec (n - 32) m) as [E|E];
      destruct (N.eqb_spec n m) as [E1|E1];
      destruct (N.eqb_spec n (m + 32)) as [E2|E2];
      destruct (N.leb_spec 65 m); destruct (N.leb_spec m 90);
      destruct (N.leb_spec 97 m); destruct (N.leb_spec m 122);
      simpl in *; try reflexivity; try discriminate; lia.
  - rewrite ascii_eqb_N. fold n m.
    apply andb_false_iff in Hn.
    destruct (N.eqb_spec n m) as [E1|E1]; [reflexivity|].
    destruct (N.eqb_spec n (m + 32)) as [E2|E2];
      destruct (N.leb_spec 65 m); destruct (N.leb_spec m 90);
      simpl; try reflexivity.
    exfalso. destruct Hn as [Hn|Hn]; apply N.leb_gt in Hn; lia.
Qed.

(** *** [strings.Map], code point by code point *)

Lemma mapFrom_skip f k :
  forall s, mapFrom f k s = Map f (drop k s).
Proof.
  induction k as [|k IH]; intros s.
  - destruct s; reflexivity.
  - destruct s as [|c s]; [reflexivity|]. cbn [mapFrom drop]. apply IH.
Qed.

Lemma Map_step f c0 s1 :
  Map f (String c0 s1)
  = (AppendRune (f (fst (DecodeRuneInString (String c0 s1))))
     ++ Map f (drop (snd (DecodeRuneInString (String c0 s1)) - 1) s1))%string.
Proof.
  unfold Map at 1. cbn [mapFrom].
  destruct (DecodeRuneInString (String c0 s1)) as [c w]. cbn [fst snd].
  rewrite mapFrom_skip. reflexivity.
Qed.

Lemma Map_ascii c0 s1 :
  (byte c0 < 128)%N ->
  Map Unicode.ToUpper (String c0 s1)
  = String (upperByte c0) (Map Unicode.ToUpper s1).
Proof.
  intros H. rewrite Map_step, (Decode_ascii c0 s1 H). cbn [fst snd Nat.sub drop].
  rewrite (ToUpper_ascii c0 H), AppendRune_ascii.
  - unfold byte. rewrite ascii_N_embedding. reflexivity.
  - unfold upperByte, byte in *.
    destruct ((97 <=? N_of_ascii c0)%N && (N_of_ascii c0 <=? 122)%N) eqn:Hl;
      [|exact H].
    apply andb_true_iff in Hl as [_ Hl]. apply N.leb_le in Hl.
    rewrite N_ascii_embedding; lia.
Qed.

(** The byte-wise path of [strings.ToUpper] gives what [Map] gives. *)
Lemma ToUpper_Map s : ToUpper s = Map Unicode.ToUpper s.
Proof.
  unfold ToUpper. destruct (isASCII s) eqn:Ha; [|reflexivity].
  induction s as [|c s IH]; [reflexivity|].
  cbn [isASCII] in Ha. apply andb_true_iff in Ha as [Hc Ha].
  apply N.ltb_lt in Hc. rewrite (Map_ascii c s Hc). cbn [upperASCII].
  rewrite (IH Ha). reflexivity.
Qed.

Lemma Map_dotlessI s :
  Map Unicode.ToUpper (dotlessI ++ s) = String "I" (Map Unicode.ToUpper s).
Proof.
  change (dotlessI ++ s)%string
    with (String (ascii_of_N 196) (String (ascii_of_N 177) s)).
  rewrite Map_step. reflexivity.
Qed.

Lemma Map_longS s :
  Map Unicode.ToUpper (longS ++ s) = String "S" (Map Unicode.ToUpper s).
Proof.
  change (longS ++ s)%string
    with (String (ascii_of_N 197) (String (ascii_of_N 191) s)).
  rewrite Map_step. reflexivity.
Qed.

(** A code point that is neither ASCII nor one of the two letters is
    written as bytes above 127, and the bytes passed are continuation
    bytes. *)
Lemma Map_high c0 s1 :
  (128 <= byte c0)%N ->
  (forall s2, String c0 s1 <> (dotlessI ++ s2)%string) ->
  (forall s2, String c0 s1 <> (longS ++ s2)%string) ->
  exists e rest k,
    Map Unicode.ToUpper (String c0 s1)
    = (String e rest ++ Map Unicode.ToUpper (drop k s1))%string
    /\ highBytes (String e rest)
    /\ continues k s1 = true.
Proof.
  intros H0 HI HS. rewrite Map_step.
  pose proof (Decode_high c0 s1 H0) as HD.
  destruct (DecodeRuneInString (String c0 s1)) as [c w]. cbn [fst snd].
  destruct HD as (_ & Hk & Hc & H1 & H2).
  destruct (AppendRune_high (Unicode.ToUpper c)) as (e & rest & -> & Hh).
  { apply ToUpper_high; [exact Hc| |].
    - intros E. destruct (H1 E) as [s2 Hs]. exact (HI s2 Hs).
    - intros E. destruct (H2 E) as [s2 Hs]. exact (HS s2 Hs). }
  exists e, rest, (w - 1)%nat. auto.
Qed.

(** *** Searching the upper-cased text for an ASCII pattern *)

Lemma eqb_other_byte c n :
  (n < 256)%N -> byte c <> n -> Ascii.eqb c (ascii_of_N n) = false.
Proof.
  intros Hn Hc. rewrite ascii_eqb_N, N_ascii_embedding by exact Hn.
  apply N.eqb_neq. exact Hc.
Qed.

Lemma matchesByte_high c p :
  (128 <= byte c)%N -> (byte p < 128)%N -> matchesByte c p = false.
Proof.
  unfold matchesByte, isUpperLetter, byte. intros Hc Hp.
  rewrite ascii_eqb_N.
  destruct (N.eqb_spec (N_of_ascii c) (N_of_ascii p)); [lia|].
  destruct (N.leb_spec 65 (N_of_ascii p)); [|reflexivity].
  destruct (N.leb_spec (N_of_ascii p) 90); [|reflexivity].
  cbn. apply N.eqb_neq. lia.
Qed.

Lemma HasPrefix_high e rest tl p pat :
  highBytes (String e rest) -> (byte p < 128)%N ->
  HasPrefix (String e rest ++ tl) (String p pat) = false.
Proof.
  intros Hh Hp. cbn [append HasPrefix].
  assert (He : (128 <= byte e)%N) by (apply Hh; left; reflexivity).
  rewrite ascii_eqb_N. unfold byte in *.
  destruct (N.eqb_spec (N_of_ascii e) (N_of_ascii p)); [lia|reflexivity].
Qed.

Lemma Contains_high E tl p pat :
  highBytes E -> (byte p < 128)%N ->
  Contains (E ++ tl) (String p pat) = Contains tl (String p pat).
Proof.
  intros Hh Hp. induction E as [|e E IH]; [reflexivity|].
  cbn [append]. cbn [Contains].
  change (String e (E ++ tl)) with (String e E ++ tl)%string.
  rewrite (HasPrefix_high e E tl p pat Hh Hp). cbn [orb].
  apply IH. intros c Hc. apply Hh. right. exact Hc.
Qed.

(** The text begins with the two bytes of [letter], or it does not. *)
Lemma begins_with c0 c1 s2 a b :
  (a < 256)%N -> (b < 256)%N ->
  let letter := String (ascii_of_N a) (String (ascii_of_N b) EmptyString) in
  if String.eqb (String c0 (String c1 EmptyString)) letter
  then String c0 (String c1 s2) = (letter ++ s2)%string
  else forall s', String c0 (String c1 s2) <> (letter ++ s')%string.
Proof.
  intros Ha Hb letter.
  destruct (String.eqb_spec (String c0 (String c1 EmptyString)) letter)
    as [E|E].
  - injection E as -> ->. reflexivity.
  - intros s' E'. apply E. cbn in E'. injection E' as -> -> _. reflexivity.
Qed.

Lemma hasPrefixUpper_continuation c s p pat :
  (128 <= byte c)%N -> (byte c <= 191)%N -> (byte p < 128)%N ->
  hasPrefixUpper (String c s) (String p pat) = false.
Proof.
  intros H1 H2 Hp. cbn [hasPrefixUpper].
  rewrite (matchesByte_high c p H1 Hp). cbn [andb orb].
  destruct s as [|c1 s2]; [reflexivity|].
  unfold dotlessI, longS. cbn [String.eqb].
  rewrite !(eqb_other_byte c) by lia. reflexivity.
Qed.

Lemma HasPrefix_Map (pat : string) :
  allASCII pat = true -> noLower pat = true ->
  forall s, HasPrefix (Map Unicode.ToUpper s) pat = hasPrefixUpper s pat.
Proof.
  induction pat as [|p pat IH]; intros Ha Hl s.
  { destruct (Map Unicode.ToUpper s); reflexivity. }
  cbn [allASCII noLower] in Ha, Hl.
  apply andb_true_iff in Ha as [Hp Ha]. apply N.ltb_lt in Hp.
  apply andb_true_iff in Hl as [Hlp Hl]. apply negb_true_iff in Hlp.
  specialize (IH Ha Hl).
  destruct s as [|c0 s1]; [reflexivity|].
  destruct (N.lt_ge_cases (byte c0) 128) as [H0|H0].
  - rewrite (Map_ascii c0 s1 H0). cbn [HasPrefix hasPrefixUpper].
    rewrite (upperByte_matches c0 p Hlp), IH.
    destruct s1 as [|c1 s2]; [rewrite orb_false_r; reflexivity|].
    unfold dotlessI, longS. cbn [String.eqb].
    rewrite !(eqb_other_byte c0) by lia. cbn [andb orb].
    rewrite orb_false_r. reflexivity.
  - cbn [hasPrefixUpper]. rewrite (matchesByte_high c0 p H0 Hp).
    cbn [andb orb].
    destruct s1 as [|c1 s2].
    { destruct (Map_high c0 EmptyString H0) as (e & rest & k & -> & Hh & _);
        try (intros s2 E; discriminate E).
      apply HasPrefix_high; assumption. }
    pose proof (begins_with c0 c1 s2 196 177 eq_refl eq_refl) as HI.
    pose proof (begins_with c0 c1 s2 197 191 eq_refl eq_refl) as HS.
    cbv zeta in HI, HS. fold dotlessI in HI. fold longS in HS.
    destruct (String.eqb (String c0 (String c1 EmptyString)) dotlessI)
      eqn:EI.
    { rewrite HI, Map_dotlessI. cbn [HasPrefix].
      injection HI as -> ->. cbn [String.eqb Ascii.eqb Bool.eqb andb orb].
      rewrite orb_false_r, IH, (Ascii.eqb_sym p). reflexivity. }
    destruct (String.eqb (String c0 (String c1 EmptyString)) longS) eqn:ES.
    { rewrite HS, Map_longS. cbn [HasPrefix].
      cbn [andb orb]. rewrite IH, (Ascii.eqb_sym p). reflexivity. }
    cbn [andb orb].
    destruct (Map_high c0 (String c1 s2) H0 HI HS)
      as (e & rest & k & -> & Hh & _).
    apply HasPrefix_high; assumption.
Qed.

Lemma searchUpper_continues p pat k :
  (byte p < 128)%N ->
  forall s, continues k s = true ->
            searchUpper s (String p pat) = searchUpper (drop k s) (String p pat).
Proof.
  intros Hp. induction k as [|k IH]; intros s Hk.
  { destruct s; reflexivity. }
  destruct s as [|c s]; [discriminate|]. cbn [continues] in Hk.
  apply andb_true_iff in Hk as [Hc Hk].
  apply andb_true_iff in Hc as [H1 H2]. apply N.leb_le in H1, H2.
  cbn [drop]. rewrite <- (IH s Hk). cbn [searchUpper].
  rewrite (hasPrefixUpper_continuation c s p pat H1 H2 Hp). reflexivity.
Qed.

Lemma length_drop k : forall s, (String.length (drop k s) <= String.length s)%nat.
Proof.
  induction k as [|k IH]; intros s; [destruct s; cbn; lia|].
  destruct s as [|c s]; cbn; [lia|]. specialize (IH s). lia.
Qed.

Lemma Contains_Map (pat : string) :
  allASCII pat = true -> noLower pat = true ->
  forall s, Contains (Map Unicode.ToUpper s) pat = searchUpper s pat.
Proof.
  intros Ha Hl.
  destruct pat as [|p pat].
  { intros s. destruct s, (Map Unicode.ToUpper _); reflexivity. }
  pose proof (HasPrefix_Map _ Ha Hl) as HP.
  cbn [allASCII] in Ha. apply andb_true_iff in Ha as [Hp _].
  apply N.ltb_lt in Hp.
  assert (G : forall n s, (String.length s <= n)%nat ->
                Contains (Map Unicode.ToUpper s) (String p pat)
                = searchUpper s (String p pat)).
  { induction n as [|n IH]; intros s Hn.
    { destruct s; [reflexivity|cbn in Hn; lia]. }
    destruct s as [|c0 s1]; [reflexivity|].
    cbn [String.length] in Hn.
    assert (Hs1 : (String.length s1 <= n)%nat) by lia.
    cbn [searchUpper]. rewrite <- (HP (String c0 s1)).
    destruct (N.lt_ge_cases (byte c0) 128) as [H0|H0].
    - rewrite (Map_ascii c0 s1 H0). cbn [Contains].
      rewrite (IH s1 Hs1). reflexivity.
    - assert (Hother :
        (forall s2, String c0 s1 <> (dotlessI ++ s2)%string) ->
        (forall s2, String c0 s1 <> (longS ++ s2)%string) ->
        Contains (Map Unicode.ToUpper (String c0 s1)) (String p pat)
        = HasPrefix (Map Unicode.ToUpper (String c0 s1)) (String p pat)
          || searchUpper s1 (String p pat)).
      { intros HI HS.
        destruct (Map_high c0 s1 H0 HI HS) as (e & rest & k & -> & Hh & Hk).
        rewrite (Contains_high _ _ p pat Hh Hp).
        rewrite (HasPrefix_high e rest _ p pat Hh Hp). cbn [orb].
        rewrite (searchUpper_continues p pat k Hp s1 Hk).
        apply IH. pose proof (length_drop k s1). lia. }
      destruct s1 as [|c1 s2]; [apply Hother; intros s2 E; discriminate E|].
      pose proof (begins_with c0 c1 s2 196 177 eq_refl eq_refl) as HI.
      pose proof (begins_with c0 c1 s2 197 191 eq_refl eq_refl) as HS.
      cbv zeta in HI, HS. fold dotlessI in HI. fold longS in HS.
      cbn [String.length] in Hs1.
      destruct (String.eqb (String c0 (String c1 EmptyString)) dotlessI).
      { rewrite HI, Map_dotlessI. cbn [Contains].
        injection HI as -> ->. cbn [searchUpper].
        rewrite hasPrefixUpper_continuation
          by first [exact Hp | vm_compute; discriminate]. cbn [orb].
        rewrite (IH s2) by lia. reflexivity. }
      destruct (String.eqb (String c0 (String c1 EmptyString)) longS).
      { rewrite HS, Map_longS. cbn [Contains].
        injection HS as -> ->. cbn [searchUpper].
        rewrite hasPrefixUpper_continuation
          by first [exact Hp | vm_compute; discriminate]. cbn [orb].
        rewrite (IH s2) by lia. reflexivity. }
      apply Hother; assumption. }
  intros s. apply (G (String.length s)). lia.
Qed.

(** *** The search, as a relation *)

Lemma hasPrefixUpper_spec (pat : string) :
  forall s,
    hasPrefixUpper s pat = true <->
    exists mid post, s = (mid ++ post)%string /\ matchesUpper mid pat.
Proof.
  induction pat as [|p pat IH]; intros s.
  { split; [|reflexivity].
    intros _. exists EmptyString, s. split; [reflexivity|constructor]. }
  cbn [hasPrefixUpper]. split.
  - destruct s as [|c s1]; [discriminate|].
    intros H. apply orb_true_iff in H as [H|H].
    + apply andb_true_iff in H as [Hc H].
      apply IH in H as (mid & post & -> & Hm).
      exists (String c mid), post. split; [reflexivity|].
      constructor; assumption.
    + destruct s1 as [|c1 s2]; [discriminate|].
      apply andb_true_iff in H as [Hl H].
      apply IH in H as (mid & post & -> & Hm).
      apply orb_true_iff in Hl as [Hl|Hl];
        apply andb_true_iff in Hl as [Ht Hp];
        apply String.eqb_eq in Ht; apply Ascii.eqb_eq in Hp; subst p;
        injection Ht as -> ->.
      * exists (dotlessI ++ mid)%string, post.
        split; [reflexivity|]. apply mu_dotlessI. exact Hm.
      * exists (longS ++ mid)%string, post.
        split; [reflexivity|]. apply mu_longS. exact Hm.
  - intros (mid & post & -> & Hm). inversion Hm; subst.
    + cbn [append]. apply orb_true_iff. left.
      apply andb_true_iff. split; [assumption|]. apply IH. eauto.
    + cbn [append dotlessI]. apply orb_true_iff. right.
      apply andb_true_iff. split; [reflexivity|]. apply IH. eauto.
    + cbn [append longS]. apply orb_true_iff. right.
      apply andb_true_iff. split; [reflexivity|]. apply IH. eauto.
Qed.

Lemma searchUpper_spec (pat s : string) :
  searchUpper s pat = true <-> containsUpper s pat.
Proof.
  unfold containsUpper. induction s as [|c s IH]; cbn [searchUpper].
  - rewrite orb_false_r, hasPrefixUpper_spec. split.
    + intros (mid & post & E & Hm). exists EmptyString, mid, post. auto.
    + intros (pre & mid & post & E & Hm).
      destruct pre; [|discriminate]. cbn in E. eauto.
  - rewrite orb_true_iff, hasPrefixUpper_spec, IH. split.
    + intros [(mid & post & E & Hm)|(pre & mid & post & E & Hm)].
      * exists EmptyString, mid, post. auto.
      * exists (String c pre), mid, post. subst. auto.
    + intros (pre & mid & post & E & Hm).
      destruct pre as [|c' pre]; cbn in E.
      * left. eauto.
      * right. injection E as -> ->. eauto.
Qed.

(** [Contains (ToUpper text) sig], for a signature of ASCII bytes without
    lower-case letters, finds the slices of [text] that read as [sig] once
    upper-cased: [sig] in any ASCII letter case, a dotless i standing for
    an I, a long s for an S. *)
Lemma Contains_upper (p : string) :
  allASCII p = true -> noLower p = true ->
  forall s, Contains (ToUpper s) p = true <-> containsUpper s p.
Proof.
  intros Ha Hl s.
  rewrite ToUpper_Map, (Contains_Map p Ha Hl). apply searchUpper_spec.
Qed.

(** *** The ASCII search *)

Lemma HasPrefix_fold (p : string) :
  noLower p = true ->
  forall s,
    HasPrefix (upperASCII s) p = true <->
    exists mid post, s = (mid ++ post)%string /\ matchesFold mid p.
Proof.
  induction p as [|a p IH]; intros Hp s.
  - split.
    + intros _. exists EmptyString, s. split; [reflexivity|constructor].
    + intros _. destruct s; reflexivity.
  - simpl in Hp. apply andb_true_iff in Hp as [Ha Hp].
    apply negb_true_iff in Ha.
    destruct s as [|c s]; simpl.
    + split; [discriminate|].
      intros (mid & post & E & Hm). inversion Hm; subst. discriminate.
    + rewrite andb_true_iff, (upperByte_matches c a Ha), (IH Hp s).
      split.
      * intros [Hc (mid & post & -> & Hm)].
        exists (String c mid), post. split; [reflexivity|].
        constructor; assumption.
      * intros (mid & post & E & Hm).
        inversion Hm; subst. simpl in E. injection E as -> ->.
        split; [assumption|]. eauto.
Qed.

(** Upper-casing byte by byte and searching is the search up to ASCII
    case. *)
Lemma Contains_fold (p : string) :
  noLower p = true ->
  forall s, Contains (upperASCII s) p = true <-> containsFold s p.
Proof.
  intros Hp s. unfold containsFold.
  induction s as [|c s IH].
  - pose proof (HasPrefix_fold p Hp EmptyString) as Hpre.
    cbn [upperASCII] in Hpre. cbn [upperASCII Contains].
    rewrite orb_false_r, Hpre. split.
    + intros (mid & post & E & Hm). exists EmptyString, mid, post. auto.
    + intros (pre & mid & post & E & Hm).
      destruct pre; [|discriminate]. simpl in E. eauto.
  - pose proof (HasPrefix_fold p Hp (String c s)) as Hpre.
    cbn [upperASCII] in Hpre. cbn [upperASCII Contains].
    rewrite orb_true_iff, Hpre, IH. split.
    + intros [(mid & post & E & Hm)|(pre & mid & post & E & Hm)].
      * exists EmptyString, mid, post. auto.
      * exists (String c pre), mid, post. subst. auto.
    + intros (pre & mid & post & E & Hm).
      destruct pre as [|c' pre]; simpl in E.
      * left. eauto.
      * right. injection E as -> ->. eauto.
Qed.

(** A match up to ASCII case is a match up to upper case. *)
Lemma matchesFold_upper mid p : matchesFold mid p -> matchesUpper mid p.
Proof. induction 1; constructor; assumption. Qed.

Lemma containsFold_upper s p : containsFold s p -> containsUpper s p.
Proof.
  intros (pre & mid & post & E & Hm).
  exists pre, mid, post. split; [exact E|]. apply matchesFold_upper, Hm.
Qed.

(** On an ASCII text the two searches are the same. *)
Lemma isASCII_app a b : isASCII (a ++ b) = isASCII a && isASCII b.
Proof.
  induction a as [|c a IH]; [reflexivity|]. cbn [append isASCII].
  rewrite IH, andb_assoc. reflexivity.
Qed.

Lemma matchesUpper_fold mid p :
  isASCII mid = true -> matchesUpper mid p -> matchesFold mid p.
Proof.
  intros Ha Hm. induction Hm.
  - constructor.
  - cbn [isASCII] in Ha. apply andb_true_iff in Ha as [_ Ha].
    constructor; auto.
  - discriminate Ha.
  - discriminate Ha.
Qed.

Lemma containsUpper_fold s p :
  isASCII s = true -> containsUpper s p -> containsFold s p.
Proof.
  intros Ha (pre & mid & post & -> & Hm).
  rewrite !isASCII_app in Ha.
  apply andb_true_iff in Ha as [_ Ha]. apply andb_true_iff in Ha as [Ha _].
  exists pre, mid, post. split; [reflexivity|].
  apply matchesUpper_fold; assumption.
Qed.

(** *** Wrapping *)

Lemma append_assoc (a b c : string) :
  ((a ++ b) ++ c)%string = (a ++ b ++ c)%string.
Proof. induction a as [|x a IH]; cbn; [reflexivity|]. rewrite IH. reflexivity. Qed.

Lemma containsUpper_wrapped pre text post p :
  containsUpper text p -> containsUpper (pre ++ text ++ post)%string p.
Proof.
  intros (a & mid & b & -> & Hm).
  exists (pre ++ a)%string, mid, (b ++ post)%string. split; [|exact Hm].
  rewrite !append_assoc. reflexivity.
Qed.

End StringFacts.

(** ** The classification of probe errors *)

Module ClassifyFacts.

Import GoStrings CaseFold ProbeSpec Scheduler StringFacts.

Lemma isTopicNotFound_upper (text : string) :
  isTopicNotFound (Some text) = true <-> mentionsUpper text notFoundSignatures.
Proof.
  unfold isTopicNotFound, mentionsUpper, notFoundSignatures.
  rewrite !orb_true_iff, !Contains_upper by reflexivity.
  split.
  - intros [[H|H]|H]; eexists; (split; [|exact H]); simpl; auto.
  - intros (sig & Hin & H). simpl in Hin.
    destruct Hin as [<-|[<-|[<-|[]]]]; auto.
Qed.

Lemma isTopicNotModified_upper (text : string) :
  isTopicNotModified (Some text) = true <->
  containsUpper text notModifiedSignature.
Proof.
  unfold isTopicNotModified, notModifiedSignature.
  apply Contains_upper; reflexivity.
Qed.

(** C3, as amended. The branch the scheduler takes on a probe error is a
    substring match on the text as [strings.ToUpper] reads it: a nil error
    is [Exists]; an error whose text contains one of "TOPIC_NOT_FOUND",
    "TOPIC_ID_INVALID", "MESSAGE_THREAD_INVALID" in any ASCII letter case,
    a dotless i (U+0131) counting as an I and a long s (U+017F) as an S, is
    [NotFound]; an error whose text contains none of them and contains
    "TOPIC_NOT_MODIFIED" read the same way is [Unchanged]; every other error
    is [Exists]. The classification is a function: no error has two
    outcomes. *)
Theorem classify_matches_the_upper_cased_text
        (err : error) (o : ProbeOutcome) :
  classifiesUpper err o <-> classify err = o.
Proof.
  unfold classify. split.
  - intros H. destruct H as [|text H|text Hn H|text Hn H]; cbn [isNil orb].
    + reflexivity.
    + apply isTopicNotFound_upper in H. rewrite H. reflexivity.
    + destruct (isTopicNotFound (Some text)) eqn:Hf.
      * exfalso. apply Hn, isTopicNotFound_upper, Hf.
      * apply isTopicNotModified_upper in H. rewrite H. reflexivity.
    + destruct (isTopicNotFound (Some text)) eqn:Hf.
      * exfalso. apply Hn, isTopicNotFound_upper, Hf.
      * destruct (isTopicNotModified (Some text)) eqn:Hm; [|reflexivity].
        exfalso. apply H, isTopicNotModified_upper, Hm.
  - intros <-. destruct err as [text|]; cbn [isNil orb]; [|constructor].
    destruct (isTopicNotFound (Some text)) eqn:Hf; cbn [negb].
    + apply cu_not_found, isTopicNotFound_upper, Hf.
    + assert (Hn : ~ mentionsUpper text notFoundSignatures).
      { intro H. apply isTopicNotFound_upper in H. congruence. }
      destruct (isTopicNotModified (Some text)) eqn:Hm.
      * apply cu_unchanged; [exact Hn|].
        apply isTopicNotModified_upper, Hm.
      * apply cu_other; [exact Hn|].
        intro H. apply isTopicNotModified_upper in H. congruence.
Qed.

(** On a text of ASCII bytes, reading up to upper case is reading up to
    letter case: there the classification is the case-insensitive match of
    the specification. *)
Lemma mentions_ascii text sigs :
  isASCII text = true -> (mentionsUpper text sigs <-> mentions text sigs).
Proof.
  intros Ha. split; intros (sig & Hin & H); exists sig; (split; [exact Hin|]).
  - apply containsUpper_fold; assumption.
  - apply containsFold_upper, H.
Qed.

Lemma classifies_ascii text o :
  isASCII text = true ->
  (classifies (Some text) o <-> classify (Some text) = o).
Proof.
  intros Ha. rewrite <- classify_matches_the_upper_cased_text.
  assert (Hm : containsUpper text notModifiedSignature
               <-> containsFold text notModifiedSignature).
  { split; [apply containsUpper_fold, Ha|apply containsFold_upper]. }
  pose proof (mentions_ascii text notFoundSignatures Ha) as Hn.
  split; intros H; inversion H; subst; constructor; tauto.
Qed.

(** Upper-casing byte by byte decides the search up to letter case. *)
Lemma not_containsFold text sig :
  noLower sig = true -> Contains (upperASCII text) sig = false ->
  ~ containsFold text sig.
Proof.
  intros Hl Hc H. apply (Contains_fold sig Hl) in H. congruence.
Qed.

(** C3, as stated, fails: the text [dotlessText], "topic_not_found"
    spelt with a dotless i (U+0131), contains none of the signatures in any letter case, so
    the specification classifies it as [Exists]; [strings.ToUpper] turns the
    dotless i into an I, and the scheduler classifies the error as
    [NotFound]. *)
Lemma dotless_i_reads_as_not_found :
  classifies (Some dotlessText) Exists
  /\ classify (Some dotlessText) = NotFound.
Proof.
  split; [|reflexivity].
  apply cl_other.
  - intros (sig & Hin & H). simpl in Hin.
    destruct Hin as [<-|[<-|[<-|[]]]];
      revert H; apply not_containsFold; reflexivity.
  - apply not_containsFold; reflexivity.
Qed.

Example classify_not_found :
  classify (Some "Bad Request: TOPIC_NOT_FOUND") = NotFound.
Proof. reflexivity. Qed.

Example classify_lower_case :
  classify (Some "bad request: message_thread_invalid") = NotFound.
Proof. reflexivity. Qed.

Example classify_not_modified :
  classify (Some "Bad Request: Topic_Not_Modified") = Unchanged.
Proof. reflexivity. Qed.

Example classify_other :
  classify (Some "Too Many Requests: retry after 5") = Exists.
Proof. reflexivity. Qed.

(** A long s is read as an S. *)
Example classify_long_s :
  classify (Some ("me" ++ longS ++ longS ++ "age_thread_invalid")%string)
  = NotFound.
Proof. reflexivity. Qed.

(** The revision in package [utils] does not know "TOPIC_ID_INVALID". *)
Example legacy_misses_topic_id_invalid :
  Legacy.isTopicNotFound (Some "Bad Request: TOPIC_ID_INVALID") = false
  /\ isTopicNotFound (Some "Bad Request: TOPIC_ID_INVALID") = true.
Proof. split; reflexivity. Qed.

End ClassifyFacts.

(** ** The reconciliation tick *)

Module TickFacts.

Import GoStrings CaseFold ProbeSpec Scheduler ClassifyFacts TickSpec.

(** *** Invariants of the effect monad *)

Section Preserves.

Variable R : Sys -> Sys -> Prop.
Hypothesis R_refl : forall s, R s s.
Hypothesis R_trans : forall s1 s2 s3, R s1 s2 -> R s2 s3 -> R s1 s3.

Lemma preserves_ret {A} (a : A) : preserves R (ret a).
Proof. intros s. apply R_refl. Qed.

Lemma preserves_panic {A} : preserves R (@panic A).
Proof. intros s. apply R_refl. Qed.

Lemma preserves_bind {A B} (m : M A) (k : A -> M B) :
  preserves R m -> (forall a, preserves R (k a)) -> preserves R (bind m k).
Proof.
  intros Hm Hk s. unfold bind. specialize (Hm s).
  destruct (m s) as [[a|] s']; simpl in *.
  - eapply R_trans; [exact Hm|apply Hk].
  - exact Hm.
Qed.

Lemma preserves_when (b : bool) (m : M unit) :
  preserves R m -> preserves R (when b m).
Proof. intros Hm. destruct b; [exact Hm|apply preserves_ret]. Qed.

Lemma preserves_forRange {A} (xs : list A) (body : A -> M unit) :
  (forall x, preserves R (body x)) -> preserves R (forRange xs body).
Proof.
  intros Hb. induction xs as [|x xs IH]; simpl.
  - apply preserves_ret.
  - apply preserves_bind; [apply Hb|intros _; exact IH].
Qed.

End Preserves.

(** *** The default topics are spared *)

Lemma spares_refl s : spares s s.
Proof.
  split; [|split; reflexivity].
  exists []. rewrite app_nil_r. split; [reflexivity|constructor].
Qed.

Lemma spares_trans s1 s2 s3 : spares s1 s2 -> spares s2 s3 -> spares s1 s3.
Proof.
  intros [(n1 & E1 & F1) [P1 M1]] [(n2 & E2 & F2) [P2 M2]].
  split; [|split; congruence].
  exists (n1 ++ n2). split.
  - rewrite E2, E1, app_assoc. reflexivity.
  - apply Forall_app. split; assumption.
Qed.

Lemma spares_invoke E c : aboveDefault c -> preserves spares (invoke E c).
Proof.
  intros Hc s. unfold invoke. simpl. split; [|split; reflexivity].
  exists [c]. split; [reflexivity|]. constructor; [exact Hc|constructor].
Qed.

Lemma spares_modify f :
  (forall s, defaultPairs (f s) = defaultPairs s) ->
  (forall s, defaultMsgs (f s) = defaultMsgs s) ->
  preserves spares (modify f).
Proof.
  intros Hp Hm s. unfold modify. cbn [snd store calls].
  split; [|split; [apply Hp|apply Hm]].
  exists []. rewrite app_nil_r. split; [reflexivity|constructor].
Qed.

Lemma filter_filter_comm {A} (f g : A -> bool) (l : list A) :
  (forall x, f x = true -> g x = true) ->
  filter f (filter g l) = filter f l.
Proof.
  intros H. induction l as [|x l IH]; simpl; [reflexivity|].
  destruct (g x) eqn:Hg; simpl.
  - rewrite IH. reflexivity.
  - destruct (f x) eqn:Hf; [|exact IH].
    apply H in Hf. congruence.
Qed.

Lemma deletePairsByThreadId_default tgChatId threadId s :
  (1 < threadId)%Z ->
  defaultPairs (deletePairsByThreadId tgChatId threadId s) = defaultPairs s
  /\ defaultMsgs (deletePairsByThreadId tgChatId threadId s) = defaultMsgs s.
Proof.
  intros Ht. split; [reflexivity|].
  unfold defaultMsgs, deletePairsByThreadId. simpl.
  apply filter_filter_comm. intros m Hm.
  apply Z.leb_le in Hm. apply negb_true_iff, andb_false_iff. right.
  apply Z.eqb_neq. lia.
Qed.

Lemma dropPairByTg_default tgChatId threadId s :
  (1 < threadId)%Z ->
  defaultPairs (dropPairByTg tgChatId threadId s) = defaultPairs s
  /\ defaultMsgs (dropPairByTg tgChatId threadId s) = defaultMsgs s.
Proof.
  intros Ht. split; [|reflexivity].
  unfold defaultPairs, dropPairByTg. simpl.
  apply filter_filter_comm. intros m Hm.
  apply Z.leb_le in Hm. apply negb_true_iff, andb_false_iff. right.
  apply Z.eqb_neq. lia.
Qed.

Lemma sp_ret {A} (a : A) : preserves spares (ret a).
Proof. apply preserves_ret, spares_refl. Qed.

Lemma sp_panic {A} : preserves spares (@panic A).
Proof. apply preserves_panic, spares_refl. Qed.

Lemma sp_bind {A B} (m : M A) (k : A -> M B) :
  preserves spares m -> (forall a, preserves spares (k a)) ->
  preserves spares (bind m k).
Proof. apply preserves_bind, spares_trans. Qed.

Lemma sp_when (b : bool) (m : M unit) :
  preserves spares m -> preserves spares (when b m).
Proof. apply preserves_when, spares_refl. Qed.

Lemma sp_forRange {A} (xs : list A) (body : A -> M unit) :
  (forall x, preserves spares (body x)) -> preserves spares (forRange xs body).
Proof. apply preserves_forRange; [apply spares_refl|apply spares_trans]. Qed.

Lemma spares_logger st E c :
  target c = None -> preserves spares (logger_ st E c).
Proof.
  intros Hc. unfold logger_. destruct (Logger st).
  - apply sp_panic.
  - apply sp_bind.
    + apply spares_invoke. unfold aboveDefault. rewrite Hc. exact I.
    + intros _. apply sp_ret.
Qed.

Lemma spares_dbDelete E c f :
  aboveDefault c ->
  (forall s, defaultPairs (f s) = defaultPairs s) ->
  (forall s, defaultMsgs (f s) = defaultMsgs s) ->
  preserves spares (dbDelete E c f).
Proof.
  intros Hc Hp Hm. unfold dbDelete.
  apply sp_bind; [apply spares_invoke, Hc|].
  intros err. apply sp_bind.
  - apply sp_when, spares_modify; assumption.
  - intros _. apply sp_ret.
Qed.

Lemma spares_processPair st E tgChatId pairs pair :
  preserves spares (processPair st E tgChatId pairs pair).
Proof.
  unfold processPair.
  destruct (Z.leb_spec (TgThreadId pair) 1) as [Hle|Hgt]; [apply sp_ret|].
  apply sp_bind; [apply spares_invoke; exact Hgt|].
  intros probeErr.
  destruct (isNil probeErr || negb (isTopicNotFound probeErr)).
  - apply sp_when, sp_bind; [apply spares_invoke; exact I|].
    intros _. apply sp_ret.
  - apply sp_bind; [apply spares_logger; reflexivity|].
    intros _. apply sp_bind.
    { apply spares_dbDelete; [exact Hgt| |];
        intros s; apply deletePairsByThreadId_default, Hgt. }
    intros e1. apply sp_bind; [apply sp_when, spares_logger; reflexivity|].
    intros _. apply sp_bind.
    { apply spares_dbDelete; [exact Hgt| |];
        intros s; apply dropPairByTg_default, Hgt. }
    intros e2. apply sp_when, spares_logger. reflexivity.
Qed.

Lemma spares_cleanupDeletedTopics st E :
  preserves spares (cleanupDeletedTopics st E).
Proof.
  unfold cleanupDeletedTopics.
  destruct (isNilPtr (TelegramBot st)); [apply sp_ret|].
  apply sp_bind; [apply spares_invoke; exact I|].
  intros err. apply sp_bind; [apply sp_when, spares_logger; reflexivity|].
  intros _. apply sp_bind.
  { unfold dbGetAllPairs. apply sp_bind; [apply spares_invoke; exact I|].
    intros e. destruct (isNil e); [|apply sp_ret].
    intros s. apply spares_refl. }
  intros [pairs e]. destruct (negb (isNil e)).
  - apply spares_logger. reflexivity.
  - apply sp_forRange. intros x. apply spares_processPair.
Qed.

(** *** With a logger, no failure stops the tick *)

Lemma ends_ret {A} (a : A) : ends (ret a).
Proof. intros s. exists a. reflexivity. Qed.

Lemma ends_bind {A B} (m : M A) (k : A -> M B) :
  ends m -> (forall a, ends (k a)) -> ends (bind m k).
Proof.
  intros Hm Hk s. unfold bind. destruct (Hm s) as [a Ha].
  destruct (m s) as [[a'|] s']; cbn in Ha; [|discriminate].
  apply Hk.
Qed.

Lemma ends_when (b : bool) (m : M unit) : ends m -> ends (when b m).
Proof. intros Hm. destruct b; [exact Hm|apply ends_ret]. Qed.

Lemma ends_forRange {A} (xs : list A) (body : A -> M unit) :
  (forall x, ends (body x)) -> ends (forRange xs body).
Proof.
  intros Hb. induction xs as [|x xs IH]; cbn [forRange].
  - apply ends_ret.
  - apply ends_bind; [apply Hb|intros _; exact IH].
Qed.

Lemma ends_invoke E c : ends (invoke E c).
Proof. intros s. eexists. reflexivity. Qed.

Lemma ends_logger st E c : Logger st = Ref -> ends (logger_ st E c).
Proof.
  intros H. unfold logger_. rewrite H.
  apply ends_bind; [apply ends_invoke|intros _; apply ends_ret].
Qed.

Lemma ends_dbDelete E c f : ends (dbDelete E c f).
Proof.
  unfold dbDelete. apply ends_bind; [apply ends_invoke|].
  intros err. apply ends_bind; [|intros _; apply ends_ret].
  apply ends_when. intros s. eexists. reflexivity.
Qed.

Lemma processPair_ends st E tgChatId pairs pair :
  Logger st = Ref -> ends (processPair st E tgChatId pairs pair).
Proof.
  intros HL. unfold processPair.
  destruct (TgThreadId pair <=? 1)%Z; [apply ends_ret|].
  apply ends_bind; [apply ends_invoke|]. intros probeErr.
  destruct (isNil probeErr || negb (isTopicNotFound probeErr)).
  - apply ends_when, ends_bind; [apply ends_invoke|intros _; apply ends_ret].
  - apply ends_bind; [apply ends_logger, HL|]. intros _.
    apply ends_bind; [apply ends_dbDelete|]. intros e1.
    apply ends_bind; [apply ends_when, ends_logger, HL|]. intros _.
    apply ends_bind; [apply ends_dbDelete|]. intros e2.
    apply ends_when, ends_logger, HL.
Qed.

(** With [State.Logger] set, a tick ends normally whatever the
    collaborators answer: a failed call is logged and the tick goes on. *)
Lemma tick_ends_normally st E s :
  Logger st = Ref -> fst (cleanupDeletedTopics st E s) = Done tt.
Proof.
  intros HL.
  assert (H : ends (cleanupDeletedTopics st E)).
  { unfold cleanupDeletedTopics.
    destruct (isNilPtr (TelegramBot st)); [apply ends_ret|].
    apply ends_bind; [apply ends_invoke|]. intros err.
    apply ends_bind; [apply ends_when, ends_logger, HL|]. intros _.
    apply ends_bind.
    { unfold dbGetAllPairs. apply ends_bind; [apply ends_invoke|].
      intros e. destruct (isNil e); [|apply ends_ret].
      intros s0. eexists. reflexivity. }
    intros [pairs e]. destruct (negb (isNil e)).
    - apply ends_logger, HL.
    - apply ends_forRange. intros x. apply processPair_ends, HL. }
  destruct (H s) as [[] Ha]. exact Ha.
Qed.

(** *** One row of the tick, step by step *)

Lemma bind_invoke {B} E c (k : error -> M B) s :
  bind (invoke E c) k s
  = k (E (calls s) c) {| store := store s; calls := calls s ++ [c] |}.
Proof. reflexivity. Qed.

Lemma bind_logger {B} st E c (k : unit -> M B) s :
  Logger st = Ref ->
  bind (logger_ st E c) k s
  = k tt {| store := store s; calls := calls s ++ [c] |}.
Proof. intros H. unfold logger_. rewrite H. reflexivity. Qed.

Lemma bind_dbDelete {B} E c f (k : error -> M B) s :
  bind (dbDelete E c f) k s
  = k (E (calls s) c)
      {| store := onSuccess (E (calls s) c) f (store s);
         calls := calls s ++ [c] |}.
Proof.
  unfold dbDelete, bind, invoke, when, modify, ret, onSuccess.
  cbn [calls store].
  destruct (isNil (E (calls s) c)); reflexivity.
Qed.

Lemma when_failed_log st E err c s :
  Logger st = Ref ->
  when (negb (isNil err)) (logger_ st E c) s
  = (Done tt, {| store := store s; calls := calls s ++ onFailure err c |}).
Proof.
  intros H. unfold when, onFailure, logger_, ret. rewrite H.
  destruct (isNil err); cbn [negb].
  - rewrite app_nil_r. destruct s; reflexivity.
  - reflexivity.
Qed.

Lemma bind_when_failed_log {B} st E err c (k : unit -> M B) s :
  Logger st = Ref ->
  bind (when (negb (isNil err)) (logger_ st E c)) k s
  = k tt {| store := store s; calls := calls s ++ onFailure err c |}.
Proof.
  intros H. unfold bind. rewrite when_failed_log by exact H. reflexivity.
Qed.

(** The scenario of the specification: the probe of topic 50 answers
    "Bad Request: TOPIC_NOT_FOUND"; both message rows and the pairing row
    are removed, the default topic is untouched, and a sweep run afterwards
    finds nothing to delete. *)
Example scenario_topic_50_deleted :
  let after :=
    snd (tick Scenario.live
              (Scenario.answering (Some "Bad Request: TOPIC_NOT_FOUND") None)
              Scenario.store0) in
  store after = {| chat_thread_pairs := [Scenario.pairGeneral];
                   msg_id_pairs := [Scenario.msgG] |}
  /\ execSweep (store after) = store after.
Proof. split; reflexivity. Qed.

(** With no logger the clean-up branch stops at its first log call. *)
Example nil_logger_panics_before_deleting :
  tick Scenario.noLogger
       (Scenario.answering (Some "Bad Request: TOPIC_NOT_FOUND") None)
       Scenario.store0
  = (Panicked,
     {| store := Scenario.store0;
        calls := [WaSyncContacts; ChatThreadGetAllPairs 100;
                  TgReopenForumTopic 100 50] |}).
Proof. reflexivity. Qed.

(** C7. A pairing row of a default topic (thread id 0 or 1) is never probed
    and never deleted from: whatever the store, the handles and the answers
    of the collaborators, the tick makes no [ReopenForumTopic] call and no
    delete call for the row's thread id, the row is still in
    [chat_thread_pairs] after the tick, and so is every message row under
    that thread id. *)
Theorem default_topic_is_never_probed_or_deleted st E s0 p :
  In p (chat_thread_pairs s0) ->
  (TgThreadId p = 0 \/ TgThreadId p = 1)%Z ->
  let after := snd (tick st E s0) in
  (forall chat,
      ~ In (TgReopenForumTopic chat (TgThreadId p)) (calls after)
      /\ ~ In (MsgIdDeletePairsByThreadId chat (TgThreadId p)) (calls after)
      /\ ~ In (ChatThreadDropPairByTg chat (TgThreadId p)) (calls after))
  /\ In p (chat_thread_pairs (store after))
  /\ (forall m, In m (msg_id_pairs s0) ->
                MsgTgThreadId m = TgThreadId p ->
                In m (msg_id_pairs (store after))).
Proof.
  intros Hin Hp after.
  assert (Hle : (TgThreadId p <= 1)%Z) by lia.
  destruct (spares_cleanupDeletedTopics st E {| store := s0; calls := [] |})
    as [(new & Hcalls & Hnew) [Hpairs Hmsgs]].
  fold (tick st E s0) in Hcalls, Hpairs, Hmsgs. fold after in Hcalls, Hpairs, Hmsgs.
  cbn [calls store app] in Hcalls, Hpairs, Hmsgs.
  rewrite Forall_forall in Hnew.
  split; [|split].
  - intros chat. rewrite Hcalls.
    repeat split; intros Hc; apply Hnew in Hc;
      unfold aboveDefault in Hc; cbn [target] in Hc; lia.
  - assert (H : In p (defaultPairs (store after))).
    { rewrite Hpairs. apply filter_In. split; [exact Hin|].
      apply Z.leb_le, Hle. }
    apply filter_In in H. apply H.
  - intros m Hm Hth.
    assert (H : In m (defaultMsgs (store after))).
    { rewrite Hmsgs. apply filter_In. split; [exact Hm|].
      apply Z.leb_le. lia. }
    apply filter_In in H. apply H.
Qed.

Lemma default_topic_is_never_probed_or_deleted_witness :
  let after :=
    snd (tick Scenario.live
              (Scenario.answering (Some "Bad Request: TOPIC_NOT_FOUND") None)
              Scenario.store0) in
  (forall chat,
      ~ In (TgReopenForumTopic chat 1) (calls after)
      /\ ~ In (MsgIdDeletePairsByThreadId chat 1) (calls after)
      /\ ~ In (ChatThreadDropPairByTg chat 1) (calls after))
  /\ In Scenario.pairGeneral (chat_thread_pairs (store after))
  /\ (forall m, In m (msg_id_pairs Scenario.store0) ->
                MsgTgThreadId m = 1%Z ->
                In m (msg_id_pairs (store after))).
Proof.
  exact (default_topic_is_never_probed_or_deleted Scenario.live
           (Scenario.answering (Some "Bad Request: TOPIC_NOT_FOUND") None)
           Scenario.store0 Scenario.pairGeneral
           (or_introl eq_refl) (or_intror eq_refl)).
Defined.

(** C8, as stated, fails: this probe error contains "TOPIC_NOT_MODIFIED",
    and it contains "TOPIC_NOT_FOUND" as well; the not-found test comes
    first in the code, so the tick deletes the message rows and the pairing
    row of topic 50 and makes no resynchronisation call. *)
Lemma not_modified_text_can_be_deleted :
  Contains "Bad Request: TOPIC_NOT_MODIFIED (TOPIC_NOT_FOUND)"
           "TOPIC_NOT_MODIFIED" = true
  /\ tick Scenario.live
          (Scenario.answering
             (Some "Bad Request: TOPIC_NOT_MODIFIED (TOPIC_NOT_FOUND)") None)
          Scenario.store0
     = (Done tt,
        {| store := {| chat_thread_pairs := [Scenario.pairGeneral];
                       msg_id_pairs := [Scenario.msgG] |};
           calls :=
             [WaSyncContacts; ChatThreadGetAllPairs 100;
              TgReopenForumTopic 100 50;
              LogInfo "[scheduler] detected deleted Telegram topic, cleaning up"
                      [100%Z; 50%Z];
              MsgIdDeletePairsByThreadId 100 50;
              ChatThreadDropPairByTg 100 50] |}).
Proof. split; reflexivity. Qed.

(** C10. With a nil Telegram bot the tick returns at once: it makes no call
    at all (no contact synchronisation, no read of the pairing table, no
    probe, no delete) and the store is as it was. *)
Theorem nil_bot_tick_does_nothing st E s :
  TelegramBot st = Nil ->
  cleanupDeletedTopics st E s = (Done tt, s).
Proof.
  intros H. unfold cleanupDeletedTopics. rewrite H. reflexivity.
Qed.

Lemma nil_bot_tick_does_nothing_witness :
  tick Scenario.noBot Scenario.failing Scenario.store0
  = (Done tt, {| store := Scenario.store0; calls := [] |}).
Proof.
  exact (nil_bot_tick_does_nothing Scenario.noBot Scenario.failing
           {| store := Scenario.store0; calls := [] |} eq_refl).
Defined.

End TickFacts.

(** ** The orphan sweeper *)

Module SweepFacts.

Import Scheduler TickSpec TickFacts.

Lemma joins_iff pairs m :
  joins pairs m = true <->
  exists b, In b pairs /\ TgThreadId b = MsgTgThreadId m.
Proof.
  unfold joins. rewrite existsb_exists. split.
  - intros (b & Hb & E). apply Z.eqb_eq in E. eauto.
  - intros (b & Hb & E). exists b. split; [exact Hb|].
    apply Z.eqb_eq. auto.
Qed.

Lemma execSweep_idempotent s : execSweep (execSweep s) = execSweep s.
Proof.
  unfold execSweep. cbn [chat_thread_pairs msg_id_pairs]. f_equal.
  apply filter_filter_comm. auto.
Qed.

(** A run of the sweeper, case by case. *)
Lemma sweep_cases st E s :
  sweep st E s =
  match Database st, E [] (Exec sql) with
  | Nil, _ => (Done tt, {| store := s; calls := [] |})
  | Ref, None =>
      (Done tt,
       {| store := execSweep s;
          calls :=
            Exec sql ::
            match Logger st with
            | Nil => []
            | Ref => [LogInfo "[scheduler] cleaned up orphaned msg_id_pairs"
                              [rowsAffected s (execSweep s)]]
            end |})
  | Ref, Some _ =>
      (Done tt,
       {| store := s;
          calls :=
            Exec sql ::
            match Logger st with
            | Nil => []
            | Ref => [LogError "[scheduler] failed to clean up orphaned msg_id_pairs" []]
            end |})
  end.
Proof.
  unfold sweep, CleanUpMsg, dbExec, loggerNotNil, logger_.
  destruct (Database st); cbn [isNilPtr negb]; [reflexivity|].
  unfold bind at 1. rewrite bind_invoke. cbn [calls store app].
  destruct (E [] (Exec sql)); cbn [isNil negb fst snd ret];
    destruct (Logger st); reflexivity.
Qed.

Lemma rowsAffected_same s : rowsAffected s s = 0%Z.
Proof. unfold rowsAffected. lia. Qed.

(** C5, as amended. A run of the sweeper whose statement executes leaves
    [chat_thread_pairs] as it is and keeps, in table order, exactly the
    message rows whose thread id is the thread id of some pairing row: a
    message row is deleted if and only if no pairing row has its thread id,
    whatever the group ids. *)
Theorem sweep_is_anti_join_on_thread_id st E s :
  Database st = Ref ->
  E [] (Exec sql) = None ->
  let after := store (snd (sweep st E s)) in
  chat_thread_pairs after = chat_thread_pairs s
  /\ msg_id_pairs after
     = filter (fun m => existsb (fun b => MsgTgThreadId m =? TgThreadId b)%Z
                                (chat_thread_pairs s))
              (msg_id_pairs s)
  /\ (forall m, In m (msg_id_pairs s) ->
        (In m (msg_id_pairs after) <->
         exists b, In b (chat_thread_pairs s)
                   /\ TgThreadId b = MsgTgThreadId m)).
Proof.
  intros Hdb Hok after. subst after.
  rewrite sweep_cases, Hdb, Hok. cbn [snd store].
  split; [reflexivity|]. split; [reflexivity|].
  intros m Hm. cbn [execSweep msg_id_pairs]. rewrite filter_In, joins_iff.
  tauto.
Qed.

Lemma sweep_is_anti_join_on_thread_id_witness :
  let after := store (snd (sweep Scenario.live (fun _ _ => None)
                                 {| chat_thread_pairs := [Scenario.pairGeneral];
                                    msg_id_pairs := [Scenario.msgG; Scenario.msgA] |})) in
  chat_thread_pairs after = [Scenario.pairGeneral]
  /\ msg_id_pairs after = [Scenario.msgG]
  /\ (forall m, In m [Scenario.msgG; Scenario.msgA] ->
        (In m (msg_id_pairs after) <->
         exists b, In b [Scenario.pairGeneral]
                   /\ TgThreadId b = MsgTgThreadId m)).
Proof.
  exact (sweep_is_anti_join_on_thread_id Scenario.live (fun _ _ => None)
           {| chat_thread_pairs := [Scenario.pairGeneral];
              msg_id_pairs := [Scenario.msgG; Scenario.msgA] |}
           eq_refl eq_refl).
Defined.

(** C5, as stated, fails: the message row of group 200 under thread 50 has
    no pairing row with its group id and thread id, and the sweep, which
    executes without error, keeps it, because group 100 has a topic 50. *)
Lemma sweep_keeps_orphan_of_other_group :
  In Scenario.msgOther (msg_id_pairs Scenario.store1)
  /\ pairedOnBoth (chat_thread_pairs Scenario.store1) Scenario.msgOther = false
  /\ sweep Scenario.live (fun _ _ => None) Scenario.store1
     = (Done tt,
        {| store := Scenario.store1;
           calls := [Exec sql;
                     LogInfo "[scheduler] cleaned up orphaned msg_id_pairs"
                             [0%Z]] |}).
Proof. split; [right; left; reflexivity|split; reflexivity]. Qed.

(** C9. After a run of the sweeper whose statement executed, a second run
    on the store the first one left, whatever the collaborators answer this
    time, deletes no row: the store is the same after it, the statement
    affects zero rows, and the row count it logs, if it logs one, is 0. *)
Theorem sweep_is_idempotent st E1 E2 s :
  E1 [] (Exec sql) = None ->
  let first := snd (sweep st E1 s) in
  let second := snd (sweep st E2 (store first)) in
  store second = store first
  /\ rowsAffected (store first) (store second) = 0%Z
  /\ (forall msg n, In (LogInfo msg [n]) (calls second) -> n = 0%Z).
Proof.
  intros Hok first second. subst second first.
  rewrite (sweep_cases st E1 s), Hok.
  destruct (Database st) eqn:Hdb; cbn [snd store].
  - rewrite sweep_cases, Hdb. cbn [snd store calls].
    split; [reflexivity|]. split; [apply rowsAffected_same|].
    intros msg n [].
  - rewrite sweep_cases, Hdb.
    destruct (E2 [] (Exec sql)); cbn [snd store calls].
    + split; [reflexivity|]. split; [apply rowsAffected_same|].
      intros msg n [H|H]; [discriminate|].
      destruct (Logger st); [destruct H|].
      destruct H as [H|[]]. discriminate.
    + rewrite execSweep_idempotent.
      split; [reflexivity|]. split; [apply rowsAffected_same|].
      intros msg n [H|H]; [discriminate|].
      destruct (Logger st); [destruct H|].
      destruct H as [H|[]]. injection H as _ <-.
      apply rowsAffected_same.
Qed.

Lemma sweep_is_idempotent_witness :
  let first := snd (sweep Scenario.live (fun _ _ => None)
                          {| chat_thread_pairs := [Scenario.pairGeneral];
                             msg_id_pairs := [Scenario.msgG; Scenario.msgA] |}) in
  let second := snd (sweep Scenario.live (fun _ _ => None) (store first)) in
  store second = store first
  /\ rowsAffected (store first) (store second) = 0%Z
  /\ (forall msg n, In (LogInfo msg [n]) (calls second) -> n = 0%Z).
Proof.
  exact (sweep_is_idempotent Scenario.live (fun _ _ => None) (fun _ _ => None)
           {| chat_thread_pairs := [Scenario.pairGeneral];
              msg_id_pairs := [Scenario.msgG; Scenario.msgA] |} eq_refl).
Defined.

(** The first run above deleted one row, the second none. *)
Example sweep_twice_row_counts :
  let s := {| chat_thread_pairs := [Scenario.pairGeneral];
              msg_id_pairs := [Scenario.msgG; Scenario.msgA] |} in
  let first := snd (sweep Scenario.live (fun _ _ => None) s) in
  let second := snd (sweep Scenario.live (fun _ _ => None) (store first)) in
  calls first = [Exec sql;
                 LogInfo "[scheduler] cleaned up orphaned msg_id_pairs" [1%Z]]
  /\ calls second = [Exec sql;
                     LogInfo "[scheduler] cleaned up orphaned msg_id_pairs" [0%Z]].
Proof. split; reflexivity. Qed.

(** A run whose statement fails deletes nothing, so the orphans are still
    there for the next run. *)
Example failed_sweep_leaves_the_store :
  sweep Scenario.live Scenario.failing
        {| chat_thread_pairs := []; msg_id_pairs := [Scenario.msgA] |}
  = (Done tt,
     {| store := {| chat_thread_pairs := []; msg_id_pairs := [Scenario.msgA] |};
        calls := [Exec sql;
                  LogError "[scheduler] failed to clean up orphaned msg_id_pairs" []] |}).
Proof. reflexivity. Qed.

End SweepFacts.

(** ** The dispatch queues *)

Module QueueFacts.

Import Queue QueueInv.

Section Platform.

Variable World : Type.
Variable cfg : Settings.

(** *** Removing the admitted sender *)

Lemma removeNth_middle {A} (l1 : list A) x l2 :
  removeNth (List.length l1) (l1 ++ x :: l2) = l1 ++ l2.
Proof.
  unfold removeNth. induction l1 as [|a l1 IH]; cbn; [reflexivity|].
  f_equal. exact IH.
Qed.

Lemma nth_error_removeNth {A} (l : list A) k x :
  nth_error l k = Some x -> Permutation l (x :: removeNth k l).
Proof.
  intros H. apply nth_error_split in H as (l1 & l2 & -> & <-).
  rewrite removeNth_middle. symmetry. apply Permutation_middle.
Qed.

Lemma length_removeNth {A} (l : list A) k x :
  nth_error l k = Some x -> S (List.length (removeNth k l)) = List.length l.
Proof.
  intros H. apply nth_error_removeNth in H. apply Permutation_length in H.
  simpl in H. lia.
Qed.



(** *** Order, overlap and capacity *)

Lemma sent_app (a b : list (Event World)) : sent (a ++ b) = sent a ++ sent b.
Proof. apply flat_map_app. Qed.
Lemma started_app (a b : list (Event World)) : started (a ++ b) = started a ++ started b.
Proof. apply flat_map_app. Qed.
Lemma finished_app (a b : list (Event World)) : finished (a ++ b) = finished a ++ finished b.
Proof. apply flat_map_app. Qed.
Lemma called_app (a b : list (Event World)) : called (a ++ b) = called a ++ called b.
Proof. apply flat_map_app. Qed.
Lemma inFlight_app (a b : list (Event World)) :
  inFlight (a ++ b) = fold_left flight b (inFlight a).
Proof. apply fold_left_app. Qed.

Ltac norm :=
  unfold log; cbn [trace jobCh sendq worker chans nextCh world];
  rewrite ?sent_app, ?started_app, ?finished_app, ?called_app, ?inFlight_app;
  cbn [sent started finished called flat_map sentOf startOf finishOf callOf
       fold_left flight running flying app map];
  rewrite ?app_nil_r, ?map_app; cbn [map].

Lemma fifo_inv_init (w : World) : fifo_inv (init w).
Proof. split; cbn; auto. lia. Qed.

Lemma fifo_inv_step (q : Queue World) (a : Action World) (q' : Queue World) :
  fifo_inv q -> step cfg q a = Some q' -> fifo_inv q'.
Proof.
  intros [Hs Hst Hf Hc Hp] Hstep.
  destruct a; cbn [step] in Hstep.
  - (* Submit *)
    destruct (Nat.ltb_spec (List.length (jobCh q)) QueueSize) as [Hlt|Hge];
      injection Hstep as <-; split; norm.
    + rewrite Hs, app_assoc. reflexivity.
    + exact Hst.
    + rewrite Hf. destruct (flying (worker q)); reflexivity.
    + rewrite length_app. cbn. lia.
    + rewrite <- !app_assoc. cbn [app].
      eapply Permutation_trans; [apply Permutation_app_tail, Hp|].
      rewrite <- !app_assoc.
      apply Permutation_app_head. apply Permutation_app_comm.
    + exact Hs.
    + exact Hst.
    + rewrite Hf. destruct (flying (worker q)); reflexivity.
    + exact Hc.
    + rewrite app_assoc. apply Permutation_app_tail, Hp.
  - (* Admit *)
    destruct (nth_error (sendq q) k) as [job|] eqn:Hk; [|discriminate].
    destruct (Nat.ltb_spec (List.length (jobCh q)) QueueSize) as [Hlt|Hge];
      [|discriminate].
    injection Hstep as <-; split; norm.
    + rewrite Hs, app_assoc. reflexivity.
    + exact Hst.
    + rewrite Hf. destruct (flying (worker q)); reflexivity.
    + rewrite length_app. cbn. lia.
    + eapply Permutation_trans; [exact Hp|].
      rewrite <- app_assoc. apply Permutation_app_head. cbn [app].
      change (job_ch job :: map job_ch (removeNth k (sendq q)))
        with (map job_ch (job :: removeNth k (sendq q))).
      apply Permutation_map, nth_error_removeNth, Hk.
  - (* StartWorkers *)
    destruct (worker q) eqn:Hw; try discriminate.
    injection Hstep as <-.
    cbn [running flying] in Hst, Hf. rewrite app_nil_r in Hst.
    split; norm; auto.
  - (* WorkerReceive *)
    destruct (worker q) eqn:Hw; try discriminate.
    destruct (jobCh q) as [|job rest] eqn:Hb; [discriminate|].
    injection Hstep as <-.
    cbn [running flying] in Hst, Hf. rewrite app_nil_r in Hst.
    split; norm.
    + rewrite Hs. cbn [map]. rewrite <- app_assoc. reflexivity.
    + rewrite Hst. reflexivity.
    + rewrite Hf. reflexivity.
    + cbn in Hc. lia.
    + exact Hp.
  - (* WorkerRun *)
    destruct (worker q) as [| |job|] eqn:Hw; try discriminate.
    destruct (callFn (job_fn job) (world q)) as [r w'].
    injection Hstep as <-.
    cbn [running flying] in Hst, Hf.
    split; norm.
    + exact Hs.
    + rewrite Hst. destruct (QueueEnabled cfg); cbn; rewrite app_nil_r; reflexivity.
    + rewrite Hf. cbn. rewrite Nat.eqb_refl.
      destruct (QueueEnabled cfg); reflexivity.
    + exact Hc.
    + exact Hp.
  - (* WorkerWake *)
    destruct (worker q) eqn:Hw; try discriminate.
    injection Hstep as <-.
    cbn [running flying] in Hst, Hf. rewrite app_nil_r in Hst.
    split; norm; auto. rewrite Hf. reflexivity.
  - (* Receive *)
    destruct (chans q ch) as [r|]; [|discriminate].
    injection Hstep as <-; split; norm; auto.
    rewrite Hf. destruct (flying (worker q)); reflexivity.
  - (* Interfere *)
    injection Hstep as <-; split; norm; auto.
Qed.





(** *** Results and their channels *)

Lemma precedes_app {A} (e1 e2 : A) tr es :
  precedes e1 e2 tr -> precedes e1 e2 (tr ++ es).
Proof.
  intros (a & b & c & ->). exists a, b, (c ++ es).
  rewrite <- !app_assoc. cbn. rewrite <- !app_assoc. reflexivity.
Qed.

Lemma precedes_snoc {A} (e1 e2 : A) tr :
  In e1 tr -> precedes e1 e2 (tr ++ [e2]).
Proof.
  intros H. apply in_split in H as (a & b & ->). exists a, b, [].
  rewrite <- !app_assoc. reflexivity.
Qed.

Lemma in_finished ch (tr : list (Event World)) :
  In ch (finished tr) <-> exists w r, In (EFinish ch w r) tr.
Proof.
  unfold finished. rewrite in_flat_map. split.
  - intros (e & He & Hc). destruct e; cbn in Hc; try contradiction.
    destruct Hc as [<-|[]]. eauto.
  - intros (w & r & H). eexists. split; [exact H|]. cbn. auto.
Qed.

(** Every move only appends to the trace. *)
Lemma step_trace (q : Queue World) (a : Action World) (q' : Queue World) :
  step cfg q a = Some q' -> exists es, trace q' = trace q ++ es.
Proof.
  intros H. destruct a; cbn [step] in H;
    repeat match type of H with
           | context [match ?x with _ => _ end] => destruct x
           | (if ?b then _ else _) = _ => destruct b
           end;
    try discriminate; injection H as <-; unfold log; cbn [trace];
    first [eexists; reflexivity | exists []; rewrite app_nil_r; reflexivity].
Qed.

Lemma call_inv_init (w : World) : call_inv (init w).
Proof.
  split; cbn; try contradiction; try discriminate.
  - intros job [[]|[[]|H]]. discriminate.
Qed.

Ltac inv_in :=
  repeat match goal with
         | H : In _ (_ ++ _) |- _ => apply in_app_or in H; destruct H as [H|H]
         | H : In _ (_ :: _) |- _ => destruct H as [H|H]
         | H : In _ [] |- _ => destruct H
         | H : _ = _ |- _ => discriminate H
         end.

Lemma in_removeNth {A} (l : list A) k x y :
  nth_error l k = Some x -> In y (removeNth k l) -> In y l.
Proof.
  intros H. apply nth_error_split in H as (l1 & l2 & -> & <-).
  rewrite removeNth_middle. rewrite !in_app_iff. cbn. tauto.
Qed.

Section Step.

Variables q q' : Queue World.
Hypothesis Hinv : call_inv q.
Variable es : list (Event World).
Hypothesis Htrace : trace q' = trace q ++ es.

Let old {e} : In e (trace q) -> In e (trace q').
Proof. intros H. rewrite Htrace. apply in_or_app. auto. Qed.

(** The fields of the invariant that a move keeps when its new events are
    of other kinds. *)
Lemma keep_fresh :
  nextCh q <= nextCh q' ->
  (forall ch fn, In (ECall ch fn) es -> ch < nextCh q') ->
  forall ch fn, In (ECall ch fn) (trace q') -> ch < nextCh q'.
Proof.
  intros Hn Hes ch fn H. rewrite Htrace in H.
  apply in_app_or in H as [H|H]; [|eauto].
  apply (inv_fresh q Hinv) in H. lia.
Qed.

Lemma keep_jobs :
  (forall job,
      In job (jobCh q') \/ In job (sendq q') \/ worker q' = Running job ->
      (In job (jobCh q) \/ In job (sendq q) \/ worker q = Running job)
      \/ In (ECall (job_ch job) (job_fn job)) es) ->
  forall job,
    In job (jobCh q') \/ In job (sendq q') \/ worker q' = Running job ->
    In (ECall (job_ch job) (job_fn job)) (trace q').
Proof.
  intros Hes job H. destruct (Hes job H) as [H'|H'].
  - apply old, (inv_jobs q Hinv), H'.
  - rewrite Htrace. apply in_or_app. auto.
Qed.

Lemma keep_cell :
  (forall ch r, chans q' ch = Some r ->
                chans q ch = Some r \/ exists w, In (EFinish ch w r) es) ->
  forall ch r, chans q' ch = Some r -> exists w, In (EFinish ch w r) (trace q').
Proof.
  intros Hes ch r H. destruct (Hes ch r H) as [H'|[w H']].
  - destruct (inv_cell q Hinv ch r H') as [w Hw]. exists w. apply old, Hw.
  - exists w. rewrite Htrace. apply in_or_app. auto.
Qed.

Lemma keep_finish :
  (forall ch w r, In (EFinish ch w r) es ->
      exists fn, In (ECall ch fn) (trace q) /\ r = fst (callFn fn w)) ->
  forall ch w r, In (EFinish ch w r) (trace q') ->
    exists fn, In (ECall ch fn) (trace q') /\ r = fst (callFn fn w).
Proof.
  intros Hes ch w r H. rewrite Htrace in H.
  apply in_app_or in H as [H|H].
  - destruct (inv_finish q Hinv ch w r H) as (fn & Hf & E). eauto.
  - destruct (Hes ch w r H) as (fn & Hf & E). eauto.
Qed.

Lemma keep_return :
  (forall ch r, In (EReturn ch r) es ->
      es = [EReturn ch r] /\ exists w, In (EFinish ch w r) (trace q)) ->
  forall ch r, In (EReturn ch r) (trace q') ->
    exists w, precedes (EFinish ch w r) (EReturn ch r) (trace q').
Proof.
  intros Hes ch r H. rewrite Htrace in *.
  apply in_app_or in H as [H|H].
  - destruct (inv_return q Hinv ch r H) as [w Hw]. exists w.
    apply precedes_app, Hw.
  - destruct (Hes ch r H) as (-> & w & Hw). exists w.
    apply precedes_snoc, Hw.
Qed.

Lemma keep_done :
  (forall ch, (exists r, chans q ch = Some r) ->
              (exists r, chans q' ch = Some r)
              \/ exists r, In (EReturn ch r) es) ->
  (forall ch, In ch (finished es) -> exists r, chans q' ch = Some r) ->
  forall ch, In ch (finished (trace q')) ->
    (exists r, chans q' ch = Some r) \/ (exists r, In (EReturn ch r) (trace q')).
Proof.
  intros Hcell Hes ch H. rewrite Htrace in H.
  unfold finished in H. rewrite flat_map_app in H.
  apply in_app_or in H as [H|H].
  - destruct (inv_done q Hinv ch H) as [Hx|[r Hx]].
    + destruct (Hcell ch Hx) as [Hy|[r Hy]]; [left; exact Hy|].
      right. exists r. rewrite Htrace. apply in_or_app. auto.
    + right. exists r. apply old, Hx.
  - left. apply Hes, H.
Qed.

Lemma keep_unique :
  (forall ch fn fn', In (ECall ch fn) es -> In (ECall ch fn') es -> fn = fn') ->
  (forall ch fn, In (ECall ch fn) es -> ch = nextCh q) ->
  forall ch fn fn',
    In (ECall ch fn) (trace q') -> In (ECall ch fn') (trace q') -> fn = fn'.
Proof.
  intros Hone Hes ch fn fn' H1 H2. rewrite Htrace in *.
  apply in_app_or in H1 as [H1|H1]; apply in_app_or in H2 as [H2|H2].
  - eapply (inv_unique q Hinv); eassumption.
  - apply Hes in H2. subst ch. apply (inv_fresh q Hinv) in H1. lia.
  - apply Hes in H1. subst ch. apply (inv_fresh q Hinv) in H2. lia.
  - eapply Hone; eassumption.
Qed.

End Step.

Ltac fields Hinv Htr :=
  split;
  [ eapply keep_fresh; [exact Hinv|exact Htr| |]
  | eapply keep_jobs; [exact Hinv|exact Htr|]
  | eapply keep_cell; [exact Hinv|exact Htr|]
  | eapply keep_finish; [exact Hinv|exact Htr|]
  | eapply keep_return; [exact Hinv|exact Htr|]
  | eapply keep_done; [exact Hinv|exact Htr| |]
  | eapply keep_unique; [exact Hinv|exact Htr| |] ];
  cbn [trace jobCh sendq worker chans nextCh world finished flat_map
       finishOf app];
  intros.

Ltac extend es :=
  match goal with
  | |- call_inv ?q1 =>
      assert (Htr : trace q1 = trace _ ++ es)
        by (cbn [trace]; unfold log; rewrite ?app_nil_r; reflexivity)
  end.

Lemma call_inv_step (q : Queue World) (a : Action World) (q' : Queue World) :
  call_inv q -> step cfg q a = Some q' -> call_inv q'.
Proof.
  intros Hinv Hstep.
  destruct a; cbn [step] in Hstep.
  - (* Submit *)
    destruct (Nat.ltb (List.length (jobCh q)) QueueSize);
      injection Hstep as <-.
    + extend [ECall (nextCh q) fn; ESent (nextCh q)].
      fields Hinv Htr; inv_in; auto; try congruence; try lia.
      * injection H as <- _. lia.
      * destruct H as [H|[H|H]]; auto.
        apply in_app_or in H as [H|[<-|[]]]; auto.
        right. cbn. auto.
    + extend [ECall (nextCh q) fn].
      fields Hinv Htr; inv_in; auto; try congruence; try lia.
      * injection H as <- _. lia.
      * destruct H as [H|[H|H]]; auto.
        apply in_app_or in H as [H|[<-|[]]]; auto.
        right. cbn. auto.
  - (* Admit *)
    destruct (nth_error (sendq q) k) as [job|] eqn:Hk; [|discriminate].
    destruct (Nat.ltb (List.length (jobCh q)) QueueSize); [|discriminate].
    injection Hstep as <-.
    extend [@ESent World (job_ch job)].
    fields Hinv Htr; inv_in; auto; try congruence; try lia.
    destruct H as [H|[H|H]]; auto.
    + apply in_app_or in H as [H|[<-|[]]]; auto.
      left. right. left. eapply nth_error_In, Hk.
    + left. right. left. eapply in_removeNth; eassumption.
  - (* StartWorkers *)
    destruct (worker q) eqn:Hw; try discriminate.
    injection Hstep as <-.
    extend (@nil (Event World)).
    fields Hinv Htr; inv_in; auto; try congruence; try lia.
    destruct H as [H|[H|H]]; auto. discriminate.
  - (* WorkerReceive *)
    destruct (worker q) eqn:Hw; try discriminate.
    destruct (jobCh q) as [|job rest] eqn:Hb; [discriminate|].
    injection Hstep as <-.
    extend [@EStart World (job_ch job)].
    fields Hinv Htr; inv_in; auto; try congruence; try lia.
    destruct H as [H|H]; [|destruct H as [H|H]]; auto.
    + left. left. rewrite Hb. right. exact H.
    + injection H as <-. left. left. rewrite Hb. left. reflexivity.
  - (* WorkerRun *)
    destruct (worker q) as [| |job|] eqn:Hw; try discriminate.
    destruct (callFn (job_fn job) (world q)) as [r w'] eqn:Hcall.
    injection Hstep as <-.
    extend [EFinish (job_ch job) (world q) r].
    fields Hinv Htr; inv_in; auto; try congruence; try lia.
    + destruct H as [H|[H|H]]; auto.
      destruct (QueueEnabled cfg); discriminate.
    + unfold setChan in H. destruct (Nat.eqb_spec ch (job_ch job)) as [->|Hne].
      * injection H as <-. right. eexists. left. reflexivity.
      * auto.
    + injection H as <- <- <-. exists (job_fn job). split.
      * apply (inv_jobs q Hinv). auto.
      * rewrite Hcall. reflexivity.
    + destruct H as [r0 H]. left. unfold setChan.
      destruct (Nat.eqb ch (job_ch job)); eauto.
    + subst ch. unfold setChan. rewrite Nat.eqb_refl. eauto.
  - (* WorkerWake *)
    destruct (worker q) eqn:Hw; try discriminate.
    injection Hstep as <-.
    extend [@ESleep World (Interval cfg)].
    fields Hinv Htr; inv_in; auto; try congruence; try lia.
    destruct H as [H|[H|H]]; auto. discriminate.
  - (* Receive *)
    destruct (chans q ch) as [r|] eqn:Hch; [|discriminate].
    injection Hstep as <-.
    extend [@EReturn World ch r].
    fields Hinv Htr; inv_in; auto; try congruence; try lia.
    + unfold setChan in H. destruct (Nat.eqb ch0 ch); [discriminate|auto].
    + injection H as <- <-. split; [reflexivity|].
      apply (inv_cell q Hinv), Hch.
    + destruct H as [r0 H]. unfold setChan.
      destruct (Nat.eqb_spec ch0 ch) as [->|Hne].
      * right. exists r. left. reflexivity.
      * left. eauto.
  - (* Interfere *)
    injection Hstep as <-.
    extend (@nil (Event World)).
    fields Hinv Htr; inv_in; auto; try congruence; try lia.
Qed.

End Platform.

Section Reach.

Variable World : Type.
Variable cfg : Settings.

(** *** Reachable states *)

Lemma reachable_inv (q : Queue World) :
  reachable cfg q -> fifo_inv q /\ call_inv q.
Proof.
  induction 1 as [w|q a q' _ [IH1 IH2] Hstep].
  - split; [apply fifo_inv_init|apply call_inv_init].
  - split; [eapply fifo_inv_step|eapply call_inv_step]; eassumption.
Qed.

Lemma run_app (q : Queue World) acts1 acts2 :
  run cfg q (acts1 ++ acts2) =
  match run cfg q acts1 with
  | Some q' => run cfg q' acts2
  | None => None
  end.
Proof.
  revert q. induction acts1 as [|a acts1 IH]; intros q; cbn; [reflexivity|].
  destruct (step cfg q a); [apply IH|reflexivity].
Qed.

Lemma run_reachable (q : Queue World) acts q' :
  reachable cfg q -> run cfg q acts = Some q' -> reachable cfg q'.
Proof.
  revert q. induction acts as [|a acts IH]; intros q Hq Hrun; cbn in Hrun.
  - injection Hrun as <-. exact Hq.
  - destruct (step cfg q a) as [q1|] eqn:Hs; [|discriminate].
    eapply IH; [|exact Hrun]. eapply reach_step; eassumption.
Qed.

Lemma run_trace (q : Queue World) acts q' :
  run cfg q acts = Some q' -> exists es, trace q' = trace q ++ es.
Proof.
  revert q. induction acts as [|a acts IH]; intros q Hrun; cbn in Hrun.
  - injection Hrun as <-. exists []. rewrite app_nil_r. reflexivity.
  - destruct (step cfg q a) as [q1|] eqn:Hs; [|discriminate].
    apply step_trace in Hs as [es1 E1]. apply IH in Hrun as [es2 E2].
    exists (es1 ++ es2). rewrite E2, E1, app_assoc. reflexivity.
Qed.

(** The worker of a queue that is not empty has a move, or a blocked sender
    can be admitted, and the move brings the queue closer to empty. *)
Lemma drain_step (q : Queue World) :
  worker q <> NotStarted ->
  (jobCh q = [] /\ sendq q = [] /\ worker q = Receiving)
  \/ exists a q1,
       step cfg q a = Some q1 /\ backlog q1 < backlog q
       /\ worker q1 <> NotStarted.
Proof.
  intros Hw. unfold backlog.
  destruct (worker q) as [| |job|] eqn:Ew; [congruence| | |].
  - destruct (jobCh q) as [|job rest] eqn:Eb.
    + destruct (sendq q) as [|job rest] eqn:Es; [left; auto|].
      right. exists (Admit 0). cbn [step]. rewrite Es, Eb. cbn.
      eexists. split; [reflexivity|]. cbn. rewrite Ew.
      split; [cbn; lia|discriminate].
    + right. exists WorkerReceive. cbn [step]. rewrite Ew, Eb.
      eexists. split; [reflexivity|]. cbn. split; [lia|discriminate].
  - right. exists WorkerRun. cbn [step]. rewrite Ew.
    destruct (callFn (job_fn job) (world q)) as [r w'].
    eexists. split; [reflexivity|]. cbn.
    destruct (QueueEnabled cfg); cbn; split; try lia; discriminate.
  - right. exists WorkerWake. cbn [step]. rewrite Ew.
    eexists. split; [reflexivity|]. cbn. split; [lia|discriminate].
Qed.

(** A started worker, left to itself with the blocked senders, empties the
    queue. *)
Lemma drain n : forall q : Queue World,
  worker q <> NotStarted -> backlog q <= n ->
  exists acts q',
    run cfg q acts = Some q'
    /\ jobCh q' = [] /\ sendq q' = [] /\ worker q' = Receiving.
Proof.
  induction n as [|n IH]; intros q Hw Hn;
    destruct (drain_step q Hw) as [Hdone|(a & q1 & Hs & Hlt & Hw1)];
    try (exists [], q; split; [reflexivity|exact Hdone]).
  - lia.
  - destruct (IH q1 Hw1) as (acts & q' & Hr & H); [lia|].
    exists (a :: acts), q'. cbn [run]. rewrite Hs. auto.
Qed.

Lemma in_called ch (tr : list (Event World)) :
  In ch (called tr) <-> exists fn, In (ECall ch fn) tr.
Proof.
  unfold called. rewrite in_flat_map. split.
  - intros (e & He & Hc). destruct e; cbn in Hc; try contradiction.
    destruct Hc as [<-|[]]. eauto.
  - intros (fn & H). eexists. split; [exact H|]. cbn. auto.
Qed.

Lemma NoDup_app_inv {A} (l1 l2 : list A) :
  NoDup (l1 ++ l2) ->
  NoDup l1 /\ NoDup l2 /\ forall a, In a l1 -> ~ In a l2.
Proof.
  intros H. split; [eapply NoDup_app_remove_r, H|].
  split; [eapply NoDup_app_remove_l, H|].
  induction l1 as [|x l1 IH]; intros a Ha; [destruct Ha|].
  cbn in H. inversion H as [|? ? Hx Hnd]; subst.
  destruct Ha as [<-|Ha].
  - intros Hin. apply Hx. apply in_or_app. auto.
  - apply IH; assumption.
Qed.

(** A result channel is made once. *)
Lemma called_nodup (q : Queue World) :
  reachable cfg q -> NoDup (called (trace q)).
Proof.
  induction 1 as [w|q a q' Hq IH Hstep]; [constructor|].
  destruct (reachable_inv q Hq) as [_ Hc].
  assert (Hnew : NoDup (called (trace q) ++ [nextCh q])).
  { apply NoDup_app; [exact IH|constructor; [intros []|constructor]|].
    intros ch Hin [<-|[]]. apply in_called in Hin as [fn' Hin].
    apply (inv_fresh q Hc) in Hin. lia. }
  destruct a; cbn [step] in Hstep;
    repeat match type of Hstep with
           | context [match ?x with _ => _ end] => destruct x
           end;
    try discriminate; injection Hstep as <-; unfold log; cbn [trace];
    rewrite ?called_app; cbn; rewrite ?app_nil_r;
    first [exact IH | exact Hnew].
Qed.

(** Every job whose caller arrived is finished, running, buffered or
    blocked. *)
Lemma no_job_dropped (q : Queue World) :
  reachable cfg q ->
  Permutation (called (trace q))
    (finished (trace q) ++ running (worker q)
     ++ map job_ch (jobCh q) ++ map job_ch (sendq q)).
Proof.
  intros Hq. destruct (reachable_inv q Hq) as [[Hs Hst _ _ Hp] _].
  rewrite Hp, Hs, Hst, <- !app_assoc. reflexivity.
Qed.

(** The caller of a job that is blocked or buffered cannot receive. *)
Lemma waiting_caller_is_blocked (q : Queue World) job :
  reachable cfg q ->
  In job (sendq q) \/ In job (jobCh q) ->
  step cfg q (Receive (job_ch job)) = None.
Proof.
  intros Hq Hin. cbn [step].
  destruct (chans q (job_ch job)) as [r|] eqn:Hch; [|reflexivity].
  exfalso.
  destruct (reachable_inv q Hq) as [_ Hc].
  destruct (inv_cell q Hc _ _ Hch) as [w Hw].
  assert (Hf : In (job_ch job) (finished (trace q))).
  { apply in_finished. eauto. }
  pose proof (called_nodup q Hq) as Hnd.
  rewrite (no_job_dropped q Hq) in Hnd.
  apply NoDup_app_inv in Hnd as (_ & _ & Hdis).
  apply (Hdis _ Hf). rewrite !in_app_iff, !in_map_iff.
  destruct Hin; eauto.
Qed.

Lemma submits_fill_the_buffer (fns : list (Fn World)) :
  forall q : Queue World,
    sendq q = [] ->
    List.length (jobCh q) + List.length fns <= QueueSize ->
    exists q',
      run cfg q (map Submit fns) = Some q'
      /\ sendq q' = []
      /\ List.length (jobCh q') = List.length (jobCh q) + List.length fns.
Proof.
  induction fns as [|fn fns IH]; intros q Hs Hlen; cbn [map run].
  - exists q. cbn. auto.
  - cbn [step]. cbn in Hlen.
    destruct (Nat.ltb_spec (List.length (jobCh q)) QueueSize) as [_|H]; [|lia].
    match goal with |- exists q', run cfg ?q1 _ = _ /\ _ =>
      destruct (IH q1) as (q' & Hr & Hs' & Hl) end.
    + exact Hs.
    + cbn. rewrite length_app. cbn. lia.
    + exists q'. split; [exact Hr|]. split; [exact Hs'|].
      rewrite Hl. cbn. rewrite length_app. cbn. lia.
Qed.

End Reach.

Section Claims.

Variable World : Type.
Variable cfg : Settings.

(** C1. In every state a platform's queue can reach, under any schedule of
    concurrent callers: the jobs the worker has begun are, in order, the
    first jobs whose sends completed, and the rest of them wait in the
    buffer in that same order (FIFO); the jobs begun are the jobs finished
    followed by the one running, if any; reading the whole trace, no job
    was begun while another was begun and not finished, and the only job in
    flight is the one the single worker is running; no job is sent, hence
    begun, twice. The platform's configuration [cfg] is arbitrary, so this
    holds for the WhatsApp queue and for the Telegram queue. *)
Theorem jobs_run_in_send_order_one_at_a_time (q : Queue World) :
  reachable cfg q ->
  sent (trace q) = started (trace q) ++ map job_ch (jobCh q)
  /\ started (trace q) = finished (trace q) ++ running (worker q)
  /\ inFlight (trace q) = Some (flying (worker q))
  /\ NoDup (sent (trace q)).
Proof.
  intros Hq. destruct (reachable_inv World cfg q Hq) as [[Hs Hst Hf _ Hp] _].
  repeat split; try assumption.
  pose proof (called_nodup World cfg q Hq) as Hnd.
  rewrite Hp in Hnd. apply NoDup_app_inv in Hnd. apply Hnd.
Qed.

(** C6. The capacity is 1000 and the buffer never holds more jobs. While
    the buffer holds fewer than [QueueSize] jobs a submission enters it at
    once; when it holds [QueueSize] jobs the submission is parked with the
    blocked senders, its caller cannot return, and no blocked sender is
    admitted until the buffer has room, at which point it can be. No job is
    dropped: the jobs of all callers that arrived are the finished ones,
    the running one, the buffered ones and the blocked ones. From start-up,
    [QueueSize] submissions with no worker progress all enter the buffer and
    the next one blocks. *)
Theorem submit_blocks_only_on_a_full_buffer (q : Queue World) :
  reachable cfg q ->
  QueueSize = 1000
  /\ List.length (jobCh q) <= QueueSize
  /\ (forall fn, List.length (jobCh q) < QueueSize ->
        exists q', step cfg q (Submit fn) = Some q'
          /\ jobCh q' = jobCh q ++ [{| job_fn := fn; job_ch := nextCh q |}]
          /\ sendq q' = sendq q)
  /\ (forall fn, List.length (jobCh q) = QueueSize ->
        exists q', step cfg q (Submit fn) = Some q'
          /\ jobCh q' = jobCh q
          /\ sendq q' = sendq q ++ [{| job_fn := fn; job_ch := nextCh q |}])
  /\ (forall job, In job (sendq q) ->
        step cfg q (Receive (job_ch job)) = None)
  /\ (forall k, List.length (jobCh q) = QueueSize ->
        step cfg q (Admit k) = None)
  /\ (forall k job, nth_error (sendq q) k = Some job ->
        List.length (jobCh q) < QueueSize ->
        exists q', step cfg q (Admit k) = Some q'
          /\ jobCh q' = jobCh q ++ [job]
          /\ sendq q' = removeNth k (sendq q))
  /\ Permutation (called (trace q))
       (finished (trace q) ++ running (worker q)
        ++ map job_ch (jobCh q) ++ map job_ch (sendq q))
  /\ (forall (w : World) fns fn, List.length fns = QueueSize ->
        exists q1 q2,
          run cfg (init w) (map Submit fns) = Some q1
          /\ sendq q1 = []
          /\ step cfg q1 (Submit fn) = Some q2
          /\ jobCh q2 = jobCh q1
          /\ sendq q2 = [{| job_fn := fn; job_ch := nextCh q1 |}]).
Proof.
  intros Hq. destruct (reachable_inv World cfg q Hq) as [[_ _ _ Hcap _] _].
  split; [reflexivity|]. split; [exact Hcap|].
  split; [|split; [|split; [|split; [|split; [|split]]]]].
  - intros fn Hlt. cbn [step].
    destruct (Nat.ltb_spec (List.length (jobCh q)) QueueSize); [|lia].
    eexists. split; [reflexivity|]. cbn. auto.
  - intros fn Hfull. cbn [step].
    destruct (Nat.ltb_spec (List.length (jobCh q)) QueueSize); [lia|].
    eexists. split; [reflexivity|]. cbn. auto.
  - intros job Hin. apply waiting_caller_is_blocked; auto.
  - intros k Hfull. cbn [step].
    destruct (nth_error (sendq q) k); [|reflexivity].
    destruct (Nat.ltb_spec (List.length (jobCh q)) QueueSize); [lia|reflexivity].
  - intros k job Hk Hlt. cbn [step]. rewrite Hk.
    destruct (Nat.ltb_spec (List.length (jobCh q)) QueueSize); [|lia].
    eexists. split; [reflexivity|]. cbn. auto.
  - apply (no_job_dropped World cfg), Hq.
  - intros w fns fn Hlen.
    destruct (submits_fill_the_buffer World cfg fns (init w))
      as (q1 & Hr & Hs & Hl); [reflexivity|cbn; lia|].
    exists q1. cbn [step].
    destruct (Nat.ltb_spec (List.length (jobCh q1)) QueueSize) as [H|_];
      [cbn in Hl; lia|].
    eexists. split; [exact Hr|]. split; [exact Hs|].
    split; [reflexivity|]. cbn. rewrite Hs. auto.
Qed.

Lemma callFn_typed {T} (f : World -> (T * error) * World) w :
  fst (callFn (typed f) w) = resultOf (fst (f w)).
Proof. unfold callFn, typed, resultOf. destruct (f w). reflexivity. Qed.

(** Entering [TgRun] never fails: the channel is made and the closure is
    sent, or its sender is parked. *)
Lemma submit_starts (q : Queue World) (fn : Fn World) :
  exists q1 es,
    step cfg q (TgRun fn) = Some q1
    /\ trace q1 = trace q ++ ECall (nextCh q) fn :: es
    /\ worker q1 = worker q.
Proof.
  unfold TgRun. cbn [step].
  destruct (Nat.ltb (List.length (jobCh q)) QueueSize);
    eexists; eexists; (split; [reflexivity|]); cbn; unfold log; auto.
Qed.

(** C2. A call [TgRun(fn)] made once the workers are started: the call
    enters the queue; some schedule lets it return, and it then returns the
    pair [fn] produced on the world [w] the worker ran it on; and in every
    schedule in which it returns a result [r], [r] is that pair, unchanged,
    written by the worker's execution of [fn] before the caller returned
    (the caller was blocked until then). *)
Theorem TgRun_returns_the_result_of_fn
        {T : Type} (f : World -> (T * error) * World) (q : Queue World) :
  reachable cfg q ->
  worker q <> NotStarted ->
  let ch := nextCh q in
  exists q1,
    step cfg q (TgRun (typed f)) = Some q1
    /\ (exists acts q2 w,
          run cfg q1 acts = Some q2
          /\ In (EReturn ch (resultOf (fst (f w)))) (trace q2))
    /\ (forall acts q2 r,
          run cfg q1 acts = Some q2 ->
          In (EReturn ch r) (trace q2) ->
          exists w,
            r = resultOf (fst (f w))
            /\ precedes (EFinish ch w r) (EReturn ch r) (trace q2)).
Proof.
  intros Hq Hw ch.
  destruct (submit_starts q (typed f)) as (q1 & es0 & Hs & Htr & Hwq).
  exists q1. split; [exact Hs|].
  assert (Hq1 : reachable cfg q1) by (eapply reach_step; eassumption).
  assert (Hcall : In (ECall ch (typed f)) (trace q1)).
  { rewrite Htr. apply in_or_app. right. left. reflexivity. }
  assert (Hw1 : worker q1 <> NotStarted) by congruence.
  assert (Hsafe : forall acts q2 r,
             run cfg q1 acts = Some q2 ->
             In (EReturn ch r) (trace q2) ->
             exists w, r = resultOf (fst (f w))
                       /\ precedes (EFinish ch w r) (EReturn ch r) (trace q2)).
  { intros acts q2 r Hr Hret.
    assert (Hq2 : reachable cfg q2) by (eapply run_reachable; eassumption).
    destruct (reachable_inv World cfg q2 Hq2) as [_ Hc].
    destruct (run_trace World cfg q1 acts q2 Hr) as [es Hes].
    assert (Hcall2 : In (ECall ch (typed f)) (trace q2)).
    { rewrite Hes. apply in_or_app. auto. }
    destruct (inv_return q2 Hc ch r Hret) as [w Hp].
    exists w. split; [|exact Hp].
    assert (Hfin : In (EFinish ch w r) (trace q2)).
    { destruct Hp as (a & b & c & ->). apply in_or_app. right. left. reflexivity. }
    destruct (inv_finish q2 Hc ch w r Hfin) as (fn & Hfn & ->).
    rewrite (inv_unique q2 Hc ch fn (typed f) Hfn Hcall2).
    apply callFn_typed. }
  split; [|exact Hsafe].
  destruct (drain World cfg (backlog q1) q1 Hw1 (le_n _))
    as (acts & q' & Hr & Hb & Hsq & Hwk).
  assert (Hq' : reachable cfg q') by (eapply run_reachable; eassumption).
  destruct (reachable_inv World cfg q' Hq') as [_ Hc].
  destruct (run_trace World cfg q1 acts q' Hr) as [es Hes].
  assert (Hfin : In ch (finished (trace q'))).
  { pose proof (no_job_dropped World cfg q' Hq') as Hp.
    rewrite Hb, Hsq, Hwk in Hp. cbn in Hp. rewrite app_nil_r in Hp.
    eapply Permutation_in; [exact Hp|].
    apply in_called. exists (typed f). rewrite Hes. apply in_or_app. auto. }
  destruct (inv_done q' Hc ch Hfin) as [[r Hcell]|[r Hret]].
  - destruct (step cfg q' (Receive ch)) as [q2|] eqn:Hrecv;
      cbn [step] in Hrecv; rewrite Hcell in Hrecv; [|discriminate].
    assert (Hrun : run cfg q1 (acts ++ [Receive ch]) = Some q2).
    { rewrite run_app, Hr. cbn [run step]. rewrite Hcell.
      injection Hrecv as <-. reflexivity. }
    assert (Hret : In (EReturn ch r) (trace q2)).
    { injection Hrecv as <-. cbn. unfold log. apply in_or_app. right.
      left. reflexivity. }
    destruct (Hsafe _ _ _ Hrun Hret) as (w & -> & _).
    exists (acts ++ [Receive ch]), q2, w. auto.
  - destruct (Hsafe _ _ _ Hr Hret) as (w & -> & _).
    exists acts, q', w. auto.
Qed.

End Claims.

(** *** The theorems at a concrete queue *)

Lemma busy_reachable : reachable Scenario.cfg0 Scenario.busy.
Proof.
  apply (run_reachable unit Scenario.cfg0 (init tt) Scenario.schedule).
  - apply reach_init.
  - reflexivity.
Qed.

Lemma idle_reachable : reachable Scenario.cfg0 Scenario.idle.
Proof.
  apply (reach_step unit Scenario.cfg0 (init tt) StartWorkers).
  - apply reach_init.
  - reflexivity.
Qed.

Lemma jobs_run_in_send_order_one_at_a_time_witness :
  sent (trace Scenario.busy) = [0; 1]
  /\ started (trace Scenario.busy) = [0]
  /\ inFlight (trace Scenario.busy) = Some (Some 0)
  /\ NoDup (sent (trace Scenario.busy)).
Proof.
  exact (jobs_run_in_send_order_one_at_a_time unit Scenario.cfg0
           Scenario.busy busy_reachable).
Defined.

Lemma submit_blocks_only_on_a_full_buffer_witness :
  QueueSize = 1000 /\ List.length (jobCh Scenario.busy) <= QueueSize.
Proof.
  pose proof (submit_blocks_only_on_a_full_buffer unit Scenario.cfg0
                Scenario.busy busy_reachable) as H.
  exact (conj (proj1 H) (proj1 (proj2 H))).
Defined.

Lemma TgRun_returns_the_result_of_fn_witness :
  exists q1,
    step Scenario.cfg0 Scenario.idle (TgRun (typed Scenario.fn42)) = Some q1
    /\ (exists acts q2 w,
          run Scenario.cfg0 q1 acts = Some q2
          /\ In (EReturn 0 (resultOf (fst (Scenario.fn42 w)))) (trace q2))
    /\ (forall acts q2 r,
          run Scenario.cfg0 q1 acts = Some q2 ->
          In (EReturn 0 r) (trace q2) ->
          exists w,
            r = resultOf (fst (Scenario.fn42 w))
            /\ precedes (EFinish 0 w r) (EReturn 0 r) (trace q2)).
Proof.
  apply (TgRun_returns_the_result_of_fn unit Scenario.cfg0 Scenario.fn42
           Scenario.idle idle_reachable).
  discriminate.
Defined.

(** The scenario of the specification: a function returning (42, nil) is
    submitted, the worker runs it, and the caller receives (42, nil). *)
Example submit_42_returns_42 :
  option_map (@trace unit)
    (run Scenario.cfg0 (init tt)
         [StartWorkers; TgRun (typed Scenario.fn42);
          WorkerReceive; WorkerRun; Receive 0])
  = Some [ECall 0 (typed Scenario.fn42); ESent 0; EStart 0;
          EFinish 0 tt (resultOf (42%Z, None));
          EReturn 0 (resultOf (42%Z, None))].
Proof. reflexivity. Qed.

(** The caller cannot receive before the worker has run the job. *)
Example submit_42_blocks_until_run :
  run Scenario.cfg0 (init tt)
      [StartWorkers; TgRun (typed Scenario.fn42); WorkerReceive; Receive 0]
  = None.
Proof. reflexivity. Qed.

(** An error is handed back as it is, and the worker goes on. *)
Example failed_job_is_reported_and_worker_continues :
  option_map (@trace unit)
    (run Scenario.cfg0 (init tt)
         [StartWorkers; TgRun (typed Scenario.fnFail);
          TgRun (typed Scenario.fn42);
          WorkerReceive; WorkerRun; WorkerWake; Receive 0;
          WorkerReceive; WorkerRun; Receive 1])
  = Some [ECall 0 (typed Scenario.fnFail); ESent 0;
          ECall 1 (typed Scenario.fn42); ESent 1;
          EStart 0;
          EFinish 0 tt (resultOf (0%Z, Some "Too Many Requests"));
          ESleep 100;
          EReturn 0 (resultOf (0%Z, Some "Too Many Requests"));
          EStart 1;
          EFinish 1 tt (resultOf (42%Z, None));
          EReturn 1 (resultOf (42%Z, None))].
Proof. reflexivity. Qed.

End QueueFacts.

(** ** More on the tick and the sweeper *)

Module MoreTickFacts.

Import Scheduler TickSpec TickFacts SweepFacts TickViews.

Section Frames.

Context {X : Type} (view : Store -> X) (P : Call -> Prop).

Lemma frames_refl s : frames view P s s.
Proof.
  split; [|reflexivity]. exists []. rewrite app_nil_r. auto.
Qed.

Lemma frames_trans s1 s2 s3 :
  frames view P s1 s2 -> frames view P s2 s3 -> frames view P s1 s3.
Proof.
  intros [(n1 & E1 & F1) V1] [(n2 & E2 & F2) V2]. split; [|congruence].
  exists (n1 ++ n2). split.
  - rewrite E2, E1, app_assoc. reflexivity.
  - apply Forall_app. auto.
Qed.

Lemma fr_ret {A} (a : A) : preserves (frames view P) (ret a).
Proof. apply preserves_ret, frames_refl. Qed.

Lemma fr_panic {A} : preserves (frames view P) (@panic A).
Proof. apply preserves_panic, frames_refl. Qed.

Lemma fr_bind {A B} (m : M A) (k : A -> M B) :
  preserves (frames view P) m -> (forall a, preserves (frames view P) (k a)) ->
  preserves (frames view P) (bind m k).
Proof. apply preserves_bind, frames_trans. Qed.

Lemma fr_when (b : bool) (m : M unit) :
  preserves (frames view P) m -> preserves (frames view P) (when b m).
Proof. apply preserves_when, frames_refl. Qed.

Lemma fr_forRange {A} (xs : list A) (body : A -> M unit) :
  (forall x, preserves (frames view P) (body x)) ->
  preserves (frames view P) (forRange xs body).
Proof. apply preserves_forRange; [apply frames_refl|apply frames_trans]. Qed.

Lemma fr_invoke E c : P c -> preserves (frames view P) (invoke E c).
Proof.
  intros Hc s. split; [|reflexivity].
  exists [c]. split; [reflexivity|]. constructor; [exact Hc|constructor].
Qed.

Lemma fr_invoke_k {A} E c (k : error -> M A) :
  P c -> (forall s, preserves (frames view P) (k (E (calls s) c))) ->
  preserves (frames view P) (bind (invoke E c) k).
Proof.
  intros Hc Hk s. rewrite bind_invoke.
  eapply frames_trans; [|apply Hk].
  split; [|reflexivity]. exists [c]. split; [reflexivity|].
  constructor; [exact Hc|constructor].
Qed.

Lemma fr_modify f :
  (forall s, view (f s) = view s) -> preserves (frames view P) (modify f).
Proof.
  intros Hf s. split; [|apply Hf]. exists []. rewrite app_nil_r. auto.
Qed.

Lemma fr_logger st E c : P c -> preserves (frames view P) (logger_ st E c).
Proof.
  intros Hc. unfold logger_. destruct (Logger st); [apply fr_panic|].
  apply fr_bind; [apply fr_invoke, Hc|intros _; apply fr_ret].
Qed.

Lemma fr_dbDelete E c f :
  P c -> (forall s, view (f s) = view s) ->
  preserves (frames view P) (dbDelete E c f).
Proof.
  intros Hc Hf. unfold dbDelete. apply fr_bind; [apply fr_invoke, Hc|].
  intros err. apply fr_bind; [apply fr_when, fr_modify, Hf|].
  intros _. apply fr_ret.
Qed.

Lemma fr_dbGetAllPairs E chat :
  P (ChatThreadGetAllPairs chat) ->
  preserves (frames view P) (dbGetAllPairs E chat).
Proof.
  intros Hc. unfold dbGetAllPairs. apply fr_bind; [apply fr_invoke, Hc|].
  intros e. destruct (isNil e); [|apply fr_ret].
  intros s. apply frames_refl.
Qed.

End Frames.

(** *** A row and a tick, case by case *)

Lemma processPair_cases st E tgChatId pairs pair s :
  Logger st = Ref ->
  processPair st E tgChatId pairs pair s
  = (Done tt, rowResult E tgChatId pairs pair s).
Proof.
  intros HL. unfold processPair, rowResult, classify.
  destruct (TgThreadId pair <=? 1)%Z; [reflexivity|].
  rewrite bind_invoke.
  destruct (isNil _ || negb _) eqn:Hb.
  - destruct (isTopicNotModified _); cbn [when]; [|reflexivity].
    rewrite bind_invoke. cbn [calls store ret].
    rewrite <- app_assoc. reflexivity.
  - unfold cascaded.
    rewrite (bind_logger st E _ _ _ HL), bind_dbDelete.
    rewrite (bind_when_failed_log st E _ _ _ _ HL), bind_dbDelete.
    rewrite (when_failed_log st E _ _ _ HL).
    cbn [calls store]. rewrite <- !app_assoc. cbn [app]. reflexivity.
Qed.

Lemma bind_dbGetAllPairs {B} E chat
      (k : list ChatThreadPair * error -> M B) s :
  bind (dbGetAllPairs E chat) k s =
  let e := E (calls s) (ChatThreadGetAllPairs chat) in
  let s' := {| store := store s;
               calls := calls s ++ [ChatThreadGetAllPairs chat] |} in
  if isNil e then k (getAllPairs chat (store s), e) s' else k ([], e) s'.
Proof.
  unfold dbGetAllPairs. unfold bind at 1. rewrite bind_invoke.
  cbn [calls store]. destruct (isNil _); reflexivity.
Qed.

Lemma tick_unfold st E s0 :
  TelegramBot st = Ref ->
  let chat := TargetChatID st in
  let c1 := prelude st E ++ [ChatThreadGetAllPairs chat] in
  tick st E s0 =
  if isNil (E (prelude st E) (ChatThreadGetAllPairs chat)) then
    forRange (snapshot st s0) (processPair st E chat (snapshot st s0))
             {| store := s0; calls := c1 |}
  else
    logger_ st E
      (LogError "[scheduler] failed to fetch chat_thread_pairs for topic cleanup" [])
      {| store := s0; calls := c1 |}.
Proof.
  intros HB chat c1. unfold tick, cleanupDeletedTopics. rewrite HB.
  cbn [isNilPtr]. rewrite bind_invoke. cbn [calls store app].
  subst c1. unfold prelude, loggerNotNil, snapshot. fold chat.
  assert (Hrest : forall c,
    bind (dbGetAllPairs E chat)
      (fun r => let '(pairs, err) := r in
                if negb (isNil err)
                then logger_ st E
                       (LogError "[scheduler] failed to fetch chat_thread_pairs for topic cleanup" [])
                else forRange pairs (processPair st E chat pairs))
      {| store := s0; calls := c |}
    = if isNil (E c (ChatThreadGetAllPairs chat)) then
        forRange (getAllPairs chat s0) (processPair st E chat (getAllPairs chat s0))
                 {| store := s0; calls := c ++ [ChatThreadGetAllPairs chat] |}
      else
        logger_ st E
          (LogError "[scheduler] failed to fetch chat_thread_pairs for topic cleanup" [])
          {| store := s0; calls := c ++ [ChatThreadGetAllPairs chat] |}).
  { intros c. rewrite bind_dbGetAllPairs. cbn [calls store].
    destruct (isNil (E c (ChatThreadGetAllPairs chat))) eqn:H1;
      cbn zeta; rewrite ?H1; try reflexivity. }
  destruct (isNil (E [] WaSyncContacts)) eqn:H0; cbn [negb andb when].
  - unfold bind at 1. cbn [ret]. apply Hrest.
  - destruct (Logger st) eqn:HL; cbn [isNilPtr negb when].
    + unfold bind at 1. cbn [ret]. apply Hrest.
    + rewrite (bind_logger st E _ _ _ HL). cbn [calls store app]. apply Hrest.
Qed.

(** *** What a tick never does *)

Lemma fr_tick {X} (view : Store -> X) (P : Call -> Prop) st E :
  P WaSyncContacts ->
  (forall msg fields, P (LogError msg fields)) ->
  P (ChatThreadGetAllPairs (TargetChatID st)) ->
  (forall pairs pair,
      preserves (frames view P)
                (processPair st E (TargetChatID st) pairs pair)) ->
  preserves (frames view P) (cleanupDeletedTopics st E).
Proof.
  intros Hs Hl Hg Hrow. unfold cleanupDeletedTopics.
  destruct (isNilPtr (TelegramBot st)); [apply fr_ret|].
  apply fr_bind; [apply fr_invoke, Hs|]. intros err.
  apply fr_bind; [apply fr_when, fr_logger, Hl|]. intros _.
  apply fr_bind; [apply fr_dbGetAllPairs, Hg|].
  intros [pairs e]. destruct (negb (isNil e)); [apply fr_logger, Hl|].
  apply fr_forRange. intros x. apply Hrow.
Qed.

Lemma frames_from_start {X} (view : Store -> X) (P : Call -> Prop)
      (m : M unit) s0 :
  preserves (frames view P) m ->
  let after := snd (m {| store := s0; calls := [] |}) in
  Forall P (calls after) /\ view (store after) = view s0.
Proof.
  intros Hm after. destruct (Hm {| store := s0; calls := [] |})
    as [(new & Hc & Hn) Hv].
  fold after in Hc, Hv. cbn [calls store app] in Hc, Hv.
  rewrite Hc. auto.
Qed.

(** X1. A tick deletes nothing unless a probe answers with one of the
    not-found signatures: when no probe error is a not-found error (nil,
    "TOPIC_NOT_MODIFIED", a timeout, a rate limit, anything else), the store
    after the tick is the store before it and the tick makes no delete
    call, whatever the handles and the other answers are. *)
Theorem tick_without_not_found_deletes_nothing st E s0 :
  (forall h chat threadId,
      isTopicNotFound (E h (TgReopenForumTopic chat threadId)) = false) ->
  let after := snd (tick st E s0) in
  store after = s0
  /\ Forall (fun c => isDelete c = false) (calls after).
Proof.
  intros Hnf after.
  destruct (frames_from_start (fun s => s) (fun c => isDelete c = false)
              (cleanupDeletedTopics st E) s0) as [Hc Hs]; [|split; assumption].
  apply fr_tick; try reflexivity.
  intros pairs pair. unfold processPair.
  destruct (TgThreadId pair <=? 1)%Z; [apply fr_ret|].
  apply fr_invoke_k; [reflexivity|]. intros s.
  rewrite Hnf. cbn [negb]. rewrite orb_true_r.
  apply fr_when, fr_bind; [apply fr_invoke; reflexivity|].
  intros _. apply fr_ret.
Qed.

Lemma tick_without_not_found_deletes_nothing_witness :
  let after := snd (tick Scenario.live
                         (Scenario.answering (Some "Too Many Requests: retry after 5")
                                             None)
                         Scenario.store0) in
  store after = Scenario.store0
  /\ Forall (fun c => isDelete c = false) (calls after).
Proof.
  apply (tick_without_not_found_deletes_nothing Scenario.live).
  intros h chat threadId. reflexivity.
Defined.

Lemma otherGroups_deletePairs chat threadId s :
  otherGroups chat (deletePairsByThreadId chat threadId s) = otherGroups chat s.
Proof.
  unfold otherGroups, deletePairsByThreadId. cbn [chat_thread_pairs msg_id_pairs].
  f_equal. apply filter_filter_comm. intros m Hm.
  apply negb_true_iff in Hm. rewrite Hm. reflexivity.
Qed.

Lemma otherGroups_dropPair chat threadId s :
  otherGroups chat (dropPairByTg chat threadId s) = otherGroups chat s.
Proof.
  unfold otherGroups, dropPairByTg. cbn [chat_thread_pairs msg_id_pairs].
  f_equal. apply filter_filter_comm. intros m Hm.
  apply negb_true_iff in Hm. rewrite Hm. reflexivity.
Qed.

(** X2. A tick works on the configured forum group only: every call that
    names a group (the read of the pairing table, the probes, the
    resynchronisations, the deletes) names [TargetChatID], and the rows of
    every other group, in both tables, are all there after the tick. *)
Theorem tick_stays_within_the_target_group st E s0 :
  let after := snd (tick st E s0) in
  Forall (withinGroup (TargetChatID st)) (calls after)
  /\ (forall p, In p (chat_thread_pairs s0) ->
                TgChatId p <> TargetChatID st ->
                In p (chat_thread_pairs (store after)))
  /\ (forall m, In m (msg_id_pairs s0) ->
                MsgTgChatId m <> TargetChatID st ->
                In m (msg_id_pairs (store after))).
Proof.
  intros after.
  destruct (frames_from_start (otherGroups (TargetChatID st))
              (withinGroup (TargetChatID st))
              (cleanupDeletedTopics st E) s0) as [Hc Hs].
  { apply fr_tick; try exact I; try reflexivity.
    intros pairs pair. unfold processPair.
    destruct (TgThreadId pair <=? 1)%Z; [apply fr_ret|].
    apply fr_bind; [apply fr_invoke; reflexivity|]. intros probeErr.
    destruct (isNil probeErr || negb (isTopicNotFound probeErr)).
    - apply fr_when, fr_bind; [apply fr_invoke; reflexivity|].
      intros _. apply fr_ret.
    - apply fr_bind; [apply fr_logger; exact I|]. intros _.
      apply fr_bind.
      { apply fr_dbDelete; [reflexivity|]. apply otherGroups_deletePairs. }
      intros e1. apply fr_bind; [apply fr_when, fr_logger; exact I|].
      intros _. apply fr_bind.
      { apply fr_dbDelete; [reflexivity|]. apply otherGroups_dropPair. }
      intros e2. apply fr_when, fr_logger. exact I. }
  fold (tick st E s0) in Hc, Hs. fold after in Hc, Hs.
  split; [exact Hc|].
  unfold otherGroups in Hs. injection Hs as Hp Hm. split.
  - intros p Hin Hne.
    assert (H : In p (filter (fun p => negb (TgChatId p =? TargetChatID st)%Z)
                             (chat_thread_pairs (store after)))).
    { rewrite Hp. apply filter_In. split; [exact Hin|].
      apply negb_true_iff, Z.eqb_neq, Hne. }
    apply filter_In in H. apply H.
  - intros m Hin Hne.
    assert (H : In m (filter (fun m => negb (MsgTgChatId m =? TargetChatID st)%Z)
                             (msg_id_pairs (store after)))).
    { rewrite Hm. apply filter_In. split; [exact Hin|].
      apply negb_true_iff, Z.eqb_neq, Hne. }
    apply filter_In in H. apply H.
Qed.

(** X3. When the pairing table cannot be read the tick stops there: it has
    made the contact synchronisation call and the read, it makes no probe,
    no resynchronisation and no delete, and the store is as it was. It
    reports the failure through the logger; with no logger it panics at that
    report. *)
Theorem tick_stops_when_the_pairs_cannot_be_read st E s0 :
  TelegramBot st = Ref ->
  (forall h, E h (ChatThreadGetAllPairs (TargetChatID st)) <> None) ->
  let r := tick st E s0 in
  store (snd r) = s0
  /\ Forall (fun c => isProbe c = false /\ isResync c = false
                      /\ isDelete c = false) (calls (snd r))
  /\ In (ChatThreadGetAllPairs (TargetChatID st)) (calls (snd r))
  /\ fst r = match Logger st with Ref => Done tt | Nil => Panicked end.
Proof.
  intros HB Hfail r. subst r. rewrite (tick_unfold st E s0 HB). cbv zeta.
  destruct (E (prelude st E) (ChatThreadGetAllPairs (TargetChatID st))) eqn:He;
    [|exfalso; eapply Hfail, He].
  cbn [isNil].
  assert (Hpre : Forall (fun c => isProbe c = false /\ isResync c = false
                                  /\ isDelete c = false) (prelude st E)).
  { unfold prelude. constructor; [auto|].
    destruct (negb _ && _); repeat constructor. }
  unfold logger_.
  destruct (Logger st); cbn [panic fst snd store calls bind invoke ret].
  - split; [reflexivity|]. split; [|split; [|reflexivity]].
    + apply Forall_app. split; [exact Hpre|]. repeat constructor.
    + apply in_or_app. right. left. reflexivity.
  - split; [reflexivity|]. split; [|split; [|reflexivity]].
    + rewrite !Forall_app. repeat split; try exact Hpre; repeat constructor.
    + apply in_or_app. left. apply in_or_app. right. left. reflexivity.
Qed.

Lemma tick_stops_when_the_pairs_cannot_be_read_witness :
  let r := tick Scenario.live Scenario.failing Scenario.store0 in
  store (snd r) = Scenario.store0
  /\ Forall (fun c => isProbe c = false /\ isResync c = false
                      /\ isDelete c = false) (calls (snd r))
  /\ In (ChatThreadGetAllPairs 100) (calls (snd r))
  /\ fst r = Done tt.
Proof.
  apply (tick_stops_when_the_pairs_cannot_be_read Scenario.live Scenario.failing
           Scenario.store0 eq_refl).
  intros h. discriminate.
Defined.

Lemma forRange_rows st E chat pairs (HL : Logger st = Ref) xs :
  forall s,
    forRange xs (processPair st E chat pairs) s
    = (Done tt, fold_left (fun acc p => rowResult E chat pairs p acc) xs s).
Proof.
  induction xs as [|x xs IH]; intros s; cbn [forRange fold_left];
    [reflexivity|].
  unfold bind. rewrite (processPair_cases st E chat pairs x s HL). apply IH.
Qed.

Lemma rowResult_probes E chat pairs p s :
  filter isProbe (calls (rowResult E chat pairs p s))
  = filter isProbe (calls s)
    ++ (if aboveDefaultRow p then [TgReopenForumTopic chat (TgThreadId p)]
        else []).
Proof.
  unfold rowResult, aboveDefaultRow.
  destruct (Z.leb_spec (TgThreadId p) 1) as [H|H];
    destruct (Z.ltb_spec 1 (TgThreadId p)) as [H'|H']; try lia.
  - rewrite app_nil_r. reflexivity.
  - destruct (classify _); unfold cascaded, onFailure; cbn [calls];
      rewrite !filter_app; cbn [filter isProbe];
      repeat match goal with |- context [if isNil ?e then _ else _] =>
                              destruct (isNil e) end;
      cbn [filter isProbe app]; rewrite ?app_nil_r; reflexivity.
Qed.

(** X4. With the bot and the logger set and the pairing table readable, a
    tick ends normally and probes every pairing row of the target group
    whose thread id is above 1 exactly once, in table order, whatever the
    probes answer and whichever deletes fail: one bad row never cuts the
    batch short. *)
Theorem tick_probes_each_row_once_in_order st E s0 :
  TelegramBot st = Ref ->
  Logger st = Ref ->
  (forall h, E h (ChatThreadGetAllPairs (TargetChatID st)) = None) ->
  let r := tick st E s0 in
  fst r = Done tt
  /\ filter isProbe (calls (snd r))
     = map (fun p => TgReopenForumTopic (TargetChatID st) (TgThreadId p))
           (filter aboveDefaultRow (snapshot st s0)).
Proof.
  intros HB HL Hok r. subst r. rewrite (tick_unfold st E s0 HB). cbv zeta.
  rewrite Hok. cbn [isNil].
  rewrite (forRange_rows st E _ _ HL). cbn [fst snd].
  split; [reflexivity|].
  set (pairs := snapshot st s0).
  assert (Hgen : forall xs s,
    filter isProbe
      (calls (fold_left (fun acc p => rowResult E (TargetChatID st) pairs p acc)
                        xs s))
    = filter isProbe (calls s)
      ++ map (fun p => TgReopenForumTopic (TargetChatID st) (TgThreadId p))
             (filter aboveDefaultRow xs)).
  { induction xs as [|x xs IH]; intros s; cbn [fold_left filter map].
    - rewrite app_nil_r. reflexivity.
    - rewrite IH, rowResult_probes, <- app_assoc. f_equal.
      destruct (aboveDefaultRow x); reflexivity. }
  rewrite Hgen. cbn [calls]. rewrite filter_app. unfold prelude.
  cbn [filter isProbe app].
  destruct (negb _ && _); reflexivity.
Qed.

Lemma tick_probes_each_row_once_in_order_witness :
  let r := tick Scenario.live
                (Scenario.answering (Some "Bad Request: TOPIC_NOT_FOUND")
                                    (Some "deadlock"))
                Scenario.store0 in
  fst r = Done tt
  /\ filter isProbe (calls (snd r)) = [TgReopenForumTopic 100 50].
Proof.
  apply (tick_probes_each_row_once_in_order Scenario.live
           (Scenario.answering (Some "Bad Request: TOPIC_NOT_FOUND")
                               (Some "deadlock"))
           Scenario.store0 eq_refl eq_refl).
  intros h. reflexivity.
Defined.

(** X5. Every topic-name resynchronisation a tick triggers is given the
    target group and the pairing rows as they were read at the start of the
    tick, rows that the same tick has deleted since included. *)
Theorem resync_gets_the_rows_read_at_the_start st E s0 chat ps :
  In (SyncTopicNameByChatThreadPairs chat ps) (calls (snd (tick st E s0))) ->
  chat = TargetChatID st /\ ps = snapshot st s0.
Proof.
  intros Hin.
  destruct (TelegramBot st) eqn:HB.
  { unfold tick, cleanupDeletedTopics in Hin. rewrite HB in Hin.
    destruct Hin. }
  assert (Hpre : Forall (resyncOver (TargetChatID st) (snapshot st s0))
                        (prelude st E ++
                         [ChatThreadGetAllPairs (TargetChatID st)])).
  { apply Forall_app. split; [|repeat constructor].
    unfold prelude. constructor; [exact I|].
    destruct (negb _ && _); repeat constructor. }
  assert (Hall : Forall (resyncOver (TargetChatID st) (snapshot st s0))
                        (calls (snd (tick st E s0)))).
  { assert (Hrows : preserves
                      (frames (fun _ : Store => tt)
                              (resyncOver (TargetChatID st) (snapshot st s0)))
                      (forRange (snapshot st s0)
                         (processPair st E (TargetChatID st) (snapshot st s0)))).
    { apply fr_forRange. intros pair. unfold processPair.
      destruct (TgThreadId pair <=? 1)%Z; [apply fr_ret|].
      apply fr_bind; [apply fr_invoke; exact I|]. intros probeErr.
      destruct (isNil probeErr || negb (isTopicNotFound probeErr)).
      - apply fr_when, fr_bind; [apply fr_invoke; split; reflexivity|].
        intros _. apply fr_ret.
      - apply fr_bind; [apply fr_logger; exact I|]. intros _.
        apply fr_bind; [apply fr_dbDelete; [exact I|reflexivity]|].
        intros e1. apply fr_bind; [apply fr_when, fr_logger; exact I|].
        intros _.
        apply fr_bind; [apply fr_dbDelete; [exact I|reflexivity]|].
        intros e2. apply fr_when, fr_logger. exact I. }
    rewrite (tick_unfold st E s0 HB). cbv zeta.
    destruct (isNil _).
    - destruct (Hrows {| store := s0;
                         calls := prelude st E ++
                                  [ChatThreadGetAllPairs (TargetChatID st)] |})
        as [(new & Hc & Hn) _].
      rewrite Hc. cbn [calls]. apply Forall_app. split; assumption.
    - destruct (fr_logger (fun _ : Store => tt)
                  (resyncOver (TargetChatID st) (snapshot st s0)) st E
                  (LogError "[scheduler] failed to fetch chat_thread_pairs for topic cleanup" [])
                  I {| store := s0;
                       calls := prelude st E ++
                                [ChatThreadGetAllPairs (TargetChatID st)] |})
        as [(new & Hc & Hn) _].
      rewrite Hc. cbn [calls]. apply Forall_app. split; assumption. }
  rewrite Forall_forall in Hall.
  apply (Hall _) in Hin. exact Hin.
Qed.

Lemma resync_gets_the_rows_read_at_the_start_witness :
  100%Z = TargetChatID Scenario.live
  /\ [Scenario.pairC1; pairC2] = snapshot Scenario.live store2.
Proof.
  apply (resync_gets_the_rows_read_at_the_start Scenario.live gone50 store2).
  vm_compute. auto 20.
Defined.

(** Topic 50 is deleted first; the resynchronisation triggered by topic 60
    is still given the row of topic 50. *)
Example resync_is_given_a_deleted_row :
  let after := snd (tick Scenario.live gone50 store2) in
  chat_thread_pairs (store after) = [pairC2]
  /\ In (SyncTopicNameByChatThreadPairs 100 [Scenario.pairC1; pairC2])
        (calls after).
Proof. split; [reflexivity|]. vm_compute. auto 20. Qed.

(** X6. The sweeper is safe under every condition: with any handles (a nil
    logger, a nil database) and any answer of the database it ends normally,
    leaves [chat_thread_pairs] as it is, adds no message row, keeps every
    message row whose thread id has a pairing row, and with a nil database
    handle makes no call at all. *)
Theorem sweep_never_panics_and_keeps_paired_rows st E s :
  let r := sweep st E s in
  fst r = Done tt
  /\ chat_thread_pairs (store (snd r)) = chat_thread_pairs s
  /\ (forall m, In m (msg_id_pairs (store (snd r))) -> In m (msg_id_pairs s))
  /\ (forall m, In m (msg_id_pairs s) ->
                joins (chat_thread_pairs s) m = true ->
                In m (msg_id_pairs (store (snd r))))
  /\ (Database st = Nil -> calls (snd r) = []).
Proof.
  intros r. subst r. rewrite sweep_cases.
  destruct (Database st); [|destruct (E [] (Exec sql))];
    cbn [fst snd store calls execSweep chat_thread_pairs msg_id_pairs];
    (split; [reflexivity|]); (split; [reflexivity|]);
    (split; [|split]); auto; try discriminate.
  - intros m Hm. apply filter_In in Hm. apply Hm.
  - intros m Hm Hj. apply filter_In. auto.
Qed.

(** X7. The sweeper repairs a half-failed cascade. When a row is found
    deleted and the delete of its pairing row succeeds, then, whether or not
    the delete of its message rows succeeded, a sweeper run whose statement
    executes leaves no pairing row and no message row with that thread id,
    provided no other forum group pairs the same thread id. *)
Theorem sweep_repairs_a_half_failed_cascade st E E' tgChatId pairs pair s :
  Logger st = Ref ->
  Database st = Ref ->
  (1 < TgThreadId pair)%Z ->
  classify (E (calls s) (TgReopenForumTopic tgChatId (TgThreadId pair)))
  = NotFound ->
  (forall h, E h (ChatThreadDropPairByTg tgChatId (TgThreadId pair)) = None) ->
  (forall p, In p (chat_thread_pairs (store s)) ->
             TgThreadId p = TgThreadId pair -> TgChatId p = tgChatId) ->
  E' [] (Exec sql) = None ->
  let s1 := store (snd (processPair st E tgChatId pairs pair s)) in
  let s2 := store (snd (sweep st E' s1)) in
  (forall p, In p (chat_thread_pairs s2) -> TgThreadId p <> TgThreadId pair)
  /\ (forall m, In m (msg_id_pairs s2) -> MsgTgThreadId m <> TgThreadId pair).
Proof.
  intros HL HD Ht Hc Hdrop Honly Hexec s1 s2.
  assert (Hp1 : chat_thread_pairs s1
                = filter (fun p => negb ((TgChatId p =? tgChatId)
                                         && (TgThreadId p =? TgThreadId pair)))%Z
                         (chat_thread_pairs (store s))).
  { subst s1. rewrite (processPair_cases st E tgChatId pairs pair s HL).
    unfold rowResult.
    destruct (Z.leb_spec (TgThreadId pair) 1) as [H|_]; [lia|].
    rewrite Hc. unfold cascaded. cbn [snd store]. rewrite Hdrop.
    unfold onSuccess. cbn [isNil dropPairByTg chat_thread_pairs].
    destruct (isNil _); reflexivity. }
  assert (Hnone : forall p, In p (chat_thread_pairs s1) ->
                            TgThreadId p <> TgThreadId pair).
  { intros p Hin Heq. rewrite Hp1 in Hin. apply filter_In in Hin as [Hin Hf].
    apply negb_true_iff, andb_false_iff in Hf.
    destruct Hf as [Hf|Hf]; apply Z.eqb_neq in Hf; [|contradiction].
    apply Hf, Honly; assumption. }
  subst s2. rewrite sweep_cases, HD, Hexec.
  cbn [snd store execSweep chat_thread_pairs msg_id_pairs].
  split; [exact Hnone|].
  intros m Hm Heq. apply filter_In in Hm as [_ Hj].
  apply joins_iff in Hj as (b & Hb & Hbt).
  apply (Hnone b Hb). congruence.
Qed.

Lemma sweep_repairs_a_half_failed_cascade_witness :
  let s1 := store (snd (processPair Scenario.live
                          (Scenario.answering (Some "Bad Request: TOPIC_NOT_FOUND")
                                              (Some "deadlock"))
                          100 [Scenario.pairC1] Scenario.pairC1
                          {| store := Scenario.store0; calls := [] |})) in
  let s2 := store (snd (sweep Scenario.live (fun _ _ => None) s1)) in
  (forall p, In p (chat_thread_pairs s2) -> TgThreadId p <> 50%Z)
  /\ (forall m, In m (msg_id_pairs s2) -> MsgTgThreadId m <> 50%Z).
Proof.
  apply (sweep_repairs_a_half_failed_cascade Scenario.live
           (Scenario.answering (Some "Bad Request: TOPIC_NOT_FOUND")
                               (Some "deadlock"))
           (fun _ _ => None) 100 [Scenario.pairC1] Scenario.pairC1
           {| store := Scenario.store0; calls := [] |}
           eq_refl eq_refl eq_refl eq_refl).
  - intros h. reflexivity.
  - intros p [<-|[<-|[]]]; [discriminate|reflexivity].
  - reflexivity.
Defined.

(** *** A nil logger *)

Lemma tick_without_logger st E s0 :
  Logger st = Nil ->
  let after := snd (tick st E s0) in
  Forall (fun c => isDelete c = false) (calls after) /\ store after = s0.
Proof.
  intros HL.
  apply (frames_from_start (fun s => s) (fun c => isDelete c = false)).
  apply fr_tick; auto.
  intros pairs pair. unfold processPair.
  destruct (TgThreadId pair <=? 1)%Z; [apply fr_ret|].
  apply fr_invoke_k; [reflexivity|]. intros s.
  destruct (isNil _ || negb _).
  - apply fr_when. apply fr_bind; [apply fr_invoke; reflexivity|].
    intros _. apply fr_ret.
  - unfold logger_ at 1. rewrite HL. intros s'. apply frames_refl.
Qed.

(** X8. A tick can panic only on a nil logger, and a tick that panics has
    deleted nothing: if a tick panics then [State.Logger] is nil and the bot
    is set, the store is the one the tick started on and no delete call was
    made (the cascade's first statement is the unguarded log line). *)
Theorem tick_panics_only_without_a_logger st E s0 :
  fst (tick st E s0) = Panicked ->
  Logger st = Nil /\ TelegramBot st = Ref
  /\ store (snd (tick st E s0)) = s0
  /\ Forall (fun c => isDelete c = false) (calls (snd (tick st E s0))).
Proof.
  intros Hp.
  destruct (Logger st) eqn:HL.
  - split; [reflexivity|].
    destruct (TelegramBot st) eqn:HB.
    + exfalso. revert Hp. unfold tick, cleanupDeletedTopics. rewrite HB.
      discriminate.
    + split; [reflexivity|].
      destruct (tick_without_logger st E s0 HL) as [Hc Hs]. split; assumption.
  - exfalso. unfold tick in Hp.
    rewrite (tick_ends_normally st E _ HL) in Hp. discriminate.
Qed.

Lemma tick_panics_only_without_a_logger_witness :
  Logger Scenario.noLogger = Nil /\ TelegramBot Scenario.noLogger = Ref
  /\ store (snd (tick Scenario.noLogger gone50 store2)) = store2
  /\ Forall (fun c => isDelete c = false)
            (calls (snd (tick Scenario.noLogger gone50 store2))).
Proof.
  apply (tick_panics_only_without_a_logger Scenario.noLogger gone50 store2).
  reflexivity.
Defined.

(** The panic of the witness: the probe of topic 50 answers not-found and
    the log line that precedes the cascade dereferences the nil logger. *)
Example nil_logger_panics_before_the_cascade :
  tick Scenario.noLogger gone50 store2
  = (Panicked,
     {| store := store2;
        calls := [WaSyncContacts; ChatThreadGetAllPairs 100;
                  TgReopenForumTopic 100 50] |}).
Proof. reflexivity. Qed.

End MoreTickFacts.

(** ** Wrapped error texts *)

Module WrapFacts.

Import GoStrings Scheduler StringFacts.

Lemma Contains_upper_wrapped (pre text post sig : string) :
  Contains (ToUpper text) sig = true ->
  CaseFold.allASCII sig = true -> CaseFold.noLower sig = true ->
  Contains (ToUpper (pre ++ text ++ post)) sig = true.
Proof.
  intros H Ha Hl. apply (Contains_upper sig Ha Hl).
  apply containsUpper_wrapped, (Contains_upper sig Ha Hl), H.
Qed.

(** X9. Wrapping an error does not hide a deleted topic: if an error text
    classifies as [NotFound], so does every text that contains it (a prefix
    such as the one [fmt.Errorf] adds, a suffix, or both); and a text that
    contains "TOPIC_NOT_MODIFIED" in any letter case keeps being recognised
    by [isTopicNotModified] when wrapped. *)
Theorem not_found_survives_wrapping (pre text post : string) :
  (classify (Some text) = NotFound ->
   classify (Some (pre ++ text ++ post)%string) = NotFound)
  /\ (isTopicNotModified (Some text) = true ->
      isTopicNotModified (Some (pre ++ text ++ post)%string) = true).
Proof.
  split.
  - unfold classify. cbn [isNil orb].
    destruct (isTopicNotFound (Some text)) eqn:Hf.
    2:{ cbn [negb]. destruct (isTopicNotModified _); discriminate. }
    intros _.
    assert (Hw : isTopicNotFound (Some (pre ++ text ++ post)%string) = true).
    { unfold isTopicNotFound in *. cbv zeta in *.
      apply orb_true_iff in Hf as [Hf|Hf];
        [apply orb_true_iff in Hf as [Hf|Hf]|];
        apply (Contains_upper_wrapped pre text post) in Hf;
        try reflexivity; rewrite Hf; rewrite ?orb_true_r; reflexivity. }
    rewrite Hw. reflexivity.
  - unfold isTopicNotModified. intros H.
    apply (Contains_upper_wrapped pre text post) in H; try reflexivity.
    exact H.
Qed.

Example wrapped_not_found :
  classify (Some "unable to reopenForumTopic: Bad Request: topic_id_invalid (400)")
  = NotFound.
Proof. reflexivity. Qed.

End WrapFacts.

(** ** The earlier revision of the tick against the current one *)

Module LegacyFacts.

Import Scheduler TickSpec TickFacts SweepFacts TickViews MoreTickFacts TickStores.

(** What the earlier test accepts, the current one accepts. *)
Lemma legacy_implies_current (err : error) :
  Legacy.isTopicNotFound err = true -> isTopicNotFound err = true.
Proof.
  destruct err as [text|]; [|discriminate].
  unfold Legacy.isTopicNotFound, isTopicNotFound. cbv zeta.
  intros H. apply orb_true_iff in H as [H|H]; rewrite H;
    rewrite ?orb_true_r; reflexivity.
Qed.

Lemma notFound_branch (nf : error -> bool) (e : error) :
  nf None = false -> isNil e || negb (nf e) = negb (nf e).
Proof. intros H. destruct e; [reflexivity|]. cbn. rewrite H. reflexivity. Qed.

(** The store after a row of the current revision. *)
Lemma current_row_store F tgChatId pairs pair s :
  store (rowResult (fun _ => F) tgChatId pairs pair s)
  = rowStore isTopicNotFound F tgChatId (store s) pair.
Proof.
  unfold rowResult, rowStore, classify.
  destruct (TgThreadId pair <=? 1)%Z; [reflexivity|].
  rewrite (notFound_branch isTopicNotFound) by reflexivity.
  destruct (isTopicNotFound _); cbn [negb].
  - reflexivity.
  - destruct (isTopicNotModified _); reflexivity.
Qed.

Lemma current_rows_store F tgChatId pairs xs :
  forall s,
    store (fold_left (fun acc p => rowResult (fun _ => F) tgChatId pairs p acc)
                     xs s)
    = fold_left (rowStore isTopicNotFound F tgChatId) xs (store s).
Proof.
  induction xs as [|x xs IH]; intros s; cbn [fold_left]; [reflexivity|].
  rewrite IH, current_row_store. reflexivity.
Qed.

(** A row of the earlier revision. *)
Lemma legacy_row st F tgChatId pair s :
  Logger st = Ref ->
  exists cs,
    LegacyTick.processPair st (fun _ => F) tgChatId pair s
    = (Done tt,
       {| store := rowStore Legacy.isTopicNotFound F tgChatId (store s) pair;
          calls := cs |}).
Proof.
  intros HL. unfold LegacyTick.processPair, rowStore.
  destruct (TgThreadId pair <=? 1)%Z.
  { exists (calls s). destruct s; reflexivity. }
  rewrite (bind_logger st _ _ _ _ HL), bind_invoke.
  rewrite (notFound_branch Legacy.isTopicNotFound) by reflexivity.
  destruct (Legacy.isTopicNotFound _); cbn [negb].
  - rewrite (bind_logger st _ _ _ _ HL), bind_dbDelete.
    rewrite (bind_when_failed_log st _ _ _ _ _ HL), bind_dbDelete.
    rewrite (when_failed_log st _ _ _ _ HL). cbn [calls store].
    eexists. reflexivity.
  - unfold logger_. rewrite HL. rewrite bind_invoke. cbn [ret calls store].
    eexists. reflexivity.
Qed.

Lemma legacy_rows st F tgChatId (HL : Logger st = Ref) xs :
  forall s, exists cs,
    forRange xs (LegacyTick.processPair st (fun _ => F) tgChatId) s
    = (Done tt,
       {| store := fold_left (rowStore Legacy.isTopicNotFound F tgChatId)
                             xs (store s);
          calls := cs |}).
Proof.
  induction xs as [|x xs IH]; intros s; cbn [forRange fold_left].
  { exists (calls s). destruct s; reflexivity. }
  unfold bind. destruct (legacy_row st F tgChatId x s HL) as [cs ->].
  destruct (IH {| store := rowStore Legacy.isTopicNotFound F tgChatId
                                    (store s) x;
                  calls := cs |}) as [cs' ->].
  exists cs'. reflexivity.
Qed.

(** *** Stores ordered by their rows *)

Lemma within_refl s : within s s.
Proof. split; auto. Qed.

Lemma within_trans a b c : within a b -> within b c -> within a c.
Proof. intros [H1 H2] [H3 H4]. split; auto. Qed.

Lemma cascade_shrinks e1 e2 tgChatId threadId s :
  within (onSuccess e2 (dropPairByTg tgChatId threadId)
            (onSuccess e1 (deletePairsByThreadId tgChatId threadId) s)) s.
Proof.
  unfold onSuccess, within.
  destruct (isNil e1), (isNil e2);
    cbn [dropPairByTg deletePairsByThreadId chat_thread_pairs msg_id_pairs];
    split; intros x Hx; try exact Hx;
    try (apply filter_In in Hx; apply Hx).
Qed.

Lemma cascade_monotone e1 e2 tgChatId threadId a b :
  within a b ->
  within (onSuccess e2 (dropPairByTg tgChatId threadId)
            (onSuccess e1 (deletePairsByThreadId tgChatId threadId) a))
         (onSuccess e2 (dropPairByTg tgChatId threadId)
            (onSuccess e1 (deletePairsByThreadId tgChatId threadId) b)).
Proof.
  intros [Hp Hm]. unfold onSuccess, within.
  destruct (isNil e1), (isNil e2);
    cbn [dropPairByTg deletePairsByThreadId chat_thread_pairs msg_id_pairs];
    split; intros x Hx; auto;
    apply filter_In in Hx as [Hx Hf]; apply filter_In; auto.
Qed.

Lemma rows_within F tgChatId xs :
  forall a b,
    within a b ->
    within (fold_left (rowStore isTopicNotFound F tgChatId) xs a)
           (fold_left (rowStore Legacy.isTopicNotFound F tgChatId) xs b).
Proof.
  induction xs as [|x xs IH]; intros a b Hab; cbn [fold_left]; [exact Hab|].
  apply IH. unfold rowStore.
  destruct (TgThreadId x <=? 1)%Z; [exact Hab|].
  destruct (Legacy.isTopicNotFound _) eqn:Hold.
  - rewrite (legacy_implies_current _ Hold). apply cascade_monotone, Hab.
  - destruct (isTopicNotFound _); [|exact Hab].
    eapply within_trans; [apply cascade_shrinks|exact Hab].
Qed.

Lemma rows_agree F tgChatId xs :
  (forall threadId,
      isTopicNotFound (F (TgReopenForumTopic tgChatId threadId))
      = Legacy.isTopicNotFound (F (TgReopenForumTopic tgChatId threadId))) ->
  forall a,
    fold_left (rowStore isTopicNotFound F tgChatId) xs a
    = fold_left (rowStore Legacy.isTopicNotFound F tgChatId) xs a.
Proof.
  intros Hsame. induction xs as [|x xs IH]; intros a; cbn [fold_left];
    [reflexivity|].
  rewrite IH. f_equal. unfold rowStore. rewrite Hsame. reflexivity.
Qed.

(** *** The two revisions, tick by tick *)

Lemma legacy_tick_unfold st E s0 :
  TelegramBot st = Ref -> Logger st = Ref ->
  let chat := TargetChatID st in
  let c0 := [LogInfo "[scheduler] running topic cleanup job" [];
             LogInfo "[scheduler] fetching chat_thread_pairs for topic cleanup"
                     [chat]] in
  LegacyTick.tick st E s0 =
  if isNil (E c0 (ChatThreadGetAllPairs chat)) then
    forRange (snapshot st s0) (LegacyTick.processPair st E chat)
             {| store := s0; calls := c0 ++ [ChatThreadGetAllPairs chat] |}
  else
    logger_ st E
      (LogError "[scheduler] failed to fetch chat_thread_pairs for topic cleanup" [])
      {| store := s0; calls := c0 ++ [ChatThreadGetAllPairs chat] |}.
Proof.
  intros HB HL chat c0. unfold LegacyTick.tick, LegacyTick.cleanupDeletedTopics.
  rewrite HB. cbn [isNilPtr].
  rewrite (bind_logger st E _ _ _ HL). cbn [calls store app].
  rewrite (bind_logger st E _ _ _ HL). cbn [calls store app].
  cbv zeta. rewrite bind_dbGetAllPairs. cbn [calls store]. fold chat.
  subst c0. unfold snapshot. fold chat.
  destruct (isNil (E _ (ChatThreadGetAllPairs chat))) eqn:H1;
    cbn zeta; rewrite ?H1; reflexivity.
Qed.

(** X10. The current revision of the tick removes every row that the
    earlier revision removed: when the collaborators' answers depend on the
    call alone, every row left by the current tick is a row left by the
    earlier one, in both tables, whatever the handles are; and the two leave
    the same store when no probe answer is told apart by the two
    [isTopicNotFound] (none mentions "TOPIC_ID_INVALID" alone). *)
Theorem current_tick_removes_what_the_earlier_one_did
        st (F : Call -> error) s0 :
  let E : Env := fun _ => F in
  let cur := store (snd (tick st E s0)) in
  let old := store (snd (LegacyTick.tick st E s0)) in
  within cur old
  /\ ((forall threadId,
         isTopicNotFound (F (TgReopenForumTopic (TargetChatID st) threadId))
         = Legacy.isTopicNotFound
             (F (TgReopenForumTopic (TargetChatID st) threadId))) ->
      cur = old).
Proof.
  intros E cur old.
  destruct (TelegramBot st) eqn:HB.
  { assert (Hc : cur = s0).
    { subst cur. unfold tick, cleanupDeletedTopics. rewrite HB. reflexivity. }
    assert (Ho : old = s0).
    { subst old. unfold LegacyTick.tick, LegacyTick.cleanupDeletedTopics.
      rewrite HB. unfold logger_. destruct (Logger st); reflexivity. }
    rewrite Hc, Ho. split; [apply within_refl|reflexivity]. }
  destruct (Logger st) eqn:HL.
  { assert (Hc : cur = s0) by (apply tick_without_logger, HL).
    assert (Ho : old = s0).
    { subst old. unfold LegacyTick.tick, LegacyTick.cleanupDeletedTopics.
      unfold logger_ at 1. rewrite HL. reflexivity. }
    rewrite Hc, Ho. split; [apply within_refl|reflexivity]. }
  subst cur old.
  rewrite (tick_unfold st E s0 HB), (legacy_tick_unfold st E s0 HB HL).
  cbv zeta. subst E. cbv beta.
  destruct (isNil (F (ChatThreadGetAllPairs (TargetChatID st)))).
  - rewrite (forRange_rows st _ _ _ HL). cbn [snd].
    rewrite current_rows_store. cbn [store].
    match goal with |- context [forRange ?xs ?body ?s] =>
      destruct (legacy_rows st F (TargetChatID st) HL xs s) as [cs ->] end.
    cbn [snd store]. split.
    + apply rows_within, within_refl.
    + intros Hsame. apply rows_agree, Hsame.
  - unfold logger_. rewrite HL. cbn. split; [apply within_refl|reflexivity].
Qed.

(** An answer that only the current revision reads as not-found: the row of
    topic 50 and its message rows are gone after the current tick and still
    there after the earlier one. *)
Example invalid_topic_id_is_cleaned_by_the_current_tick_only :
  let E : Env := fun _ => invalid50 in
  store (snd (tick Scenario.live E Scenario.store0))
  = {| chat_thread_pairs := [Scenario.pairGeneral];
       msg_id_pairs := [Scenario.msgG] |}
  /\ store (snd (LegacyTick.tick Scenario.live E Scenario.store0))
     = Scenario.store0.
Proof. split; vm_compute; reflexivity. Qed.

(** X11. The earlier revision of the tick logs before it looks at the bot
    handle, so with a nil logger it panics at its first statement, having
    called nothing and changed nothing, even when there is no bot; and it
    never synchronises contacts nor topic names. *)
Theorem earlier_tick_needs_a_logger_and_never_resyncs st E s0 :
  (Logger st = Nil ->
   LegacyTick.tick st E s0 = (Panicked, {| store := s0; calls := [] |}))
  /\ Forall (fun c => c <> WaSyncContacts /\ isResync c = false)
            (calls (snd (LegacyTick.tick st E s0))).
Proof.
  split.
  - intros HL. unfold LegacyTick.tick, LegacyTick.cleanupDeletedTopics.
    unfold logger_ at 1. rewrite HL. reflexivity.
  - set (P := fun c => c <> WaSyncContacts /\ isResync c = false).
    assert (Hi : forall m f, P (LogInfo m f))
      by (split; [discriminate|reflexivity]).
    assert (He : forall m f, P (LogError m f))
      by (split; [discriminate|reflexivity]).
    assert (Hfail : forall b m f,
               preserves (frames (fun _ : Store => tt) P)
                         (when b (logger_ st E (LogError m f))))
      by (intros; apply fr_when, fr_logger, He).
    apply (frames_from_start (fun _ => tt) P).
    unfold LegacyTick.cleanupDeletedTopics.
    apply fr_bind; [apply fr_logger, Hi|]. intros _.
    destruct (isNilPtr _); [apply fr_ret|].
    apply fr_bind; [apply fr_logger, Hi|]. intros _. cbv zeta.
    apply fr_bind;
      [apply fr_dbGetAllPairs; split; [discriminate|reflexivity]|].
    intros [pairs e]. destruct (negb (isNil e)); [apply fr_logger, He|].
    apply fr_forRange. intros pair. unfold LegacyTick.processPair.
    destruct (TgThreadId pair <=? 1)%Z; [apply fr_ret|].
    apply fr_bind; [apply fr_logger, Hi|]. intros _.
    apply fr_invoke_k; [split; [discriminate|reflexivity]|]. intros s.
    destruct (isNil _ || negb _); [apply fr_logger, Hi|].
    apply fr_bind; [apply fr_logger, Hi|]. intros _.
    apply fr_bind; [|intros e1; apply fr_bind; [apply Hfail|]; intros _;
                     apply fr_bind; [|intros e2; apply Hfail]].
    all: apply fr_dbDelete; [split; [discriminate|reflexivity]|reflexivity].
Qed.

End LegacyFacts.

(** ** A row of the tick, in its place in the tick *)

Module RowFacts.

Import GoStrings CaseFold ProbeSpec Scheduler TickSpec.
Import ClassifyFacts TickFacts TickViews MoreTickFacts TickStores LegacyFacts.

Lemma forRange_app {A} (body : A -> M unit) (xs ys : list A) s s' :
  forRange xs body s = (Done tt, s') ->
  forRange (xs ++ ys) body s = forRange ys body s'.
Proof.
  revert s. induction xs as [|x xs IH]; intros s H; cbn [forRange app] in *.
  - injection H as ->. reflexivity.
  - unfold bind in *. destruct (body x s) as [[[]|] s1]; [|discriminate].
    apply IH, H.
Qed.

(** A tick that read the pairing table runs the body of the loop on each
    row in turn: it is at [pair] in the state the rows before have left. *)
Lemma tick_reaches_the_row st E s0 before pair rest s :
  TelegramBot st = Ref ->
  E (prelude st E) (ChatThreadGetAllPairs (TargetChatID st)) = None ->
  snapshot st s0 = before ++ pair :: rest ->
  forRange before (processPair st E (TargetChatID st) (snapshot st s0))
           (loopStart st E s0) = (Done tt, s) ->
  tick st E s0
  = bind (processPair st E (TargetChatID st) (snapshot st s0) pair)
         (fun _ => forRange rest
                     (processPair st E (TargetChatID st) (snapshot st s0)))
         s.
Proof.
  intros HB Hok Hrows Hbefore.
  rewrite (tick_unfold st E s0 HB). cbv zeta. rewrite Hok. cbn [isNil].
  fold (loopStart st E s0).
  rewrite Hrows at 1.
  rewrite (forRange_app _ before (pair :: rest) _ s Hbefore).
  reflexivity.
Qed.

(** The rows that follow only add calls and only remove rows. *)
Lemma rowResult_later E chat pairs p s :
  (exists later, calls (rowResult E chat pairs p s) = calls s ++ later)
  /\ within (store (rowResult E chat pairs p s)) (store s).
Proof.
  unfold rowResult. destruct (TgThreadId p <=? 1)%Z.
  { split; [exists []; rewrite app_nil_r; reflexivity|apply within_refl]. }
  destruct (classify _).
  - split; [eexists; reflexivity|apply within_refl].
  - split; [eexists; reflexivity|apply within_refl].
  - unfold cascaded. cbn [calls store]. split.
    + eexists. rewrite <- !app_assoc. reflexivity.
    + apply cascade_shrinks.
Qed.

Lemma rows_later E chat pairs xs :
  forall s,
    let s' := fold_left (fun acc p => rowResult E chat pairs p acc) xs s in
    (exists later, calls s' = calls s ++ later)
    /\ within (store s') (store s).
Proof.
  induction xs as [|x xs IH]; intros s; cbn [fold_left].
  { split; [exists []; rewrite app_nil_r; reflexivity|apply within_refl]. }
  destruct (IH (rowResult E chat pairs x s)) as [(l2 & E2) W2].
  destruct (rowResult_later E chat pairs x s) as [(l1 & E1) W1].
  split.
  - exists (l1 ++ l2). cbv zeta in E2. rewrite E2, E1, app_assoc. reflexivity.
  - eapply within_trans; eassumption.
Qed.

(** C4. Every pairing row above the default topics whose probe classifies
    as [NotFound] is cascade-deleted by the tick. When the tick has read the
    pairing table and the rows before [pair] have left the state [s], the
    tick probes the topic of [pair] and, the answer being a not-found error,
    logs the clean-up, calls [MsgIdDeletePairsByThreadId] for the group and
    the thread of the row, and then [ChatThreadDropPairByTg] for the same
    group and thread. The second call is made whatever error [e1] the first
    returned; each delete takes effect exactly when it succeeded; a failure
    is only logged; the tick then goes on with the rows that follow and ends
    normally. At the end of the tick no message row of the thread is left if
    the first delete succeeded, and no pairing row of the thread is left if
    the second did. ([State.Logger] is set: the branch logs without a nil
    check.) *)
Theorem not_found_row_is_cascade_deleted st E s0 before pair rest s :
  TelegramBot st = Ref ->
  Logger st = Ref ->
  let tgChatId := TargetChatID st in
  let pairs := snapshot st s0 in
  let row := processPair st E tgChatId pairs in
  E (prelude st E) (ChatThreadGetAllPairs tgChatId) = None ->
  pairs = before ++ pair :: rest ->
  forRange before row (loopStart st E s0) = (Done tt, s) ->
  (1 < TgThreadId pair)%Z ->
  let threadId := TgThreadId pair in
  let probe := TgReopenForumTopic tgChatId threadId in
  classify (E (calls s) probe) = NotFound ->
  let delMsgs := MsgIdDeletePairsByThreadId tgChatId threadId in
  let delPair := ChatThreadDropPairByTg tgChatId threadId in
  let c1 :=
    calls s ++
    [probe;
     LogInfo "[scheduler] detected deleted Telegram topic, cleaning up"
             [tgChatId; threadId]] in
  let e1 := E c1 delMsgs in
  let c2 :=
    c1 ++ [delMsgs] ++
    onFailure e1
      (LogError "[scheduler] failed to delete msg_id_pairs for deleted topic"
                [threadId]) in
  let e2 := E c2 delPair in
  let s' :=
    {| store :=
         onSuccess e2 (dropPairByTg tgChatId threadId)
           (onSuccess e1 (deletePairsByThreadId tgChatId threadId) (store s));
       calls :=
         c2 ++ [delPair] ++
         onFailure e2
           (LogError "[scheduler] failed to delete chat_thread_pairs for deleted topic"
                     [threadId]) |} in
  let final := snd (tick st E s0) in
  tick st E s0 = forRange rest row s'
  /\ fst (tick st E s0) = Done tt
  /\ (exists later, calls final = calls s' ++ later)
  /\ (e1 = None ->
      forall m, In m (msg_id_pairs (store final)) ->
                MsgTgChatId m = tgChatId -> MsgTgThreadId m <> threadId)
  /\ (e2 = None ->
      forall p, In p (chat_thread_pairs (store final)) ->
                TgChatId p = tgChatId -> TgThreadId p <> threadId).
Proof.
  intros HB HL tgChatId pairs row Hok Hrows Hbefore Ht threadId probe Hc.
  cbv zeta.
  assert (Htick : tick st E s0
                  = forRange rest row
                      (cascaded E tgChatId threadId s)).
  { rewrite (tick_reaches_the_row st E s0 before pair rest s HB Hok Hrows
                                  Hbefore).
    unfold bind. fold tgChatId pairs.
    rewrite (processPair_cases st E tgChatId pairs pair s HL).
    unfold rowResult. fold threadId probe.
    destruct (Z.leb_spec threadId 1) as [H|_]; [lia|].
    rewrite Hc. reflexivity. }
  assert (Hs' : cascaded E tgChatId threadId s
                = {| store := store (cascaded E tgChatId threadId s);
                     calls := calls (cascaded E tgChatId threadId s) |})
    by (destruct (cascaded E tgChatId threadId s); reflexivity).
  unfold cascaded in Hs' at 2 3. cbn [store calls] in Hs'.
  fold probe in Hs'. rewrite <- Hs'. clear Hs'.
  set (s' := cascaded E tgChatId threadId s) in *.
  rewrite Htick. unfold row.
  rewrite (forRange_rows st E tgChatId pairs HL rest s'). cbn [fst snd].
  destruct (rows_later E tgChatId pairs rest s') as [Hlater [Wp Wm]].
  split; [reflexivity|]. split; [reflexivity|]. split; [exact Hlater|].
  split.
  - intros He1 m Hm Hchat Hth. apply Wm in Hm.
    subst s'. unfold cascaded in Hm. cbn [store] in Hm. fold probe in Hm.
    rewrite He1 in Hm. unfold onSuccess in Hm at 2. cbn [isNil] in Hm.
    assert (Hin : In m (msg_id_pairs
                          (deletePairsByThreadId tgChatId threadId (store s)))).
    { unfold onSuccess in Hm. destruct (isNil _); exact Hm. }
    cbn [deletePairsByThreadId msg_id_pairs] in Hin.
    apply filter_In in Hin as [_ Hf].
    rewrite Hchat, Hth, !Z.eqb_refl in Hf. discriminate.
  - intros He2 p Hp Hchat Hth. apply Wp in Hp.
    subst s'. unfold cascaded in Hp. cbn [store] in Hp. fold probe in Hp.
    rewrite He2 in Hp. unfold onSuccess in Hp at 1. cbn [isNil] in Hp.
    cbn [dropPairByTg chat_thread_pairs] in Hp.
    apply filter_In in Hp as [_ Hf].
    rewrite Hchat, Hth, !Z.eqb_refl in Hf. discriminate.
Qed.

(** The first delete fails, the second is made all the same and removes the
    pairing row; the default topic, the row before, was passed without a
    call. *)
Lemma not_found_row_is_cascade_deleted_witness :
  tick Scenario.live
       (Scenario.answering (Some "Bad Request: TOPIC_NOT_FOUND")
                           (Some "deadlock"))
       Scenario.store0
  = (Done tt,
     {| store := {| chat_thread_pairs := [Scenario.pairGeneral];
                    msg_id_pairs := msg_id_pairs Scenario.store0 |};
        calls :=
          [WaSyncContacts; ChatThreadGetAllPairs 100;
           TgReopenForumTopic 100 50;
           LogInfo "[scheduler] detected deleted Telegram topic, cleaning up"
                   [100%Z; 50%Z];
           MsgIdDeletePairsByThreadId 100 50;
           LogError "[scheduler] failed to delete msg_id_pairs for deleted topic"
                    [50%Z];
           ChatThreadDropPairByTg 100 50] |}).
Proof.
  exact (proj1 (not_found_row_is_cascade_deleted Scenario.live
                  (Scenario.answering (Some "Bad Request: TOPIC_NOT_FOUND")
                                      (Some "deadlock"))
                  Scenario.store0 [Scenario.pairGeneral] Scenario.pairC1 []
                  (loopStart Scenario.live
                     (Scenario.answering (Some "Bad Request: TOPIC_NOT_FOUND")
                                         (Some "deadlock"))
                     Scenario.store0)
                  eq_refl eq_refl eq_refl eq_refl eq_refl eq_refl eq_refl)).
Defined.

(** C8, as amended. For every pairing row above the default topics that
    the tick comes to: when the probe error contains "TOPIC_NOT_MODIFIED"
    and none of the not-found signatures (the text read as the code reads
    it, upper-cased), the row changes nothing in the store and the only
    call made after the probe is the topic-name resynchronisation over the
    pairs of the tick; when the probe returns nil, the row changes nothing
    in the store and makes no call after the probe. In both cases the tick
    goes on with the rows that follow. *)
Theorem existing_topic_row_deletes_nothing st E s0 before pair rest s :
  TelegramBot st = Ref ->
  let tgChatId := TargetChatID st in
  let pairs := snapshot st s0 in
  let row := processPair st E tgChatId pairs in
  E (prelude st E) (ChatThreadGetAllPairs tgChatId) = None ->
  pairs = before ++ pair :: rest ->
  forRange before row (loopStart st E s0) = (Done tt, s) ->
  (1 < TgThreadId pair)%Z ->
  let probe := TgReopenForumTopic tgChatId (TgThreadId pair) in
  let resync := SyncTopicNameByChatThreadPairs tgChatId pairs in
  (forall text,
      E (calls s) probe = Some text ->
      containsUpper text notModifiedSignature ->
      ~ mentionsUpper text notFoundSignatures ->
      tick st E s0
      = forRange rest row
          {| store := store s; calls := calls s ++ [probe; resync] |})
  /\ (E (calls s) probe = None ->
      tick st E s0
      = forRange rest row
          {| store := store s; calls := calls s ++ [probe] |}).
Proof.
  intros HB tgChatId pairs row Hok Hrows Hbefore Ht probe resync.
  rewrite (tick_reaches_the_row st E s0 before pair rest s HB Hok Hrows
                                Hbefore).
  fold tgChatId pairs row. unfold bind.
  assert (Hrow : isNil (E (calls s) probe)
                  || negb (isTopicNotFound (E (calls s) probe)) = true ->
                  row pair s
                  = (Done tt,
                     {| store := store s;
                        calls := calls s ++
                                 probe ::
                                 (if isTopicNotModified (E (calls s) probe)
                                  then [resync] else []) |})).
  { intros Hb. unfold row. unfold processPair.
    destruct (Z.leb_spec (TgThreadId pair) 1) as [H|_]; [lia|].
    rewrite bind_invoke. fold probe. rewrite Hb.
    destruct (isTopicNotModified _); cbn [when]; [|reflexivity].
    rewrite bind_invoke. cbn [calls store ret].
    rewrite <- app_assoc. reflexivity. }
  split.
  - intros text He Hm Hn. rewrite He in Hrow.
    apply isTopicNotModified_upper in Hm.
    destruct (isTopicNotFound (Some text)) eqn:Hf.
    { exfalso. apply Hn, isTopicNotFound_upper, Hf. }
    rewrite Hm in Hrow. rewrite (Hrow eq_refl). reflexivity.
  - intros He. rewrite He in Hrow. rewrite (Hrow eq_refl). reflexivity.
Qed.

Lemma existing_topic_row_deletes_nothing_witness :
  tick Scenario.live
       (Scenario.answering (Some "Bad Request: TOPIC_NOT_MODIFIED") None)
       Scenario.store0
  = (Done tt,
     {| store := Scenario.store0;
        calls := [WaSyncContacts; ChatThreadGetAllPairs 100;
                  TgReopenForumTopic 100 50;
                  SyncTopicNameByChatThreadPairs 100
                    [Scenario.pairGeneral; Scenario.pairC1]] |}).
Proof.
  apply (proj1 (existing_topic_row_deletes_nothing Scenario.live
                  (Scenario.answering (Some "Bad Request: TOPIC_NOT_MODIFIED")
                                      None)
                  Scenario.store0 [Scenario.pairGeneral] Scenario.pairC1 []
                  (loopStart Scenario.live
                     (Scenario.answering
                        (Some "Bad Request: TOPIC_NOT_MODIFIED") None)
                     Scenario.store0)
                  eq_refl eq_refl eq_refl eq_refl eq_refl)
               "Bad Request: TOPIC_NOT_MODIFIED").
  - reflexivity.
  - apply isTopicNotModified_upper. reflexivity.
  - intros H. apply isTopicNotFound_upper in H. discriminate H.
Defined.

End RowFacts.

(** ** More on the dispatch queue *)

Module MoreQueueFacts.

Import Queue QueueInv QueueFacts QueueViews.

Section Platform.

Variable World : Type.
Variable cfg : Settings.

Lemma pacing_app enabled ms (a b : list (Event World)) :
  pacing enabled ms (a ++ b)
  = fold_left (paceStep enabled ms) b (pacing enabled ms a).
Proof. apply fold_left_app. Qed.

Lemma pacing_inv (q : Queue World) :
  reachable cfg q ->
  pacing (QueueEnabled cfg) (Interval cfg) (trace q)
  = Some (paceOf (worker q)).
Proof.
  induction 1 as [w|q a q' Hq IH Hstep]; [reflexivity|].
  destruct a; cbn [step] in Hstep.
  - destruct (Nat.ltb _ _); injection Hstep as <-; unfold log; cbn [trace worker];
      rewrite pacing_app, IH; cbn; destruct (paceOf (worker q)); reflexivity.
  - destruct (nth_error _ _); [|discriminate].
    destruct (Nat.ltb _ _); [|discriminate].
    injection Hstep as <-; unfold log; cbn [trace worker];
      rewrite pacing_app, IH; cbn; destruct (paceOf (worker q)); reflexivity.
  - destruct (worker q) eqn:Hw; try discriminate.
    injection Hstep as <-. cbn [trace worker]. rewrite IH. reflexivity.
  - destruct (worker q) eqn:Hw; try discriminate.
    destruct (jobCh q); [discriminate|].
    injection Hstep as <-; unfold log; cbn [trace worker].
    rewrite pacing_app, IH. reflexivity.
  - destruct (worker q) eqn:Hw; try discriminate.
    destruct (callFn _ _).
    injection Hstep as <-; unfold log; cbn [trace worker].
    rewrite pacing_app, IH. cbn. destruct (QueueEnabled cfg); reflexivity.
  - destruct (worker q) eqn:Hw; try discriminate.
    injection Hstep as <-; unfold log; cbn [trace worker].
    rewrite pacing_app, IH. cbn. rewrite Z.eqb_refl. reflexivity.
  - destruct (chans q ch); [|discriminate].
    injection Hstep as <-; unfold log; cbn [trace worker].
    rewrite pacing_app, IH. cbn. destruct (paceOf (worker q)); reflexivity.
  - injection Hstep as <-. cbn [trace worker]. exact IH.
Qed.

Lemma sleeps_inv (q : Queue World) :
  reachable cfg q ->
  forall ms, In (ESleep ms) (trace q) ->
             QueueEnabled cfg = true /\ ms = Interval cfg.
Proof.
  induction 1 as [w|q a q' Hq IH Hstep]; [intros ms []|].
  intros ms Hin.
  destruct (reachable_inv World cfg q Hq) as [Hf _].
  destruct a; cbn [step] in Hstep;
    repeat match type of Hstep with
           | context [match ?x with _ => _ end] => destruct x eqn:?
           end;
    try discriminate; injection Hstep as <-; unfold log in Hin;
    cbn [trace] in Hin; try (apply (IH ms Hin));
    apply in_app_or in Hin as [Hin|Hin]; try (apply (IH ms Hin));
    cbn in Hin; repeat (destruct Hin as [Hin|Hin]; try discriminate);
    try contradiction.
  injection Hin as <-. split; [|reflexivity].
  (* the worker sleeps only after a job run with rate limiting on *)
  pose proof (pacing_inv q Hq) as Hp.
  match goal with H : worker q = Sleeping |- _ => rewrite H in Hp end.
  cbn in Hp.
  destruct (QueueEnabled cfg) eqn:He; [reflexivity|].
  exfalso. clear - Hp.
  assert (Hno : forall (tr : list (Event World)) p,
             p <> Some Owed ->
             fold_left (paceStep false (Interval cfg)) tr p
             <> Some Owed).
  { induction tr as [|e tr IHt]; intros p Hp'; cbn [fold_left]; [exact Hp'|].
    apply IHt. destruct p as [[| |]|]; destruct e; cbn; try congruence;
      try (destruct (_ =? _)%Z; congruence). }
  apply (Hno (trace q) (Some Ready)); [discriminate|exact Hp].
Qed.

(** X12. The worker follows its loop's pacing. With rate limiting on (the
    [QueueEnabled] the worker reads on each iteration), the trace of every
    reachable state is a sequence of rounds "begin a job, finish it,
    pause", the next job beginning only after the pause; with rate limiting
    off the rounds have no pause. Every pause is as long as [WaInterval] or
    [TgInterval], the interval computed when the package was initialised,
    whatever [QueueIntervalMs] is while the worker runs; and there is no
    pause when rate limiting is off. *)
Theorem worker_pauses_after_every_job (q : Queue World) :
  reachable cfg q ->
  pacing (QueueEnabled cfg) (Interval cfg) (trace q)
  = Some (paceOf (worker q))
  /\ (forall ms, In (ESleep ms) (trace q) ->
                 QueueEnabled cfg = true /\ ms = Interval cfg).
Proof.
  intros Hq. split; [apply pacing_inv, Hq|apply sleeps_inv, Hq].
Qed.

(** *** The worker cannot get stuck *)

Lemma worker_step (q : Queue World) :
  worker q <> NotStarted ->
  (jobCh q = [] /\ sendq q = [] /\ worker q = Receiving)
  \/ exists a q1,
       workerMove a /\ step cfg q a = Some q1 /\ backlog q1 < backlog q
       /\ worker q1 <> NotStarted.
Proof.
  intros Hw. unfold backlog.
  destruct (worker q) as [| |job|] eqn:Ew; [congruence| | |].
  - destruct (jobCh q) as [|job rest] eqn:Eb.
    + destruct (sendq q) as [|job rest] eqn:Es; [left; auto|].
      right. exists (Admit 0). cbn [step]. rewrite Es, Eb. cbn.
      eexists. split; [exact I|]. split; [reflexivity|]. cbn. rewrite Ew.
      split; [cbn; lia|discriminate].
    + right. exists WorkerReceive. cbn [step]. rewrite Ew, Eb.
      eexists. split; [exact I|]. split; [reflexivity|]. cbn.
      split; [lia|discriminate].
  - right. exists WorkerRun. cbn [step]. rewrite Ew.
    destruct (callFn (job_fn job) (world q)) as [r w'].
    eexists. split; [exact I|]. split; [reflexivity|]. cbn.
    destruct (QueueEnabled cfg); cbn; split; try lia; discriminate.
  - right. exists WorkerWake. cbn [step]. rewrite Ew.
    eexists. split; [exact I|]. split; [reflexivity|]. cbn.
    split; [lia|discriminate].
Qed.

Lemma worker_drains n : forall q : Queue World,
  worker q <> NotStarted -> backlog q <= n ->
  exists acts q',
    Forall workerMove acts
    /\ run cfg q acts = Some q'
    /\ jobCh q' = [] /\ sendq q' = [] /\ worker q' = Receiving.
Proof.
  induction n as [|n IH]; intros q Hw Hn;
    destruct (worker_step q Hw) as [Hdone|(a & q1 & Hm & Hs & Hlt & Hw1)];
    try (exists [], q; split; [constructor|split; [reflexivity|exact Hdone]]).
  - lia.
  - destruct (IH q1 Hw1) as (acts & q' & Hf & Hr & H); [lia|].
    exists (a :: acts), q'. cbn [run]. rewrite Hs.
    split; [constructor; assumption|]. auto.
Qed.

(** Worker moves make no call. *)
Lemma workerMove_called (q : Queue World) acts q' :
  Forall workerMove acts -> run cfg q acts = Some q' ->
  called (trace q') = called (trace q).
Proof.
  intros Hf. revert q. induction Hf as [|a acts Ha _ IH]; intros q Hr;
    cbn [run] in Hr.
  - injection Hr as <-. reflexivity.
  - destruct (step cfg q a) as [q1|] eqn:Hs; [|discriminate].
    rewrite (IH q1 Hr).
    destruct a; try contradiction; cbn [step] in Hs;
      repeat match type of Hs with
             | context [match ?x with _ => _ end] => destruct x
             end;
      try discriminate; injection Hs as <-; unfold log; cbn [trace];
      rewrite called_app; cbn; apply app_nil_r.
Qed.

(** X13. A started worker cannot get stuck, whatever the jobs return. From
    every reachable state whose workers are started there is a schedule made
    only of worker moves and admissions of parked senders (no caller has to
    arrive or return) after which the buffer is empty, no sender is parked,
    the worker waits for the next job, and the jobs finished are exactly the
    jobs of all the calls made. *)
Theorem started_worker_finishes_every_job (q : Queue World) :
  reachable cfg q ->
  worker q <> NotStarted ->
  exists acts q',
    Forall workerMove acts
    /\ run cfg q acts = Some q'
    /\ jobCh q' = [] /\ sendq q' = [] /\ worker q' = Receiving
    /\ Permutation (finished (trace q')) (called (trace q)).
Proof.
  intros Hq Hw.
  destruct (worker_drains (backlog q) q Hw (le_n _))
    as (acts & q' & Hf & Hr & Hb & Hs & Hwk).
  exists acts, q'. repeat (split; [assumption|]).
  assert (Hq' : reachable cfg q') by (eapply run_reachable; eassumption).
  pose proof (no_job_dropped World cfg q' Hq') as Hp.
  rewrite Hb, Hs, Hwk in Hp. cbn in Hp. rewrite app_nil_r in Hp.
  rewrite <- (workerMove_called q acts q' Hf Hr). symmetry. exact Hp.
Qed.

(** *** Result channels *)

Lemma returned_app (a b : list (Event World)) :
  returned (a ++ b) = returned a ++ returned b.
Proof. apply flat_map_app. Qed.

(** The jobs finished, running, buffered and parked are all different. *)
Lemma jobs_nodup (q : Queue World) :
  reachable cfg q ->
  NoDup (finished (trace q) ++ running (worker q)
         ++ map job_ch (jobCh q) ++ map job_ch (sendq q)).
Proof.
  intros Hq. eapply Permutation_NoDup; [apply (no_job_dropped World cfg), Hq|].
  apply (called_nodup World cfg), Hq.
Qed.

Lemma running_cell_empty (q : Queue World) job :
  reachable cfg q -> worker q = Running job -> chans q (job_ch job) = None.
Proof.
  intros Hq Hw. destruct (chans q (job_ch job)) as [r|] eqn:Hc; [|reflexivity].
  exfalso. destruct (reachable_inv World cfg q Hq) as [_ Hi].
  destruct (inv_cell q Hi _ _ Hc) as [w Hin].
  pose proof (jobs_nodup q Hq) as Hnd. rewrite Hw in Hnd.
  apply NoDup_app_inv in Hnd as (_ & _ & Hdis).
  apply (Hdis (job_ch job)).
  - apply in_finished. eauto.
  - cbn. auto.
Qed.

Lemma returned_inv (q : Queue World) :
  reachable cfg q ->
  NoDup (returned (trace q))
  /\ forall ch, In ch (returned (trace q)) ->
                In ch (finished (trace q)) /\ chans q ch = None.
Proof.
  induction 1 as [w|q a q' Hq [IHn IHc] Hstep];
    [split; [constructor|intros ch []]|].
  destruct (reachable_inv World cfg q Hq) as [_ Hi].
  destruct a; cbn [step] in Hstep.
  - destruct (Nat.ltb _ _); injection Hstep as <-; unfold log;
      cbn [trace chans]; rewrite returned_app, finished_app; cbn;
      rewrite !app_nil_r; auto.
  - destruct (nth_error _ _); [|discriminate].
    destruct (Nat.ltb _ _); [|discriminate].
    injection Hstep as <-; unfold log; cbn [trace chans];
      rewrite returned_app, finished_app; cbn; rewrite !app_nil_r; auto.
  - destruct (worker q); try discriminate.
    injection Hstep as <-. cbn [trace chans]. auto.
  - destruct (worker q); try discriminate.
    destruct (jobCh q); [discriminate|].
    injection Hstep as <-; unfold log; cbn [trace chans];
      rewrite returned_app, finished_app; cbn; rewrite !app_nil_r; auto.
  - destruct (worker q) as [| |job|] eqn:Hw; try discriminate.
    destruct (callFn _ _) as [r w'].
    injection Hstep as <-; unfold log; cbn [trace chans].
    rewrite returned_app, finished_app. cbn. rewrite app_nil_r.
    split; [exact IHn|]. intros ch Hin. destruct (IHc ch Hin) as [Hf Hc].
    split; [apply in_or_app; auto|].
    unfold setChan. destruct (Nat.eqb_spec ch (job_ch job)) as [->|_];
      [|exact Hc].
    exfalso. pose proof (jobs_nodup q Hq) as Hnd. rewrite Hw in Hnd.
    apply NoDup_app_inv in Hnd as (_ & _ & Hdis).
    apply (Hdis (job_ch job) Hf). cbn. auto.
  - destruct (worker q); try discriminate.
    injection Hstep as <-; unfold log; cbn [trace chans];
      rewrite returned_app, finished_app; cbn; rewrite !app_nil_r; auto.
  - destruct (chans q ch) as [r|] eqn:Hch; [|discriminate].
    injection Hstep as <-; unfold log; cbn [trace chans].
    rewrite returned_app, finished_app. cbn. rewrite app_nil_r.
    assert (Hnew : ~ In ch (returned (trace q))).
    { intros Hin. destruct (IHc ch Hin) as [_ Hc]. congruence. }
    split.
    + apply NoDup_app; [exact IHn|repeat constructor; intros []|].
      intros x Hx [<-|[]]. exact (Hnew Hx).
    + intros x Hx. unfold setChan.
      apply in_app_or in Hx as [Hx|[<-|[]]].
      * destruct (IHc x Hx) as [Hf Hc]. split; [exact Hf|].
        destruct (Nat.eqb x ch); [reflexivity|exact Hc].
      * rewrite Nat.eqb_refl. split; [|reflexivity].
        destruct (inv_cell q Hi _ _ Hch) as [w Hw].
        apply in_finished. eauto.
  - injection Hstep as <-. cbn [trace chans]. auto.
Qed.

(** X14. The one-shot result channel is used once in each direction. In
    every reachable state no channel was written twice; while a job runs its
    channel is empty, so the write the job ends with does not block the
    worker; no call returned twice; and a call that returned had its job
    finished and left its channel empty. *)
Theorem result_channel_is_written_and_read_once (q : Queue World) :
  reachable cfg q ->
  NoDup (finished (trace q))
  /\ (forall job, worker q = Running job -> chans q (job_ch job) = None)
  /\ NoDup (returned (trace q))
  /\ (forall ch, In ch (returned (trace q)) ->
                 In ch (finished (trace q)) /\ chans q ch = None).
Proof.
  intros Hq. split; [|split; [|apply returned_inv, Hq]].
  - pose proof (jobs_nodup q Hq) as Hnd.
    apply NoDup_app_inv in Hnd. apply Hnd.
  - intros job Hw. apply running_cell_empty; assumption.
Qed.

(** *** Before the workers are started *)

Lemma not_started_inv (q : Queue World) :
  reachable cfg q ->
  worker q = NotStarted ->
  started (trace q) = [] /\ returned (trace q) = []
  /\ forall ch, chans q ch = None.
Proof.
  induction 1 as [w|q a q' Hq IH Hstep]; [auto|].
  intros Hw.
  destruct a; cbn [step] in Hstep.
  - destruct (Nat.ltb _ _); injection Hstep as <-; cbn [worker] in Hw;
      destruct (IH Hw) as (Hs & Hr & Hc); unfold log; cbn [trace chans];
      rewrite started_app, returned_app, Hs, Hr; cbn; auto.
  - destruct (nth_error _ _); [|discriminate].
    destruct (Nat.ltb _ _); [|discriminate].
    injection Hstep as <-; cbn [worker] in Hw;
      destruct (IH Hw) as (Hs & Hr & Hc); unfold log; cbn [trace chans];
      rewrite started_app, returned_app, Hs, Hr; cbn; auto.
  - destruct (worker q); try discriminate.
    injection Hstep as <-. discriminate Hw.
  - destruct (worker q); try discriminate.
    destruct (jobCh q); [discriminate|].
    injection Hstep as <-. discriminate Hw.
  - destruct (worker q); try discriminate.
    destruct (callFn _ _).
    injection Hstep as <-. cbn [worker] in Hw.
    destruct (QueueEnabled cfg); discriminate.
  - destruct (worker q); try discriminate.
    injection Hstep as <-. discriminate Hw.
  - destruct (chans q ch) as [r|] eqn:Hch; [|discriminate].
    injection Hstep as <-. cbn [worker] in Hw.
    destruct (IH Hw) as (_ & _ & Hc). rewrite Hc in Hch. discriminate.
  - injection Hstep as <-. cbn [worker] in Hw. cbn [trace chans]. auto.
Qed.

(** X15. Until [StartWorkers] is called nothing runs: in every reachable
    state whose workers are not started no job was begun, no call returned,
    every result channel is empty, every caller that arrived has its job
    held in the buffer or is parked on the full buffer, and no caller can
    return. *)
Theorem nothing_runs_before_StartWorkers (q : Queue World) :
  reachable cfg q ->
  worker q = NotStarted ->
  started (trace q) = []
  /\ returned (trace q) = []
  /\ Permutation (called (trace q))
       (map job_ch (jobCh q) ++ map job_ch (sendq q))
  /\ (forall ch, step cfg q (Receive ch) = None).
Proof.
  intros Hq Hw. destruct (not_started_inv q Hq Hw) as (Hs & Hr & Hc).
  split; [exact Hs|]. split; [exact Hr|]. split.
  - destruct (reachable_inv World cfg q Hq) as [[Hsent _ _ _ Hp] _].
    rewrite Hp, Hsent, Hs. reflexivity.
  - intros ch. cbn [step]. rewrite Hc. reflexivity.
Qed.

End Platform.

Lemma served_reachable : reachable Scenario.cfg0 served.
Proof.
  apply (run_reachable unit Scenario.cfg0 (init tt) round).
  - apply reach_init.
  - reflexivity.
Qed.

Lemma unstarted_reachable : reachable Scenario.cfg0 unstarted.
Proof.
  apply (run_reachable unit Scenario.cfg0 (init tt) early).
  - apply reach_init.
  - reflexivity.
Qed.

Lemma servedLate_reachable : reachable cfgLate servedLate.
Proof.
  apply (run_reachable unit cfgLate (init tt) round).
  - apply reach_init.
  - reflexivity.
Qed.

Lemma worker_pauses_after_every_job_witness :
  pacing true 0 (trace servedLate) = Some Ready
  /\ (forall ms, In (ESleep ms) (trace servedLate) ->
                 true = true /\ ms = 0%Z).
Proof.
  exact (worker_pauses_after_every_job unit cfgLate servedLate
                                       servedLate_reachable).
Defined.

(** An interval of 100 ms configured after initialisation is not the pause:
    the worker pauses for 0 ms. *)
Example late_interval_is_not_the_pause :
  QueueIntervalMs cfgLate = 100%Z
  /\ In (ESleep 0) (trace servedLate)
  /\ ~ In (ESleep 100) (trace servedLate).
Proof.
  split; [reflexivity|]. split.
  - vm_compute. do 7 right. left. reflexivity.
  - intros H. vm_compute in H.
    repeat (destruct H as [H|H]; [discriminate H|]). exact H.
Qed.

Lemma started_worker_finishes_every_job_witness :
  exists acts q',
    Forall workerMove acts
    /\ run Scenario.cfg0 Scenario.busy acts = Some q'
    /\ jobCh q' = [] /\ sendq q' = [] /\ worker q' = Receiving
    /\ Permutation (finished (trace q')) [0; 1].
Proof.
  apply (started_worker_finishes_every_job unit Scenario.cfg0 Scenario.busy).
  - apply busy_reachable.
  - vm_compute. discriminate.
Defined.

Lemma result_channel_is_written_and_read_once_witness :
  NoDup (finished (trace served))
  /\ (forall job, worker served = Running job ->
                  chans served (job_ch job) = None)
  /\ NoDup (returned (trace served))
  /\ (forall ch, In ch (returned (trace served)) ->
                 In ch (finished (trace served)) /\ chans served ch = None).
Proof.
  exact (result_channel_is_written_and_read_once unit Scenario.cfg0 served
                                                 served_reachable).
Defined.

Lemma nothing_runs_before_StartWorkers_witness :
  started (trace unstarted) = []
  /\ returned (trace unstarted) = []
  /\ Permutation (called (trace unstarted)) ([0; 1] ++ [])
  /\ (forall ch, step Scenario.cfg0 unstarted (Receive ch) = None).
Proof.
  apply (nothing_runs_before_StartWorkers unit Scenario.cfg0 unstarted).
  - apply unstarted_reachable.
  - reflexivity.
Defined.

(** The round of [served]: one job begun, finished and returned, one pause
    of the configured 100 ms, the second job still in the buffer. *)
Example served_trace :
  started (trace served) = [0]
  /\ finished (trace served) = [0]
  /\ returned (trace served) = [0]
  /\ In (ESleep 100) (trace served)
  /\ map job_ch (jobCh served) = [1].
Proof. vm_compute. repeat split. right; right; right; right; right; right; auto. Qed.

End MoreQueueFacts.

Module ProfilePicFacts.

Import ProfilePic.

Lemma logger_calls st c :
  snd (logger_ st c) = match Logger st with Nil => [] | Ref => [c] end.
Proof. unfold logger_. destruct (Logger st); reflexivity. Qed.

(** The function, path by path. *)
Lemma SendWaProfilePicToTopic_calls st E jid threadId caption :
  snd (SendWaProfilePicToTopic st E jid threadId caption) =
  let '(info, err) := getProfilePictureInfo E jid in
  let log c := match Logger st with Nil => [] | Ref => [c] end in
  GetProfilePictureInfo jid false ::
  if negb (isNil err) then log (Warn "Failed to fetch profile picture info")
  else if noPicture info then log (Info "No profile picture info or URL")
  else
    HttpGet (urlOf info) ::
    if negb (isNil (snd (httpGet E (urlOf info)))) then
      log (Warn "Failed to download profile picture")
    else
      ReadAll ::
      (if negb (isNil (snd (readAll E))) then
         log (Warn "Failed to read profile picture bytes")
       else
         TgSendPhoto (TargetChatID st) (fst (readAll E)) threadId caption ::
         log (if negb (isNil (tgSendPhoto E (TargetChatID st) (fst (readAll E))
                                          threadId caption))
              then Warn "Failed to send profile picture to Telegram"
              else Info "Profile picture sent to Telegram topic"))
      ++ [BodyClose].
Proof.
  unfold SendWaProfilePicToTopic, andThen, ask, deferClose, logger_.
  destruct (getProfilePictureInfo E jid) as [info err].
  destruct (isNil err); cbn [negb].
  2:{ destruct (Logger st); reflexivity. }
  destruct (noPicture info).
  { destruct (Logger st); reflexivity. }
  destruct (httpGet E (urlOf info)) as [status err1]. cbn [snd].
  destruct (isNil err1); cbn [negb].
  2:{ destruct (Logger st); reflexivity. }
  destruct (readAll E) as [bytes err2]. cbn [fst snd].
  destruct (isNil err2); cbn [negb].
  2:{ destruct (Logger st); reflexivity. }
  destruct (isNil (tgSendPhoto E _ _ _ _)); cbn [negb];
    destruct (Logger st); reflexivity.
Qed.

Lemma SendWaProfilePicToTopic_outcome st E jid threadId caption :
  fst (SendWaProfilePicToTopic st E jid threadId caption)
  = match Logger st with Ref => Done tt | Nil => Panicked end.
Proof.
  unfold SendWaProfilePicToTopic, andThen, ask, deferClose, logger_.
  destruct (getProfilePictureInfo E jid) as [info err].
  destruct (isNil err); cbn [negb].
  2:{ destruct (Logger st); reflexivity. }
  destruct (noPicture info).
  { destruct (Logger st); reflexivity. }
  destruct (httpGet E (urlOf info)) as [status err1].
  destruct (isNil err1); cbn [negb].
  2:{ destruct (Logger st); reflexivity. }
  destruct (readAll E) as [bytes err2].
  destruct (isNil err2); cbn [negb].
  2:{ destruct (Logger st); reflexivity. }
  destruct (isNil (tgSendPhoto E _ _ _ _)); cbn [negb];
    destruct (Logger st); reflexivity.
Qed.

Ltac paths st E jid :=
  rewrite SendWaProfilePicToTopic_calls;
  unfold fetched, opened;
  destruct (getProfilePictureInfo E jid) as [info err];
  destruct (isNil err); cbn [negb andb];
  [ destruct (noPicture info); cbn [negb andb];
    [ | destruct (isNil (snd (httpGet E (urlOf info)))); cbn [negb andb];
        [ destruct (isNil (snd (readAll E))); cbn [negb andb] | ] ]
  | ].

(** X16. The photo is sent exactly when the picture was fetched: if the
    picture info comes without error and names a URL, the download answers
    and its body is read to the end, the function makes one [TgSendPhoto]
    call, for the configured group, with the bytes read, the thread id and
    the caption it was given; otherwise it makes none. The status code of
    the download is not looked at, and a nil logger changes nothing to
    this. *)
Theorem photo_is_sent_exactly_when_fetched st E jid threadId caption :
  filter isSend (snd (SendWaProfilePicToTopic st E jid threadId caption))
  = if fetched E jid
    then [TgSendPhoto (TargetChatID st) (fst (readAll E)) threadId caption]
    else [].
Proof.
  paths st E jid; cbn [filter isSend app];
    try rewrite filter_app; cbn [filter isSend app];
    repeat match goal with
           | |- context [match Logger st with _ => _ end] => destruct (Logger st)
           | |- context [if negb ?b then _ else _] => destruct b; cbn [negb]
           end; reflexivity.
Qed.

(** A page served with status 404 is sent as the photo. *)
Example a_404_page_is_sent_as_photo :
  SendWaProfilePicToTopic Scenario.live env404 "123@s.whatsapp.net" 50 "Ann"
  = (Done tt,
     [GetProfilePictureInfo "123@s.whatsapp.net" false;
      HttpGet "https://pps.example/a.jpg";
      ReadAll;
      TgSendPhoto 100 "<html>not found</html>" 50 "Ann";
      Info "Profile picture sent to Telegram topic";
      BodyClose]).
Proof. reflexivity. Qed.

(** X17. The response body is closed exactly when there is one: once a
    response was obtained, [Body.Close] is called once and is the last call
    of the function, on every later path (read failure, send failure,
    success, and the panic of a nil logger); when no response was obtained
    the function neither reads nor closes a body. *)
Theorem body_is_closed_exactly_when_opened st E jid threadId caption :
  let calls := snd (SendWaProfilePicToTopic st E jid threadId caption) in
  if opened E jid
  then exists l, calls = l ++ [BodyClose] /\ filter isClose l = []
  else filter isClose calls = [] /\ ~ In ReadAll calls.
Proof.
  cbv zeta. paths st E jid; first
    [ (* a body was opened *)
      eexists; split;
      [ rewrite !app_comm_cons; reflexivity
      | cbn [filter isClose];
        repeat match goal with
               | |- context [match Logger st with _ => _ end] =>
                   destruct (Logger st)
               | |- context [if negb ?b then _ else _] =>
                   destruct b; cbn [negb]
               end; reflexivity ]
    | (* no body *)
      destruct (Logger st); cbn; (split; [reflexivity|]);
      intros H; repeat (destruct H as [H|H]; try discriminate); exact H ].
Qed.

(** X18. With a logger the function ends normally on every path and logs
    exactly one line; with a nil logger it panics on every path, having
    logged nothing, after whatever calls came before the log line (the photo
    included, when the picture was fetched). *)
Theorem one_log_line_on_every_path st E jid threadId caption :
  let r := SendWaProfilePicToTopic st E jid threadId caption in
  fst r = match Logger st with Ref => Done tt | Nil => Panicked end
  /\ List.length (filter isLog (snd r))
     = match Logger st with Ref => 1 | Nil => 0 end.
Proof.
  cbv zeta. split; [apply SendWaProfilePicToTopic_outcome|].
  paths st E jid; cbn [filter isLog app];
    try rewrite filter_app; cbn [filter isLog app];
    repeat match goal with
           | |- context [match Logger st with _ => _ end] => destruct (Logger st)
           | |- context [if negb ?b then _ else _] => destruct b; cbn [negb]
           end; reflexivity.
Qed.

End ProfilePicFacts.
